(** * redis-stores: a shallow embedding of the typed store layer

    The development follows the TypeScript sources: the value parsers of
    [stores/string/string-parsers.ts] (both revisions of [objectParser]),
    the helpers of [utils.ts], the key bookkeeping of [BaseStore], the
    methods of [BaseStringStore], [JsonStore] and [RedisSet], and the query
    compiler, the index differ and the reconciliation of the index of
    [JsonSearchStore].  Built-ins of the JavaScript runtime that the sources
    call ([String.prototype.trim], [parseInt], [Number.prototype.toString],
    [JSON.stringify], [JSON.parse], ...) are modelled in [Module JS]; the
    client that the stores are given is modelled by the commands they send
    ([Module Client], [Module Commands]).  The embedding comes first, the
    properties of each part after it. *)

From Stdlib Require Import String Ascii List NArith ZArith Lia Bool.
From Stdlib Require Import DecimalString DecimalPos DecimalN.
Import ListNotations.
Local Open Scope list_scope.
Local Open Scope string_scope.

(* ===================================================================== *)
(** * The JavaScript runtime, as far as the sources use it *)
(* ===================================================================== *)

Module JS.

(** Exceptions.  The sources only ever [throw new Error(message)]; the
    other constructors are the errors the runtime itself raises. *)
Inductive exn : Type :=
| Error (message : string)
| TypeError (message : string)
| SyntaxError (message : string)
| RangeError (message : string).

(** A computation that returns or throws. *)
Inductive result (A : Type) : Type :=
| Ok (a : A)
| Throw (e : exn).
Arguments Ok {A} a.
Arguments Throw {A} e.

Definition bind {A B : Type} (r : result A) (k : A -> result B) : result B :=
  match r with
  | Ok a => k a
  | Throw e => Throw e
  end.

Definition fmap {A B : Type} (f : A -> B) (r : result A) : result B :=
  bind r (fun a => Ok (f a)).

(** [Array.prototype.map] with a callback that may throw: the first
    exception aborts the traversal. *)
Fixpoint mapM {A B : Type} (f : A -> result B) (l : list A) : result (list B) :=
  match l with
  | [] => Ok []
  | x :: xs => bind (f x) (fun y => bind (mapM f xs) (fun ys => Ok (y :: ys)))
  end.

(** ** Strings

    A string is a sequence of code units; the model keeps the code units
    below 256 (Rocq's [ascii]). *)

(** [s.startsWith(p)] *)
Definition startsWith (s p : string) : bool := String.prefix p s.

(** [s.substring(n)] and [s.slice(n)] for [0 <= n]: drop the first [n]
    code units. *)
Fixpoint substring_from (n : nat) (s : string) : string :=
  match n, s with
  | O, _ => s
  | S _, EmptyString => EmptyString
  | S n', String _ s' => substring_from n' s'
  end.

(** [parts.join(sep)] *)
Fixpoint join (sep : string) (parts : list string) : string :=
  match parts with
  | [] => ""
  | [p] => p
  | p :: ps => p ++ sep ++ join sep ps
  end.

(** White space and line terminators of ECMAScript among the code units
    below 256: TAB, LF, VT, FF, CR, SP and NBSP. *)
Definition isWhiteSpace (c : ascii) : bool :=
  let n := nat_of_ascii c in
  ((9 <=? n) && (n <=? 13) || (n =? 32) || (n =? 160))%nat.

Fixpoint trimStart (s : string) : string :=
  match s with
  | EmptyString => EmptyString
  | String c s' => if isWhiteSpace c then trimStart s' else s
  end.

(** Drops the white space at the end: a character is kept when it is not
    white space or when something is kept after it. *)
Fixpoint trimEnd (s : string) : string :=
  match s with
  | EmptyString => EmptyString
  | String c s' =>
      match trimEnd s' with
      | EmptyString => if isWhiteSpace c then EmptyString else String c EmptyString
      | t => String c t
      end
  end.

(** [s.trim()] *)
Definition trim (s : string) : string := trimEnd (trimStart s).

(** [s.replace(/c/g, by)] for a pattern that is one literal character. *)
Fixpoint replaceAllChar (c : ascii) (by_ : string) (s : string) : string :=
  match s with
  | EmptyString => EmptyString
  | String d s' =>
      if Ascii.eqb c d then by_ ++ replaceAllChar c by_ s'
      else String d (replaceAllChar c by_ s')
  end.

(** Whether the first code unit of [s] is [c]. *)
Definition headIs (c : ascii) (s : string) : bool :=
  match s with
  | String d _ => Ascii.eqb d c
  | EmptyString => false
  end.

Definition tail (s : string) : string := substring_from 1 s.

(** ** Numbers

    A finite non-zero number is represented by what the ECMAScript
    algorithm Number::toString reads off it: its sign, the decimal digits
    of the shortest integer [s] that identifies it ([k] digits, none of
    them a leading or trailing zero) and the exponent [n], so that the
    number is [s * 10^(n-k)], that is [0.d1...dk * 10^n].  The two zeros
    are identified, as [===] does.  Rounding to a binary double is not
    modelled: every such decimal stands for itself. *)
Inductive number : Type :=
| NaN
| Infinity (negative : bool)
| Zero
| Finite (negative : bool) (digits : string) (n : Z).

Definition isDigit (c : ascii) : bool :=
  let n := nat_of_ascii c in ((48 <=? n) && (n <=? 57))%nat.

Fixpoint allDigits (s : string) : bool :=
  match s with
  | EmptyString => true
  | String c s' => isDigit c && allDigits s'
  end.

Fixpoint lastChar (s : string) : option ascii :=
  match s with
  | EmptyString => None
  | String c EmptyString => Some c
  | String _ s' => lastChar s'
  end.

(** The digit strings of canonical numbers: not empty, digits only, and
    neither the first nor the last is ["0"]. *)
Definition canonicalDigits (s : string) : bool :=
  allDigits s
  && match s with
     | String c _ => negb (Ascii.eqb c "0")
     | EmptyString => false
     end
  && match lastChar s with
     | Some c => negb (Ascii.eqb c "0")
     | None => false
     end.

Fixpoint zeros (n : nat) : string :=
  match n with
  | O => ""
  | S n' => String "0" (zeros n')
  end.

Fixpoint take (n : nat) (s : string) : string :=
  match n, s with
  | S n', String c s' => String c (take n' s')
  | _, _ => ""
  end.

(** The decimal digits of a natural number, ["0"] for zero. *)
Definition decimalDigits (n : N) : string :=
  NilEmpty.string_of_uint (N.to_uint n).

(** Number::toString(x), radix 10, steps 5 to 10: the text of the number
    [0.d1...dk * 10^n], [k] the number of digits: the digits followed by
    zeros, the digits around a decimal point, the digits after ["0."] and
    zeros, or the exponential notation. *)
Definition magnitudeToString (ds : string) (n : Z) : string :=
  let k := Z.of_nat (String.length ds) in
  if ((k <=? n) && (n <=? 21))%Z then
    ds ++ zeros (Z.to_nat (n - k))
  else if ((0 <? n) && (n <=? 21))%Z then
    take (Z.to_nat n) ds ++ "." ++ substring_from (Z.to_nat n) ds
  else if ((-6 <? n) && (n <=? 0))%Z then
    "0." ++ zeros (Z.to_nat (- n)) ++ ds
  else
    let e := (n - 1)%Z in
    let mantissa :=
      match ds with
      | String d (String c r) => String d ("." ++ String c r)
      | _ => ds
      end in
    mantissa ++ "e" ++ (if (e <? 0)%Z then "-" else "+") ++ decimalDigits (Z.abs_N e).

(** Number::toString(x), radix 10. *)
Definition toString (x : number) : string :=
  match x with
  | NaN => "NaN"
  | Infinity neg => if neg then "-Infinity" else "Infinity"
  | Zero => "0"
  | Finite neg ds n =>
      if neg then "-" ++ magnitudeToString ds n else magnitudeToString ds n
  end.

Fixpoint stripTrailingZeros (s : string) : string :=
  match s with
  | EmptyString => EmptyString
  | String c s' =>
      match stripTrailingZeros s' with
      | EmptyString => if Ascii.eqb c "0" then EmptyString else String c EmptyString
      | t => String c t
      end
  end.

(** The number that a mathematical integer denotes. *)
Definition number_of_Z (z : Z) : number :=
  match z with
  | Z0 => Zero
  | _ =>
      let ds := decimalDigits (Z.abs_N z) in
      Finite (z <? 0)%Z (stripTrailingZeros ds) (Z.of_nat (String.length ds))
  end.

(** The value of a character as a digit in some radix up to 36. *)
Definition digitOf (c : ascii) : option N :=
  let n := nat_of_ascii c in
  if ((48 <=? n) && (n <=? 57))%nat then Some (N.of_nat (n - 48))
  else if ((97 <=? n) && (n <=? 122))%nat then Some (N.of_nat (n - 87))
  else if ((65 <=? n) && (n <=? 90))%nat then Some (N.of_nat (n - 55))
  else None.

Definition isRadixDigit (radix : N) (c : ascii) : bool :=
  match digitOf c with
  | Some d => (d <? radix)%N
  | None => false
  end.

Fixpoint takeWhile (p : ascii -> bool) (s : string) : string :=
  match s with
  | EmptyString => EmptyString
  | String c s' => if p c then String c (takeWhile p s') else EmptyString
  end.

Fixpoint dropWhile (p : ascii -> bool) (s : string) : string :=
  match s with
  | EmptyString => EmptyString
  | String c s' => if p c then dropWhile p s' else s
  end.

(** The integer that a string of radix digits denotes, most significant
    digit first. *)
Fixpoint radixValue (radix : N) (acc : N) (s : string) : N :=
  match s with
  | EmptyString => acc
  | String c s' =>
      match digitOf c with
      | Some d => radixValue radix (acc * radix + d)%N s'
      | None => acc
      end
  end.

(** [parseInt(string)] with no radix argument: leading white space is
    skipped, then an optional sign and an optional [0x] are read, then the
    longest run of digits; what follows is ignored.  No digit gives NaN. *)
Definition parseIntAfterSign (negative : bool) (s : string) : number :=
  let hex := startsWith s "0x" || startsWith s "0X" in
  let radix := if hex then 16%N else 10%N in
  let s := if hex then substring_from 2 s else s in
  match takeWhile (isRadixDigit radix) s with
  | EmptyString => NaN
  | z =>
      let mathInt := Z.of_N (radixValue radix 0 z) in
      number_of_Z (if negative then - mathInt else mathInt)%Z
  end.

Definition parseInt (input : string) : number :=
  let s := trimStart input in
  parseIntAfterSign (headIs "-" s) (if headIs "-" s || headIs "+" s then tail s else s).

Definition isNaN (x : number) : bool :=
  match x with
  | NaN => true
  | _ => false
  end.

Definition number_eqb (x y : number) : bool :=
  match x, y with
  | Infinity a, Infinity b => Bool.eqb a b
  | Zero, Zero => true
  | Finite a ds n, Finite b es m => Bool.eqb a b && String.eqb ds es && (n =? m)%Z
  | _, _ => false
  end.

(** ** Dates

    A valid Date is represented by the UTC calendar fields of its instant;
    the conversion between instants (milliseconds since the epoch) and
    calendar fields is not modelled.  [InvalidDate] is the Date whose time
    value is NaN. *)
Inductive Date : Type :=
| InvalidDate
| UTC (year : Z) (month day hours minutes seconds milliseconds : N).

(** [new Date(0)] *)
Definition epoch : Date := UTC 1970 1 1 0 0 0 0.

Definition isLeapYear (y : Z) : bool :=
  ((y mod 4 =? 0) && (negb (y mod 100 =? 0) || (y mod 400 =? 0)))%Z.

Definition daysInMonth (y : Z) (m : N) : N :=
  (if m =? 2 then (if isLeapYear y then 29 else 28)
   else if (m =? 4) || (m =? 6) || (m =? 9) || (m =? 11) then 30
   else 31)%N.

(** The calendar fields of an instant.  The years kept are those all of
    whose instants a Date can hold (a Date reaches from -271821-04-20 to
    +275760-09-13). *)
Definition validFields (y : Z) (mo d h mi sec ms : N) : bool :=
  ((-271821 <? y) && (y <? 275760))%Z
  && ((1 <=? mo) && (mo <=? 12) && (1 <=? d) && (d <=? daysInMonth y mo)
      && (h <? 24) && (mi <? 60) && (sec <? 60) && (ms <? 1000))%N.

Definition digitChar (n : N) : ascii := ascii_of_N (48 + n mod 10).

(** The last [width] decimal digits of [n], zero padded. *)
Fixpoint pad (width : nat) (n : N) : string :=
  match width with
  | O => ""
  | S w => pad w (n / 10) ++ String (digitChar n) ""
  end.

(** [d.toISOString()]: [YYYY-MM-DDTHH:mm:ss.sssZ], the year with six
    digits and a sign outside 0..9999; a RangeError on an Invalid Date. *)
Definition toISOString (d : Date) : result string :=
  match d with
  | InvalidDate => Throw (RangeError "Invalid time value")
  | UTC y mo d h mi sec ms =>
      let year :=
        if ((0 <=? y) && (y <=? 9999))%Z then pad 4 (Z.to_N y)
        else (if (y <? 0)%Z then "-" else "+") ++ pad 6 (Z.abs_N y) in
      Ok (year ++ "-" ++ pad 2 mo ++ "-" ++ pad 2 d ++ "T" ++ pad 2 h ++ ":"
               ++ pad 2 mi ++ ":" ++ pad 2 sec ++ "." ++ pad 3 ms ++ "Z")
  end.

(** Reads exactly [width] decimal digits. *)
Fixpoint readDigits (width : nat) (acc : N) (s : string) : option (N * string) :=
  match width with
  | O => Some (acc, s)
  | S w =>
      match s with
      | String c s' =>
          if isDigit c then readDigits w (10 * acc + (N_of_ascii c - 48))%N s'
          else None
      | EmptyString => None
      end
  end.

Definition expect (c : ascii) (s : string) : option string :=
  match s with
  | String d s' => if Ascii.eqb c d then Some s' else None
  | EmptyString => None
  end.

Definition obind {A B : Type} (o : option A) (k : A -> option B) : option B :=
  match o with
  | Some a => k a
  | None => None
  end.

Definition readYear (s : string) : option (Z * string) :=
  if headIs "+" s then
    obind (readDigits 6 0 (tail s)) (fun '(y, r) => Some (Z.of_N y, r))
  else if headIs "-" s then
    obind (readDigits 6 0 (tail s)) (fun '(y, r) =>
      if (y =? 0)%N then None else Some (- Z.of_N y, r)%Z)
  else
    obind (readDigits 4 0 s) (fun '(y, r) => Some (Z.of_N y, r)).

(** What follows the year: [-MM-DDTHH:mm:ss.sssZ], the fields in range. *)
Definition readAfterYear (y : Z) (r : string) : option Date :=
  obind (expect "-" r) (fun r =>
  obind (readDigits 2 0 r) (fun '(mo, r) =>
  obind (expect "-" r) (fun r =>
  obind (readDigits 2 0 r) (fun '(d, r) =>
  obind (expect "T" r) (fun r =>
  obind (readDigits 2 0 r) (fun '(h, r) =>
  obind (expect ":" r) (fun r =>
  obind (readDigits 2 0 r) (fun '(mi, r) =>
  obind (expect ":" r) (fun r =>
  obind (readDigits 2 0 r) (fun '(sec, r) =>
  obind (expect "." r) (fun r =>
  obind (readDigits 3 0 r) (fun '(ms, r) =>
    if String.eqb r "Z" && validFields y mo d h mi sec ms
    then Some (UTC y mo d h mi sec ms) else None)))))))))))).

(** [new Date(text)].  The model reads back the format that [toISOString]
    writes (UTC, milliseconds, the year in either form); engines accept
    further forms, all of which the model takes for an Invalid Date. *)
Definition Date_of_string (text : string) : Date :=
  match obind (readYear text) (fun '(y, r) => readAfterYear y r) with
  | Some d => d
  | None => InvalidDate
  end.

(** ** Values

    The values the stores handle: the Serializable Values of the
    specification.  An object is the list of its own enumerable
    properties, in enumeration order; keys that are array indices, which
    JavaScript enumerates first, are not treated apart. *)
#[warnings="-register-all"]
Inductive value : Type :=
| VUndefined
| VNull
| VBoolean (b : bool)
| VNumber (x : number)
| VString (s : string)
| VDate (d : Date)
| VArray (elements : list value)
| VObject (properties : list (string * value)).

(** [typeof v] *)
Definition typeof (v : value) : string :=
  match v with
  | VUndefined => "undefined"
  | VBoolean _ => "boolean"
  | VNumber _ => "number"
  | VString _ => "string"
  | VNull | VDate _ | VArray _ | VObject _ => "object"
  end.

(** [Object.fromEntries(entries)]: a later entry for a key overwrites the
    value of the earlier one, which keeps its place. *)
Fixpoint setProperty {A : Type} (k : string) (v : A) (o : list (string * A))
  : list (string * A) :=
  match o with
  | [] => [(k, v)]
  | (k', v') :: o' =>
      if String.eqb k k' then (k', v) :: o' else (k', v') :: setProperty k v o'
  end.

Definition fromEntries {A : Type} (entries : list (string * A)) : list (string * A) :=
  fold_left (fun o kv => setProperty (fst kv) (snd kv) o) entries [].

(** ** JSON text *)

Definition dquote : ascii := "034"%char.
Definition backslash : ascii := "092"%char.

Definition hexChar (n : nat) : ascii :=
  if (n <? 10)%nat then ascii_of_nat (48 + n) else ascii_of_nat (87 + n).

(** QuoteJSONString, one code unit at a time. *)
Definition quoteChar (c : ascii) : string :=
  let n := nat_of_ascii c in
  if (n =? 8)%nat then String backslash "b"
  else if (n =? 9)%nat then String backslash "t"
  else if (n =? 10)%nat then String backslash "n"
  else if (n =? 12)%nat then String backslash "f"
  else if (n =? 13)%nat then String backslash "r"
  else if (n =? 34)%nat then String backslash (String dquote "")
  else if (n =? 92)%nat then String backslash (String backslash "")
  else if (n <? 32)%nat then
    String backslash ("u00" ++ String (hexChar (n / 16)) (String (hexChar (n mod 16)) ""))
  else String c "".

Fixpoint quoteBody (s : string) : string :=
  match s with
  | EmptyString => EmptyString
  | String c s' => quoteChar c ++ quoteBody s'
  end.

Definition quote (s : string) : string :=
  String dquote (quoteBody s ++ String dquote "").

(** [JSON.stringify(v)] with no replacer and no indentation; [None] is the
    result [undefined].  A Date is written through its [toJSON], a number
    that is not finite as [null]; in an array [undefined] is written as
    [null], in an object a property whose value is [undefined] is left
    out. *)
Fixpoint stringify (v : value) : option string :=
  match v with
  | VUndefined => None
  | VNull => Some "null"
  | VBoolean b => Some (if b then "true" else "false")
  | VNumber x =>
      Some (match x with
            | NaN | Infinity _ => "null"
            | _ => toString x
            end)
  | VString s => Some (quote s)
  | VDate d =>
      Some (match toISOString d with
            | Ok iso => quote iso
            | Throw _ => "null"
            end)
  | VArray l =>
      Some ("[" ++ join ","
              (map (fun e => match stringify e with
                             | Some t => t
                             | None => "null"
                             end) l) ++ "]")
  | VObject ps =>
      Some ("{" ++ join ","
              (flat_map (fun kv => match stringify (snd kv) with
                                   | Some t => [quote (fst kv) ++ ":" ++ t]
                                   | None => []
                                   end) ps) ++ "}")
  end.

(** JSON white space: SP, TAB, LF and CR. *)
Definition isJsonWs (c : ascii) : bool :=
  let n := nat_of_ascii c in
  ((n =? 32) || (n =? 9) || (n =? 10) || (n =? 13))%nat.

Definition skipWs (s : string) : string := dropWhile isJsonWs s.

Definition hexValue (c : ascii) : option nat :=
  match digitOf c with
  | Some d => if (d <? 16)%N then Some (N.to_nat d) else None
  | None => None
  end.

(** The characters of a string literal after its opening quote, up to the
    closing quote.  An escape [\uXXXX] above [00FF] denotes a code unit
    that the model's strings do not have, and is refused. *)
Fixpoint parseStringBody (s : string) : option (string * string) :=
  match s with
  | EmptyString => None
  | String c r =>
      if Ascii.eqb c dquote then Some ("", r)
      else if Ascii.eqb c backslash then
        match r with
        | String "u" (String h1 (String h2 (String h3 (String h4 r')))) =>
            match hexValue h1, hexValue h2, hexValue h3, hexValue h4 with
            | Some a, Some b, Some c, Some d =>
                if ((a =? 0) && (b =? 0))%nat then
                  obind (parseStringBody r') (fun '(str, rest) =>
                    Some (String (ascii_of_nat (16 * c + d)) str, rest))
                else None
            | _, _, _, _ => None
            end
        | String e r' =>
            let unescaped :=
              if Ascii.eqb e dquote then Some dquote
              else if Ascii.eqb e backslash then Some backslash
              else if Ascii.eqb e "/" then Some "/"%char
              else if Ascii.eqb e "b" then Some (ascii_of_nat 8)
              else if Ascii.eqb e "f" then Some (ascii_of_nat 12)
              else if Ascii.eqb e "n" then Some (ascii_of_nat 10)
              else if Ascii.eqb e "r" then Some (ascii_of_nat 13)
              else if Ascii.eqb e "t" then Some (ascii_of_nat 9)
              else None in
            match unescaped with
            | Some ch =>
                obind (parseStringBody r') (fun '(str, rest) =>
                  Some (String ch str, rest))
            | None => None
            end
        | EmptyString => None
        end
      else if (nat_of_ascii c <? 32)%nat then None
      else obind (parseStringBody r) (fun '(str, rest) => Some (String c str, rest))
  end.

(** The number that the decimal [intDigits.fracDigits * 10^exp] denotes. *)
Definition number_of_decimal (negative : bool) (intDigits fracDigits : string) (exp : Z)
  : number :=
  let all := intDigits ++ fracDigits in
  let significant := dropWhile (Ascii.eqb "0") all in
  match significant with
  | EmptyString => Zero
  | _ =>
      Finite negative (stripTrailingZeros significant)
        (exp + Z.of_nat (String.length intDigits)
         - Z.of_nat (String.length all - String.length significant))%Z
  end.

(** A JSON number: an optional minus sign, an integer part that is [0] or
    has no leading zero, an optional fraction and an optional exponent. *)
Definition parseFraction (s : string) : option (string * string) :=
  if headIs "." s then
    match takeWhile isDigit (tail s) with
    | EmptyString => None
    | f => Some (f, dropWhile isDigit (tail s))
    end
  else Some ("", s).

Definition parseExponent (s : string) : option (Z * string) :=
  if headIs "e" s || headIs "E" s then
    let r := tail s in
    let negExp := headIs "-" r in
    let r := if headIs "-" r || headIs "+" r then tail r else r in
    match takeWhile isDigit r with
    | EmptyString => None
    | e =>
        let m := Z.of_N (radixValue 10 0 e) in
        Some ((if negExp then - m else m)%Z, dropWhile isDigit r)
    end
  else Some (0%Z, s).

(** What follows the sign of a number. *)
Definition parseMagnitude (negative : bool) (s : string) : option (number * string) :=
  let intDigits := takeWhile isDigit s in
  let s := dropWhile isDigit s in
  if (String.length intDigits =? 0)%nat
     || headIs "0" intDigits && negb (String.length intDigits =? 1)%nat
  then None
  else
    obind (parseFraction s) (fun '(fracDigits, s) =>
    obind (parseExponent s) (fun '(exp, s) =>
      Some (number_of_decimal negative intDigits fracDigits exp, s))).

Definition parseNumber (s : string) : option (number * string) :=
  if headIs "-" s then parseMagnitude true (tail s) else parseMagnitude false s.

(** The recursive-descent reader of JSON values; [fuel] bounds the number
    of nested and consecutive calls, and [JSON_parse] below supplies more
    than any text needs. *)
Fixpoint parseValue (fuel : nat) (s : string) {struct fuel} : option (value * string) :=
  match fuel with
  | O => None
  | S fuel =>
      match skipWs s with
      | EmptyString => None
      | String c r =>
          if Ascii.eqb c "[" then
            if headIs "]" (skipWs r) then Some (VArray [], tail (skipWs r))
            else
              obind (parseElements fuel (skipWs r)) (fun '(l, rest) =>
                Some (VArray l, rest))
          else if Ascii.eqb c "{" then
            if headIs "}" (skipWs r) then Some (VObject [], tail (skipWs r))
            else
              obind (parseMembers fuel (skipWs r)) (fun '(ps, rest) =>
                Some (VObject (fromEntries ps), rest))
          else if Ascii.eqb c dquote then
            obind (parseStringBody r) (fun '(str, rest) => Some (VString str, rest))
          else if startsWith (String c r) "null" then
            Some (VNull, substring_from 4 (String c r))
          else if startsWith (String c r) "true" then
            Some (VBoolean true, substring_from 4 (String c r))
          else if startsWith (String c r) "false" then
            Some (VBoolean false, substring_from 5 (String c r))
          else
            obind (parseNumber (String c r)) (fun '(x, rest) => Some (VNumber x, rest))
      end
  end
with parseElements (fuel : nat) (s : string) {struct fuel} : option (list value * string) :=
  match fuel with
  | O => None
  | S fuel =>
      obind (parseValue fuel s) (fun '(v, r) =>
        if headIs "," (skipWs r) then
          obind (parseElements fuel (tail (skipWs r))) (fun '(l, rest) =>
            Some (v :: l, rest))
        else if headIs "]" (skipWs r) then Some ([v], tail (skipWs r))
        else None)
  end
with parseMembers (fuel : nat) (s : string) {struct fuel}
  : option (list (string * value) * string) :=
  match fuel with
  | O => None
  | S fuel =>
      if headIs dquote (skipWs s) then
        obind (parseStringBody (tail (skipWs s))) (fun '(k, r) =>
          if headIs ":" (skipWs r) then
            obind (parseValue fuel (tail (skipWs r))) (fun '(v, r) =>
              if headIs "," (skipWs r) then
                obind (parseMembers fuel (tail (skipWs r))) (fun '(ps, rest) =>
                  Some ((k, v) :: ps, rest))
              else if headIs "}" (skipWs r) then Some ([(k, v)], tail (skipWs r))
              else None)
          else None)
      else None
  end.

(** [JSON.parse(text)] with no reviver. *)
Definition JSON_parse (text : string) : result value :=
  match parseValue (S (String.length text)) text with
  | Some (v, rest) =>
      match skipWs rest with
      | EmptyString => Ok v
      | _ => Throw (SyntaxError "Unexpected non-whitespace character after JSON")
      end
  | None => Throw (SyntaxError "Unexpected token in JSON")
  end.

(** [f] over the elements of a list and their indices, from [i] on. *)
Fixpoint mapIndexed {A B : Type} (f : N -> A -> B) (i : N) (l : list A) : list B :=
  match l with
  | [] => []
  | x :: l' => f i x :: mapIndexed f (N.succ i) l'
  end.

(** The property [k] of a revived object: none when the reviver gave
    [undefined] for it. *)
Definition revivedProperty (k : string) (e : value) : list (string * value) :=
  match e with
  | VUndefined => []
  | _ => [(k, e)]
  end.

(** InternalizeJSONProperty: the walk that [JSON.parse(text, reviver)] makes
    over the parsed value, children before their parent, calling
    [reviver(key, value)] at each node.  A child for which the reviver
    returns [undefined] is deleted: a property disappears, an array
    element becomes a hole, which reads as [undefined]. *)
Fixpoint internalize (reviver : string -> value -> value) (key : string) (v : value)
  : value :=
  match v with
  | VArray l =>
      reviver key
        (VArray (mapIndexed (fun i e => internalize reviver (decimalDigits i) e) 0 l))
  | VObject ps =>
      reviver key
        (VObject (flat_map (fun kv =>
                              revivedProperty (fst kv) (internalize reviver (fst kv) (snd kv)))
                            ps))
  | _ => reviver key v
  end.

(** [JSON.parse(text, reviver)] *)
Definition JSON_parse_with (reviver : string -> value -> value) (text : string)
  : result value :=
  fmap (internalize reviver "") (JSON_parse text).

(** [x === y]: objects, arrays and Dates are equal only to themselves,
    which two values that merely look alike are not; NaN equals nothing. *)
Definition strictEquals (x y : value) : bool :=
  match x, y with
  | VUndefined, VUndefined => true
  | VNull, VNull => true
  | VBoolean a, VBoolean b => Bool.eqb a b
  | VNumber a, VNumber b => number_eqb a b
  | VString a, VString b => String.eqb a b
  | _, _ => false
  end.

(** The primitive values. *)
Inductive primitive : Type :=
| PUndefined
| PNull
| PBoolean (b : bool)
| PNumber (x : number)
| PString (s : string).

(** ToString of a primitive value, as a template literal applies it. *)
Definition primitiveToString (v : primitive) : string :=
  match v with
  | PUndefined => "undefined"
  | PNull => "null"
  | PBoolean b => if b then "true" else "false"
  | PNumber x => toString x
  | PString s => s
  end.

Definition value_of_primitive (v : primitive) : value :=
  match v with
  | PUndefined => VUndefined
  | PNull => VNull
  | PBoolean b => VBoolean b
  | PNumber x => VNumber x
  | PString s => VString s
  end.

(** ToBoolean *)
Definition truthy (v : value) : bool :=
  match v with
  | VUndefined | VNull => false
  | VBoolean b => b
  | VNumber NaN | VNumber Zero => false
  | VString EmptyString => false
  | _ => true
  end.

(** [o[k]] on the property list of an object *)
Fixpoint getProperty {A : Type} (o : list (string * A)) (k : string) : option A :=
  match o with
  | [] => None
  | (k', v) :: o' => if String.eqb k k' then Some v else getProperty o' k
  end.

(** SameValueZero, the equality of [Map] keys and of [includes]. *)
Definition sameValueZero (x y : value) : bool :=
  match x, y with
  | VNumber NaN, VNumber NaN => true
  | _, _ => strictEquals x y
  end.

(** [array.includes(v)] *)
Definition includes (array : list value) (v : value) : bool :=
  existsb (fun x => sameValueZero x v) array.

(** [map.set(k, v)] on a [Map] kept in insertion order. *)
Fixpoint mapSet {A : Type} (k : value) (v : A) (m : list (value * A)) : list (value * A) :=
  match m with
  | [] => [(k, v)]
  | (k', v') :: m' =>
      if sameValueZero k' k then (k', v) :: m' else (k', v') :: mapSet k v m'
  end.

(** [new Map(entries)] *)
Definition newMap {A : Type} (entries : list (value * A)) : list (value * A) :=
  fold_left (fun m kv => mapSet (fst kv) (snd kv) m) entries [].

(** [map.get(k)] *)
Fixpoint mapGet {A : Type} (m : list (value * A)) (k : value) : option A :=
  match m with
  | [] => None
  | (k', v) :: m' => if sameValueZero k' k then Some v else mapGet m' k
  end.

(** JavaScript's [x || d] on an optional string: the empty string is falsy. *)
Definition string_or (x : option string) (d : string) : string :=
  match x with
  | Some (String c s) => String c s
  | _ => d
  end.

End JS.

(* ===================================================================== *)
(** * interfaces.ts *)
(* ===================================================================== *)

Module Interfaces.
Import JS.

(** [RedisKeygen<ID>].  Type parameters are erased at run time: an ID is a
    value. *)
Record RedisKeygen : Type := {
  parse : string -> value;
  serialize : value -> result string
}.

Definition DEFAULT_KEYGEN : RedisKeygen := {|
  parse := fun key => VString key;
  serialize := fun id =>
    match id with
    | VString s => Ok s
    | _ =>
        Throw (Error ("Could not serialize Redis ID of type " ++ typeof id
                      ++ " to valid redis key."))
    end
|}.

End Interfaces.

(* ===================================================================== *)
(** * utils.ts *)
(* ===================================================================== *)

Module Utils.
Import JS.

Definition removeNulls {T : Type} (array : list (option T)) : list T :=
  flat_map (fun a => match a with Some x => [x] | None => [] end) array.

Definition REDIS_UNDEFINED : string := "REDIS_UNDEFINED".
Definition REDIS_DATE : string := "REDIS_DATE:".

Fixpoint recursiveSerialize (v : value) : result value :=
  match v with
  | VUndefined => Ok (VString REDIS_UNDEFINED)
  | VDate d => bind (toISOString d) (fun iso => Ok (VString (REDIS_DATE ++ iso)))
  | VArray l => fmap VArray (mapM recursiveSerialize l)
  | VObject ps =>
      fmap (fun entries => VObject (fromEntries entries))
        (mapM (fun kv => bind (recursiveSerialize (snd kv)) (fun v' => Ok (fst kv, v'))) ps)
  | _ => Ok v
  end.

(** A Date that reaches [recursiveParse] falls into the object branch and
    has no enumerable property of its own. *)
Fixpoint recursiveParse (v : value) : value :=
  match v with
  | VString s =>
      if String.eqb s REDIS_UNDEFINED then VUndefined
      else if startsWith s REDIS_DATE
      then VDate (Date_of_string (substring_from (String.length REDIS_DATE) s))
      else v
  | VArray l => VArray (map recursiveParse l)
  | VObject ps => VObject (fromEntries (map (fun kv => (fst kv, recursiveParse (snd kv))) ps))
  | VDate _ => VObject []
  | _ => v
  end.

End Utils.

(* ===================================================================== *)
(** * stores/string/string-parsers.ts *)
(* ===================================================================== *)

(** [StringParser<T>] of base-string.store.ts *)
Record StringParser (T : Type) : Type := {
  serialize : T -> JS.result string;
  deserialize : string -> JS.result T
}.
Arguments serialize {T} _ _.
Arguments deserialize {T} _ _.

(** What [JSON.stringify] returns on a value that is not [undefined] is a
    string; the parsers below never hand it [undefined]
    ([recursiveReplace] and [recursiveSerialize] do not produce it), and
    the model has no string to stand for the result there. *)
Definition stringified (v : JS.value) : JS.result string :=
  match JS.stringify v with
  | Some text => JS.Ok text
  | None => JS.Throw (JS.TypeError "JSON.stringify returned undefined")
  end.

Module StringParsers.
Import JS.

Definition stringParser : StringParser string := {|
  deserialize := fun value : string => Ok value;
  serialize := fun value : string => Ok value
|}.

Definition numberParser : StringParser number := {|
  deserialize := fun value : string =>
    let num := parseInt value in
    if isNaN num then Throw (Error ("Invalid number : " ++ value))
    else Ok num;
  serialize := fun value : number => Ok (toString value)
|}.

Definition booleanParser : StringParser bool := {|
  deserialize := fun value : string => Ok (String.eqb value "true");
  serialize := fun value : bool => Ok (if value then "true" else "false")
|}.

Fixpoint recursiveReplace (v : value) : result value :=
  match v with
  | VDate d => bind (toISOString d) (fun iso => Ok (VString ("REDIS_DATE:" ++ iso)))
  | VArray l => fmap VArray (mapM recursiveReplace l)
  | VObject ps =>
      fmap (fun entries => VObject (fromEntries entries))
        (mapM (fun kv => bind (recursiveReplace (snd kv)) (fun v' => Ok (fst kv, v'))) ps)
  | _ => Ok v
  end.

(** The reviver handed to [JSON.parse] by [deserialize]. *)
Definition reviver (key : string) (v : value) : value :=
  match v with
  | VString s =>
      if startsWith s "REDIS_DATE:"
      then VDate (Date_of_string (substring_from (String.length "REDIS_DATE:") s))
      else v
  | _ => v
  end.

Definition objectParser : StringParser value := {|
  deserialize := fun text : string =>
    if String.eqb text "REDIS_UNDEFINED" then Ok VUndefined
    else JSON_parse_with reviver text;
  serialize := fun v : value =>
    match v with
    | VUndefined => Ok "REDIS_UNDEFINED"
    | _ => bind (recursiveReplace v) stringified
    end
|}.

End StringParsers.

(** The revision of string-parsers.ts that goes through [recursiveSerialize]
    and [recursiveParse] of utils.ts; its other parsers are those above. *)
Module StringParsersUtils.
Import JS.

Definition objectParser : StringParser value := {|
  deserialize := fun text : string => fmap Utils.recursiveParse (JSON_parse text);
  serialize := fun v : value => bind (Utils.recursiveSerialize v) stringified
|}.

End StringParsersUtils.

(* ===================================================================== *)
(** * The store client *)
(* ===================================================================== *)

(** The stores talk to Redis only through the client they are given.  An
    [async] computation is the sequence of commands a method sends, each
    followed by what the method does with the reply; a client that rejects
    a command rejects the method, which has no handler of its own. *)
Module Client.
Import JS.

Record SearchLimit : Type := { from : Z; size : number }.
Record SearchOptions : Type := { LIMIT : option SearchLimit }.
Record SearchDocument : Type := { id : string; doc_value : value }.
Record SearchReply : Type := { total : Z; documents : list SearchDocument }.

(** The reply to FT.INFO, as far as the differ reads it: the attributes,
    each an object, and the index definition. *)
Record IndexDefinition : Type := {
  key_type : string;
  prefixes : list string;
  default_score : string
}.
Record InfoReply : Type := {
  attributes : list (list (string * value));
  indexDefinition : IndexDefinition
}.

Inductive command : Type :=
| DEL (keys : list string)
| KEYS (pattern : string)
| MGET (keys : list string)
| FT_INFO (index : string)
| FT_SEARCH (index query : string) (options : SearchOptions).

Definition reply (c : command) : Type :=
  match c with
  | DEL _ => Z
  | KEYS _ => list string
  | MGET _ => list (option string)
  | FT_INFO _ => InfoReply
  | FT_SEARCH _ _ _ => SearchReply
  end.

Inductive async (A : Type) : Type :=
| Return (a : A)
| Reject (e : exn)
| Await (c : command) (k : result (reply c) -> async A).
Arguments Return {A} a.
Arguments Reject {A} e.
Arguments Await {A} c k.

Fixpoint abind {A B : Type} (p : async A) (f : A -> async B) : async B :=
  match p with
  | Return a => f a
  | Reject e => Reject e
  | Await c k => Await c (fun r => abind (k r) f)
  end.

(** A [throw] inside an async function rejects its promise. *)
Definition lift {A : Type} (r : result A) : async A :=
  match r with
  | Ok a => Return a
  | Throw e => Reject e
  end.

(** [await this.redis.command(...)] *)
Definition send (c : command) : async (reply c) := Await c lift.

Declare Scope async_scope.
Notation "x <- p ;; q" := (abind p (fun x => q))
  (at level 61, p at next level, right associativity) : async_scope.
Delimit Scope async_scope with async.

(** A promise run to its end, whichever way it settles. *)
Fixpoint settle {A : Type} (p : async A) : async (result A) :=
  match p with
  | Return a => Return (Ok a)
  | Reject e => Return (Throw e)
  | Await c k => Await c (fun r => settle (k r))
  end.

Fixpoint settleAll {A : Type} (ps : list (async A)) : async (list (result A)) :=
  match ps with
  | [] => Return []
  | p :: ps' =>
      abind (settle p) (fun r => abind (settleAll ps') (fun rs => Return (r :: rs)))
  end.

(** [Promise.all(ps)]: the promises are all started, in order; the result
    is the list of their values, or the first rejection among them in that
    order (the model runs them one after the other). *)
Definition all {A : Type} (ps : list (async A)) : async (list A) :=
  abind (settleAll ps) (fun rs => lift (mapM (fun r => r) rs)).

(** A client over a store state [W]: the reply to a command, or its
    rejection, and the state afterwards. *)
Definition client (W : Type) : Type := forall c : command, W -> result (reply c) * W.

Record outcome (W A : Type) : Type := {
  settled : result A;
  world : W;
  sent : list command
}.
Arguments settled {W A} _.
Arguments world {W A} _.
Arguments sent {W A} _.

(** Runs a method against a client, recording the commands sent. *)
Fixpoint run {W A : Type} (redis : client W) (p : async A) (w : W) (log : list command)
  : outcome W A :=
  match p with
  | Return a => {| settled := Ok a; world := w; sent := log |}
  | Reject e => {| settled := Throw e; world := w; sent := log |}
  | Await c k =>
      let '(r, w') := redis c w in run redis (k r) w' (log ++ [c])%list
  end.

(** A method that settles with [a] whatever the client is, sends it
    nothing and leaves the state of the store as it was. *)
Definition settlesSilently {A : Type} (p : async A) (a : A) : Prop :=
  forall (W : Type) (redis : client W) (w : W) (log : list command),
    run redis p w log = {| settled := Ok a; world := w; sent := log |}.

End Client.

(* ===================================================================== *)
(** * stores/base-store.ts *)
(* ===================================================================== *)

Module BaseStore.
Import JS Interfaces Client.
Local Open Scope async_scope.

(** [RedisStoreOptions] *)
Record RedisStoreOptions : Type := {
  separator : option string;
  prefix : string;
  ttl : option number;
  keygen : option RedisKeygen
}.

Record BaseStore : Type := {
  SEPARATOR : string;
  NAMESPACE : string;
  PREFIX : string;
  store_ttl : option number;
  store_keygen : RedisKeygen
}.

(** The constructor. *)
Definition new (options : RedisStoreOptions) : BaseStore :=
  let sep := string_or (separator options) ":" in
  {| SEPARATOR := sep;
     NAMESPACE := prefix options;
     PREFIX := prefix options ++ sep;
     store_ttl := ttl options;
     store_keygen := match keygen options with
                     | Some k => k
                     | None => DEFAULT_KEYGEN
                     end |}.

Section Methods.
Variable this : BaseStore.

Definition serializeKey (id : value) : result string :=
  Interfaces.serialize (store_keygen this) id.

Definition parseKey (key : string) : value :=
  Interfaces.parse (store_keygen this) key.

Definition prefixKey (key : string) : string :=
  if startsWith key (PREFIX this) then key else PREFIX this ++ key.

Definition unPrefixKey (key : string) : string :=
  if startsWith key (PREFIX this)
  then substring_from (String.length (PREFIX this)) key
  else key.

Definition toKey (id : value) : result string :=
  fmap prefixKey (serializeKey id).

Definition toKeys (ids : list value) : result (list string) :=
  mapM toKey ids.

Definition toId (key : string) : value :=
  parseKey (unPrefixKey key).

Definition toIds (keys : list string) : list value :=
  map toId keys.

Definition keys (pattern : string) : async (list string) :=
  send (KEYS (prefixKey pattern)).

Definition del (ids : list value) : async Z :=
  match ids with
  | [] => Return 0%Z
  | _ => ks <- lift (toKeys ids) ;; send (DEL ks)
  end.

Definition delPatterns (patterns : list string) : async Z :=
  match patterns with
  | [] => Return 0%Z
  | _ =>
      found <- all (map keys patterns) ;;
      match concat found with
      | [] => Return 0%Z
      | ks => send (DEL ks)
      end
  end.

Definition ids (pattern : string) : async (list value) :=
  ks <- keys pattern ;; Return (toIds ks).

Definition getAllKeys : async (list string) := keys "*".

Definition getAllIds : async (list value) :=
  ks <- keys "*" ;; Return (toIds ks).

Definition reset : async Z :=
  ks <- getAllKeys ;;
  match ks with
  | [] => Return 0%Z
  | _ => send (DEL ks)
  end.

End Methods.
End BaseStore.

(* ===================================================================== *)
(** * stores/string/base-string.store.ts *)
(* ===================================================================== *)

Module BaseStringStore.
Import JS Interfaces Client.
Local Open Scope async_scope.

Section Methods.
Context {T : Type}.

Record BaseStringStore : Type := {
  base : BaseStore.BaseStore;
  valueParser : StringParser T
}.

Variable this : BaseStringStore.

(** [v === null ? null : this.valueParser.deserialize(v)] *)
Definition deserializeOrNull (v : option string) : result (option T) :=
  match v with
  | None => Ok None
  | Some text => fmap Some (deserialize (valueParser this) text)
  end.

Definition mGet (ids : list value) : async (list (option T)) :=
  match ids with
  | [] => Return []
  | _ =>
      ks <- lift (BaseStore.toKeys (base this) ids) ;;
      values <- send (MGET ks) ;;
      lift (mapM deserializeOrNull values)
  end.

Fixpoint mGetClean_forEach (values : list (option string)) (result_ : list T)
  : result (list T) :=
  match values with
  | [] => Ok result_
  | None :: values' => mGetClean_forEach values' result_
  | Some r :: values' =>
      bind (deserialize (valueParser this) r) (fun x =>
        mGetClean_forEach values' (result_ ++ [x])%list)
  end.

Definition mGetClean (ids : list value) : async (list T) :=
  match ids with
  | [] => Return []
  | _ =>
      ks <- lift (BaseStore.toKeys (base this) ids) ;;
      values <- send (MGET ks) ;;
      lift (mGetClean_forEach values [])
  end.

(** A [Map<string, V>] in insertion order; [map.set] keeps the place of a
    key that is already there. *)
Definition Map (V : Type) : Type := list (string * V).

Definition shortReply {A : Type} : result A :=
  Throw (TypeError "the reply to MGET has fewer entries than keys were asked for").

(** The loop [for (let i = 0; i < ids.length; i++)] of [mGetMap], over the
    ids and the reply side by side.  The client answers MGET with one
    entry per key; the model stops at a reply that is shorter. *)
Fixpoint mGetMap_loop (ids : list value) (values : list (option string))
  (map : Map (option T)) : result (Map (option T)) :=
  match ids with
  | [] => Ok map
  | id :: ids' =>
      match values with
      | [] => shortReply
      | v :: values' =>
          bind (BaseStore.serializeKey (base this) id) (fun k =>
          bind (deserializeOrNull v) (fun x =>
            mGetMap_loop ids' values' (setProperty k x map)))
      end
  end.

Definition mGetMap (ids : list value) : async (Map (option T)) :=
  match ids with
  | [] => Return []
  | _ =>
      ks <- lift (BaseStore.toKeys (base this) ids) ;;
      values <- send (MGET ks) ;;
      lift (mGetMap_loop ids values [])
  end.

Fixpoint mGetCleanMap_loop (ids : list value) (values : list (option string))
  (map : Map T) : result (Map T) :=
  match ids with
  | [] => Ok map
  | id :: ids' =>
      match values with
      | [] => shortReply
      | None :: values' => mGetCleanMap_loop ids' values' map
      | Some text :: values' =>
          bind (BaseStore.serializeKey (base this) id) (fun k =>
          bind (deserialize (valueParser this) text) (fun x =>
            mGetCleanMap_loop ids' values' (setProperty k x map)))
      end
  end.

Definition mGetCleanMap (ids : list value) : async (Map T) :=
  match ids with
  | [] => Return []
  | _ =>
      ks <- lift (BaseStore.toKeys (base this) ids) ;;
      values <- send (MGET ks) ;;
      lift (mGetCleanMap_loop ids values [])
  end.

End Methods.
Arguments BaseStringStore T : clear implicits.
End BaseStringStore.

(* ===================================================================== *)
(** * stores/json/json-search-store.ts *)
(* ===================================================================== *)

Module JsonSearchStore.
Import JS Client.
Local Open Scope async_scope.

(** [SchemaFieldTypes] of the redis package *)
Module SchemaFieldTypes.
Definition TEXT : string := "TEXT".
Definition NUMERIC : string := "NUMERIC".
Definition GEO : string := "GEO".
Definition TAG : string := "TAG".
Definition VECTOR : string := "VECTOR".
End SchemaFieldTypes.

(** A field of a [JsonSearchSchema]: its [path] and its other properties
    ([type], [SORTABLE], ...), in the order they were written. *)
Record SchemaField : Type := {
  path : string;
  rest : list (string * value)
}.

Definition JsonSearchSchema : Type := list (string * SchemaField).

Inductive PrefixOption : Type :=
| OnePrefix (p : string)
| ManyPrefixes (ps : list string).

Record JsonSearchStoreOptions : Type := {
  name : string;
  schema : JsonSearchSchema;
  prefix : option PrefixOption
}.

Record JsonSearchStore : Type := {
  options : JsonSearchStoreOptions;
  INDEX : string;
  this_schema : list (string * list (string * value));
  createOptions : list (string * value)
}.

(** The constructor. *)
Definition new (options : JsonSearchStoreOptions) : JsonSearchStore :=
  {| options := options;
     INDEX := name options;
     this_schema :=
       fromEntries
         (map (fun kf => (path (snd kf), setProperty "AS" (VString (fst kf)) (rest (snd kf))))
              (schema options));
     createOptions :=
       [("ON", VString "JSON");
        ("PREFIX",
         match prefix options with
         | Some (ManyPrefixes ps) => VArray (map VString ps)
         | Some (OnePrefix (String c p)) => VArray [VString (String c p)]
         | Some (OnePrefix EmptyString) | None => VUndefined
         end)] |}.

(** ** The index differ *)

Definition attrMappings : list (string * string) :=
  [("type", "type"); ("AS", "attribute")].

Record DefMapping : Type := {
  key : string;
  infoKey : string;
  compare : value -> value -> result bool
}.

(** The comparison of the PREFIX entry.  FT.INFO reports the prefixes as
    an array; the model stops with a TypeError on any other shape (the
    runtime does on [undefined] and [null]). *)
Definition comparePrefix (v defValue : value) : result bool :=
  let v := match v with
           | VArray l => l
           | _ => [v]
           end in
  match defValue with
  | VArray d =>
      Ok ((List.length v =? List.length d)%nat && forallb (fun x => includes d x) v)
  | _ => Throw (TypeError "Cannot read properties of defValue")
  end.

Definition defMappings : list DefMapping :=
  [ {| key := "ON"; infoKey := "key_type";
       compare := fun v defValue => Ok (strictEquals v defValue) |};
    {| key := "PREFIX"; infoKey := "prefixes"; compare := comparePrefix |} ].

(** [o[k]], [undefined] when the property is missing *)
Definition get (o : list (string * value)) (k : string) : value :=
  match getProperty o k with
  | Some v => v
  | None => VUndefined
  end.

(** The inner loop: the properties of one declared field against the
    attribute the index reports for it. *)
Fixpoint propsChanged (props : list (string * value)) (attribute : list (string * value))
  : result bool :=
  match props with
  | [] => Ok false
  | (propKey, propValue) :: props' =>
      match find (fun attr => String.eqb (fst attr) propKey) attrMappings with
      | Some (_, String c attrKey) =>
          if negb (strictEquals propValue (get attribute (String c attrKey))) then Ok true
          else propsChanged props' attribute
      | _ => Throw (Error ("Index schema key not mapped : " ++ propKey))
      end
  end.

(** The loop over the declared fields. *)
Fixpoint attributesChanged (schema : list (string * list (string * value)))
  (attributes : list (value * list (string * value))) : result bool :=
  match schema with
  | [] => Ok false
  | (identifier, props) :: schema' =>
      match mapGet attributes (VString identifier) with
      | None => Ok true
      | Some attribute =>
          bind (propsChanged props attribute) (fun changed =>
            if changed then Ok true else attributesChanged schema' attributes)
      end
  end.

(** The loop over the entries of [createOptions]. *)
Fixpoint definitionChanged (entries : list (string * value))
  (definition : list (string * value)) : result bool :=
  match entries with
  | [] => Ok false
  | (k, v) :: entries' =>
      match find (fun attr => String.eqb (key attr) k) defMappings with
      | None => Throw (Error ("Index definition key not mapped : " ++ k))
      | Some defKey =>
          bind (compare defKey v (get definition (infoKey defKey))) (fun same =>
            if negb same then Ok true else definitionChanged entries' definition)
      end
  end.

(** [Object.entries(rawInfo.indexDefinition)] *)
Definition entriesOfDefinition (d : IndexDefinition) : list (string * value) :=
  [("key_type", VString (key_type d));
   ("prefixes", VArray (map VString (prefixes d)));
   ("default_score", VString (default_score d))].

Section Methods.
Variable this : JsonSearchStore.

(** The body of [hasIndexChanged] once FT.INFO has answered. *)
Definition indexChanged (rawInfo : InfoReply) : result bool :=
  let schema := this_schema this in
  let attributes :=
    newMap (map (fun a => (get a "identifier", a)) (attributes rawInfo)) in
  let definition := entriesOfDefinition (indexDefinition rawInfo) in
  if negb (List.length schema =? List.length attributes)%nat then Ok true
  else
    bind (attributesChanged schema attributes) (fun changed =>
      if changed then Ok true
      else definitionChanged (createOptions this) definition).

Definition hasIndexChanged : async bool :=
  rawInfo <- send (FT_INFO (INDEX this)) ;; lift (indexChanged rawInfo).

Definition rawQuery (query : string) (options : SearchOptions) : async SearchReply :=
  send (FT_SEARCH (INDEX this) query options).

(** ** The query compiler *)

(** A [where] object: its entries in enumeration order.  The value of an
    entry is a primitive value (a field condition), an array of
    conditions, or one condition (which the type of AND admits). *)
Inductive WhereInput : Type :=
| Where (entries : list (string * WhereValue))
with WhereValue : Type :=
| Scalar (v : primitive)
| Conditions (children : list WhereInput)
| Condition (child : WhereInput).

(** ToString of the value of an entry: an object gives [[object Object]],
    an array its elements joined by commas. *)
Definition whereValueToString (v : WhereValue) : string :=
  match v with
  | Scalar x => primitiveToString x
  | Conditions l => join "," (map (fun _ => "[object Object]") l)
  | Condition _ => "[object Object]"
  end.

(** [!where[key].length]: reading [length] off [undefined] or [null] is a
    TypeError; a boolean or a number has none, an object has the one it
    was given as a property, if any. *)
Definition lengthIsFalsy (v : WhereValue) : result bool :=
  match v with
  | Conditions l => Ok (match l with [] => true | _ => false end)
  | Scalar PUndefined | Scalar PNull =>
      Throw (TypeError "Cannot read properties of undefined (reading 'length')")
  | Scalar (PString s) => Ok (match s with EmptyString => true | _ => false end)
  | Scalar _ => Ok true
  | Condition (Where entries) =>
      Ok (match getProperty entries "length" with
          | Some (Scalar x) => negb (truthy (value_of_primitive x))
          | Some _ => false
          | None => true
          end)
  end.

Definition notAFunction {A : Type} : result A :=
  Throw (TypeError "where[key].map is not a function").

Definition isTag (k : string) : bool :=
  match getProperty (schema (options this)) k with
  | Some field => strictEquals (get (rest field) "type") (VString SchemaFieldTypes.TAG)
  | None => false
  end.

Fixpoint buildQuery (where_ : WhereInput) : result string :=
  match where_ with
  | Where entries =>
      fmap (join " ")
        ((fix forIn (es : list (string * WhereValue)) : result (list string) :=
            match es with
            | [] => Ok []
            | (k, v) :: es' =>
                bind (buildEntry k v) (fun q =>
                bind (forIn es') (fun qs => Ok (q :: qs)))
            end) entries)
  end
with buildEntry (k : string) (v : WhereValue) : result string :=
  if String.eqb k "AND" then
    match v with
    | Conditions l =>
        fmap (fun qs => "(" ++ join " " qs ++ ")")
          ((fix each (l : list WhereInput) : result (list string) :=
              match l with
              | [] => Ok []
              | w :: l' =>
                  bind (buildQuery w) (fun q =>
                  bind (each l') (fun qs => Ok (q :: qs)))
              end) l)
    | _ => notAFunction
    end
  else if String.eqb k "OR" then
    bind (lengthIsFalsy v) (fun empty =>
    if empty then Throw (Error "More than one condition required for OR")
    else
      match v with
      | Conditions l =>
          fmap (fun qs => "(" ++ join " | " qs ++ ")")
            ((fix each (l : list WhereInput) : result (list string) :=
                match l with
                | [] => Ok []
                | w :: l' =>
                    bind (buildQuery w) (fun q =>
                    bind (each l') (fun qs => Ok (q :: qs)))
                end) l)
      | _ => notAFunction
      end)
  else
    let text := whereValueToString v in
    let text := if isTag k then "{" ++ text ++ "}" else text in
    Ok ("(@" ++ k ++ ":" ++ text ++ ")").

(** [options.search]: a string, a pair of a string and field names, or
    something else. *)
Inductive SearchInput : Type :=
| SearchString (text : string)
| SearchFields (text : string) (fields : list string)
| SearchOther (v : value).

Record QueryOptions : Type := {
  search : option SearchInput;
  where_ : option WhereInput;
  limit : option number;
  wildcard : option bool
}.

Section Query.
Variable opts : QueryOptions.

Definition addWildcard (text : string) : string :=
  match wildcard opts with
  | Some false => trim text
  | _ => "*" ++ replaceAllChar " " "*" (trim text) ++ "*"
  end.

(** [if (options.search)] *)
Definition searchGiven : bool :=
  match search opts with
  | None => false
  | Some (SearchString text) => truthy (VString text)
  | Some (SearchFields _ _) => true
  | Some (SearchOther v) => truthy v
  end.

(** The terms pushed on [AND]. *)
Definition queryTerms : result (list string) :=
  bind (match where_ opts with
        | Some w => fmap (fun q => [q]) (buildQuery w)
        | None => Ok []
        end) (fun fromWhere =>
  bind (if searchGiven then
          match search opts with
          | Some (SearchString text) => Ok ["(" ++ addWildcard text ++ ")"]
          | Some (SearchFields text fields) =>
              Ok ["(" ++ join " | "
                           (map (fun k => "(@" ++ k ++ ":" ++ addWildcard text ++ ")") fields)
                      ++ ")"]
          | Some (SearchOther v) =>
              Throw (Error ("Unsupported search type: " ++ typeof v))
          | None => Ok []
          end
        else Ok []) (fun fromSearch =>
  Ok (fromWhere ++ fromSearch)%list)).

Definition query : async (list value) :=
  AND <- lift queryTerms ;;
  match AND with
  | [] => Return []
  | _ =>
      let q := join " " AND in
      found <- rawQuery q
        {| LIMIT := match limit opts with
                    | Some n => if truthy (VNumber n)
                                then Some {| from := 0; size := n |} else None
                    | None => None
                    end |} ;;
      match documents found with
      | [] => Return []
      | ds => Return (map doc_value ds)
      end
  end.

End Query.
End Methods.
End JsonSearchStore.

(* ===================================================================== *)
(** * The rest of the client *)
(* ===================================================================== *)

(** The methods below send commands that [Client] does not list: the
    single-key and writing commands on strings, the commands on sets, on
    JSON documents and on search indexes.  The commands of [Client] are
    among them ([Batch]), so that a method of the modules above runs
    unchanged next to the new ones ([widen]). *)
Module Commands.
Import JS.

(** An item of [json.mSet]. *)
Record JsonMSetItem : Type := {
  item_path : string;
  item_key : string;
  item_value : value
}.

Inductive command : Type :=
| Batch (c : Client.command)
| GET (key : string)
| SET (key text : string) (options : list (string * value))
| MSET (pairs : list (string * string))
| SADD (key : string) (members : list string)
| SREM (key : string) (members : list string)
| SISMEMBER (key member : string)
| SMEMBERS (key : string)
| SMISMEMBER (key : string) (members : list string)
| JSON_GET (key : string)
| JSON_MGET (keys : list string) (path : string)
| JSON_SET (key path : string) (json : value)
| JSON_MSET (items : list JsonMSetItem)
| FT_LIST
| FT_DROPINDEX (index : string)
| FT_CREATE (index : string) (schema : list (string * list (string * value)))
    (options : list (string * value)).

(** What the client resolves with. *)
Definition reply (c : command) : Type :=
  match c with
  | Batch c => Client.reply c
  | GET _ => option string
  | SET _ _ _ => option string
  | MSET _ => string
  | SADD _ _ | SREM _ _ => Z
  | SISMEMBER _ _ => bool
  | SMEMBERS _ => list string
  | SMISMEMBER _ _ => list bool
  | JSON_GET _ => value
  | JSON_MGET _ _ => list value
  | JSON_SET _ _ _ => option string
  | JSON_MSET _ => string
  | FT_LIST => list string
  | FT_DROPINDEX _ => string
  | FT_CREATE _ _ _ => string
  end.

Inductive async (A : Type) : Type :=
| Return (a : A)
| Reject (e : exn)
| Await (c : command) (k : result (reply c) -> async A).
Arguments Return {A} a.
Arguments Reject {A} e.
Arguments Await {A} c k.

Fixpoint abind {A B : Type} (p : async A) (f : A -> async B) : async B :=
  match p with
  | Return a => f a
  | Reject e => Reject e
  | Await c k => Await c (fun r => abind (k r) f)
  end.

Definition lift {A : Type} (r : result A) : async A :=
  match r with
  | Ok a => Return a
  | Throw e => Reject e
  end.

Definition send (c : command) : async (reply c) := Await c lift.

(** A method of the modules above, among the commands of this one. *)
Fixpoint widen {A : Type} (p : Client.async A) : async A :=
  match p with
  | Client.Return a => Return a
  | Client.Reject e => Reject e
  | Client.Await c k => Await (Batch c) (fun r => widen (k r))
  end.

Declare Scope commands_scope.
Notation "x <- p ;; q" := (abind p (fun x => q))
  (at level 61, p at next level, right associativity) : commands_scope.
Delimit Scope commands_scope with commands.

Definition client (W : Type) : Type := forall c : command, W -> result (reply c) * W.

Record outcome (W A : Type) : Type := {
  settled : result A;
  world : W;
  sent : list command
}.
Arguments settled {W A} _.
Arguments world {W A} _.
Arguments sent {W A} _.

(** Runs a method against a client, recording the commands sent. *)
Fixpoint run {W A : Type} (redis : client W) (p : async A) (w : W) (log : list command)
  : outcome W A :=
  match p with
  | Return a => {| settled := Ok a; world := w; sent := log |}
  | Reject e => {| settled := Throw e; world := w; sent := log |}
  | Await c k =>
      let '(r, w') := redis c w in run redis (k r) w' (log ++ [c])%list
  end.

End Commands.

(* ===================================================================== *)
(** * redis-set.ts *)
(* ===================================================================== *)

Module RedisSet.
Import JS Interfaces Commands.
Local Open Scope commands_scope.

Record RedisSetOptions : Type := {
  key : string;
  keygen : option RedisKeygen
}.

Record RedisSet : Type := {
  set_key : string;
  set_keygen : RedisKeygen
}.

(** The constructor. *)
Definition new (options : RedisSetOptions) : RedisSet :=
  {| set_key := key options;
     set_keygen := match keygen options with
                   | Some k => k
                   | None => DEFAULT_KEYGEN
                   end |}.

Section Methods.
Variable this : RedisSet.

Definition serializeKey (id : value) : result string :=
  Interfaces.serialize (set_keygen this) id.

Definition parseKey (key : string) : value :=
  Interfaces.parse (set_keygen this) key.

Definition add (ids : list value) : async Z :=
  ms <- lift (mapM serializeKey ids) ;; send (SADD (set_key this) ms).

Definition remove (ids : list value) : async Z :=
  ms <- lift (mapM serializeKey ids) ;; send (SREM (set_key this) ms).

Definition has (id : value) : async bool :=
  m <- lift (serializeKey id) ;; send (SISMEMBER (set_key this) m).

Definition members : async (list value) :=
  ms <- send (SMEMBERS (set_key this)) ;; Return (map parseKey ms).

Definition hasMembers (ids : list value) : async (list bool) :=
  ms <- lift (mapM serializeKey ids) ;; send (SMISMEMBER (set_key this) ms).

(** [reset] resolves with [undefined] on a set without members, and with
    the reply to SREM otherwise. *)
Definition reset : async (option Z) :=
  ms <- members ;;
  match ms with
  | [] => Return None
  | _ => n <- remove ms ;; Return (Some n)
  end.

End Methods.
End RedisSet.

(* ===================================================================== *)
(** * stores/string/base-string.store.ts, the other methods *)
(* ===================================================================== *)

(** The methods of [BaseStringStore] besides the batch reads of the module
    [BaseStringStore] above.  [getOrThrow] is left out: its message is the
    ID converted to a string, which for a Date depends on the time zone of
    the host. *)
Module StringStoreMethods.
Import JS Commands.
Local Open Scope commands_scope.

Section Methods.
Context {T : Type}.
Variable this : BaseStringStore.BaseStringStore T.

Let base : BaseStore.BaseStore := BaseStringStore.base this.
Let valueParser : StringParser T := BaseStringStore.valueParser this.

(** [set]: [options || {}], with [EX] set to the time to live of the
    store when that is truthy. *)
Definition set (id : value) (v : T) (options : option (list (string * value)))
  : async (option string) :=
  let setOptions := match options with
                    | Some o => o
                    | None => []
                    end in
  let setOptions := match BaseStore.store_ttl base with
                    | Some ttl =>
                        if truthy (VNumber ttl) then setProperty "EX" (VNumber ttl) setOptions
                        else setOptions
                    | None => setOptions
                    end in
  k <- lift (BaseStore.toKey base id) ;;
  text <- lift (serialize valueParser v) ;;
  send (SET k text setOptions).

Definition get (id : value) : async (option T) :=
  k <- lift (BaseStore.toKey base id) ;;
  text <- send (GET k) ;;
  lift (BaseStringStore.deserializeOrNull this text).

(** [Object.fromEntries(map)] *)
Definition mGetObj (ids : list value) : Client.async (list (string * option T)) :=
  Client.abind (BaseStringStore.mGetMap this ids) (fun m => Client.Return (fromEntries m)).

Definition mGetCleanObj (ids : list value) : Client.async (list (string * T)) :=
  Client.abind (BaseStringStore.mGetCleanMap this ids) (fun m =>
    Client.Return (fromEntries m)).

Definition mSet (kvs : list (value * T)) : async string :=
  mapped <- lift (mapM (fun kv =>
                          bind (BaseStore.toKey base (fst kv)) (fun k =>
                          bind (serialize valueParser (snd kv)) (fun text =>
                            Ok (k, text)))) kvs) ;;
  send (MSET mapped).

Definition getAll : Client.async (list T) :=
  Client.abind (BaseStore.getAllIds base) (fun ids =>
    match ids with
    | [] => Client.Return []
    | _ => BaseStringStore.mGetClean this ids
    end).

Definition getAllAsMap : Client.async (list (string * T)) :=
  Client.abind (BaseStore.getAllIds base) (fun ids => BaseStringStore.mGetCleanMap this ids).

Definition getAllAsObject : Client.async (list (string * T)) :=
  Client.abind getAllAsMap (fun m => Client.Return (fromEntries m)).

(** [oKeys.filter((o) => !keys.includes(o))] *)
Definition staleKeys (oKeys keys : list string) : list string :=
  filter (fun o => negb (existsb (String.eqb o) keys)) oKeys.

Definition reload (kvs : list (value * T)) : async unit :=
  keys <- lift (mapM (fun kv => BaseStore.toKey base (fst kv)) kvs) ;;
  oKeys <- widen (BaseStore.getAllKeys base) ;;
  _ <- match kvs with
       | [] => Return tt
       | _ => _ <- mSet kvs ;; Return tt
       end ;;
  match staleKeys oKeys keys with
  | [] => Return tt
  | toRemove => _ <- send (Batch (Client.DEL toRemove)) ;; Return tt
  end.

Definition createSet (key : string) : RedisSet.RedisSet :=
  RedisSet.new {| RedisSet.key := BaseStore.NAMESPACE base ++ "-set:" ++ key;
                  RedisSet.keygen := None |}.

End Methods.

(** string.store.ts: the stores of strings, numbers, booleans and
    objects are [BaseStringStore] with one of the parsers; the parser of
    objects is the one of the revision of string-parsers.ts that comes
    with string.store.ts. *)
Definition StringStore (options : BaseStore.RedisStoreOptions)
  : BaseStringStore.BaseStringStore string :=
  {| BaseStringStore.base := BaseStore.new options;
     BaseStringStore.valueParser := StringParsers.stringParser |}.

Definition NumberStore (options : BaseStore.RedisStoreOptions)
  : BaseStringStore.BaseStringStore number :=
  {| BaseStringStore.base := BaseStore.new options;
     BaseStringStore.valueParser := StringParsers.numberParser |}.

Definition BooleanStore (options : BaseStore.RedisStoreOptions)
  : BaseStringStore.BaseStringStore bool :=
  {| BaseStringStore.base := BaseStore.new options;
     BaseStringStore.valueParser := StringParsers.booleanParser |}.

Definition ObjectStore (options : BaseStore.RedisStoreOptions)
  : BaseStringStore.BaseStringStore value :=
  {| BaseStringStore.base := BaseStore.new options;
     BaseStringStore.valueParser := StringParsersUtils.objectParser |}.

End StringStoreMethods.

(* ===================================================================== *)
(** * stores/json/json-store.ts *)
(* ===================================================================== *)

Module JsonStore.
Import JS Commands.
Local Open Scope commands_scope.

(** [KeyValueResolvable]: an array of pairs, a [Map] or a plain object. *)
Inductive KeyValueResolvable : Type :=
| Pairs (kvs : list (value * value))
| AsMap (entries : list (string * value))
| AsRecord (properties : list (string * value)).

(** [T | null] *)
Definition orNull (v : value) : option value :=
  match v with
  | VNull => None
  | _ => Some v
  end.

Section Methods.
Variable this : BaseStore.BaseStore.

Definition serializeValue (v : value) : result value := Utils.recursiveSerialize v.

Definition parseValue (v : value) : value := Utils.recursiveParse v.

Definition get (id : value) : async value :=
  k <- lift (BaseStore.toKey this id) ;;
  v <- send (JSON_GET k) ;;
  Return (parseValue v).

Definition mGet (ids : list value) : async (list (option value)) :=
  match ids with
  | [] => Return []
  | _ =>
      ks <- lift (BaseStore.toKeys this ids) ;;
      values <- send (JSON_MGET ks ".") ;;
      Return (map (fun v => orNull (parseValue v)) values)
  end.

Definition mGetClean (ids : list value) : async (list value) :=
  values <- mGet ids ;; Return (Utils.removeNulls values).

Definition getAll : async (list value) :=
  ids <- widen (BaseStore.getAllIds this) ;;
  match ids with
  | [] => Return []
  | _ => mGetClean ids
  end.

(** [values[i]], which is [undefined] when the client answered with fewer
    entries than keys were asked for. *)
Definition firstOf (values : list (option value)) : option value :=
  match values with
  | v :: _ => v
  | [] => Some VUndefined
  end.

(** The loop of [mGetMap] over the ids and the values side by side. *)
Fixpoint mGetMap_loop (ids : list value) (values : list (option value))
  (map : list (string * option value)) : result (list (string * option value)) :=
  match ids with
  | [] => Ok map
  | id :: ids' =>
      bind (BaseStore.serializeKey this id) (fun k =>
        mGetMap_loop ids' (List.tl values) (setProperty k (firstOf values) map))
  end.

Definition mGetMap (ids : list value) : async (list (string * option value)) :=
  match ids with
  | [] => Return []
  | _ => values <- mGet ids ;; lift (mGetMap_loop ids values [])
  end.

Fixpoint mGetCleanMap_loop (ids : list value) (values : list (option value))
  (map : list (string * value)) : result (list (string * value)) :=
  match ids with
  | [] => Ok map
  | id :: ids' =>
      match firstOf values with
      | None => mGetCleanMap_loop ids' (List.tl values) map
      | Some v =>
          bind (BaseStore.serializeKey this id) (fun k =>
            mGetCleanMap_loop ids' (List.tl values) (setProperty k v map))
      end
  end.

Definition mGetCleanMap (ids : list value) : async (list (string * value)) :=
  match ids with
  | [] => Return []
  | _ => values <- mGet ids ;; lift (mGetCleanMap_loop ids values [])
  end.

Definition mGetObj (ids : list value) : async (list (string * option value)) :=
  m <- mGetMap ids ;; Return (fromEntries m).

Definition mGetCleanObj (ids : list value) : async (list (string * value)) :=
  m <- mGetCleanMap ids ;; Return (fromEntries m).

Definition set (id v : value) : async (option string) :=
  k <- lift (BaseStore.toKey this id) ;;
  json <- lift (serializeValue v) ;;
  send (JSON_SET k "$" json).

(** [toKeyValues]: an array is taken as it is; of anything else the
    enumerable properties are read, of which a [Map] has none. *)
Definition toKeyValues (kvs : KeyValueResolvable) : list (value * value) :=
  match kvs with
  | Pairs l => l
  | AsMap _ => []
  | AsRecord ps => map (fun kv => (BaseStore.parseKey this (fst kv), snd kv)) ps
  end.

Definition mSet (data : KeyValueResolvable) : async string :=
  let kvs := toKeyValues data in
  items <- lift (mapM (fun kv =>
                         bind (BaseStore.toKey this (fst kv)) (fun k =>
                         bind (serializeValue (snd kv)) (fun json =>
                           Ok {| item_path := "$"; item_key := k; item_value := json |})))
                      kvs) ;;
  send (JSON_MSET items).

Definition reload (data : KeyValueResolvable) : async unit :=
  let kvs := toKeyValues data in
  keys <- lift (mapM (fun kv => BaseStore.toKey this (fst kv)) kvs) ;;
  oKeys <- widen (BaseStore.getAllKeys this) ;;
  _ <- match kvs with
       | [] => Return tt
       | _ => _ <- mSet (Pairs kvs) ;; Return tt
       end ;;
  match StringStoreMethods.staleKeys oKeys keys with
  | [] => Return tt
  | toRemove => _ <- send (Batch (Client.DEL toRemove)) ;; Return tt
  end.

End Methods.
End JsonStore.

(* ===================================================================== *)
(** * stores/json/json-search-store.ts, the reconciliation of the index *)
(* ===================================================================== *)

Module JsonSearchIndex.
Import JS Commands.
Local Open Scope commands_scope.

Section Methods.
Variable this : JsonSearchStore.JsonSearchStore.

Definition create : async unit :=
  _ <- send (FT_CREATE (JsonSearchStore.INDEX this) (JsonSearchStore.this_schema this)
               (JsonSearchStore.createOptions this)) ;;
  Return tt.

(** [init].  The optional logger is not modelled. *)
Definition init : async unit :=
  idxList <- send FT_LIST ;;
  if existsb (fun i => String.eqb i (JsonSearchStore.INDEX this)) idxList then
    changed <- widen (JsonSearchStore.hasIndexChanged this) ;;
    if changed : bool then
      _ <- send (FT_DROPINDEX (JsonSearchStore.INDEX this)) ;; create
    else Return tt
  else create.

End Methods.
End JsonSearchIndex.


(* ===================================================================== *)
(** * Traversals *)
(* ===================================================================== *)

Module TraversalFacts.
Import JS.

Lemma Forall_forallb_impl {A : Type} (p : A -> bool) (R : A -> Prop) (l : list A) :
  Forall (fun x => p x = true -> R x) l -> forallb p l = true -> Forall R l.
Proof.
  induction 1 as [|x l Hx _ IH]; cbn [forallb]; intros H; [constructor|].
  apply andb_prop in H as [H1 H2]. constructor; auto.
Qed.

(** A traversal that succeeds on every element. *)
Lemma mapM_Forall2 {A B : Type} (f : A -> result B) (R : A -> B -> Prop) (l : list A) :
  Forall (fun x => exists y, f x = Ok y /\ R x y) l ->
  exists ys, mapM f l = Ok ys /\ Forall2 R l ys.
Proof.
  induction 1 as [|x l [y [Hy Hr]] _ [ys [Hys Hrs]]].
  - exists []. split; [reflexivity | constructor].
  - exists (y :: ys). cbn [mapM]. rewrite Hy. cbn [bind]. rewrite Hys. cbn [bind].
    split; [reflexivity | now constructor].
Qed.

(** A traversal whose callback fails, with [e], exactly on the elements
    [bad] singles out fails with [e] when there is such an element. *)
Lemma mapM_first_failure {A B : Type} (f : A -> result B) (bad : A -> bool) (e : exn)
  (l : list A) :
  Forall (fun x => if bad x then f x = Throw e else exists y, f x = Ok y) l ->
  if existsb bad l then mapM f l = Throw e else exists ys, mapM f l = Ok ys.
Proof.
  induction 1 as [|x l Hx _ IH]; simpl.
  - now exists [].
  - destruct (bad x); simpl.
    + now rewrite Hx.
    + destruct Hx as [y ->]; simpl.
      destruct (existsb bad l).
      * now rewrite IH.
      * destruct IH as [ys ->]. now exists (y :: ys).
Qed.

Lemma fmap_first_failure {A B : Type} (g : A -> B) (r : result A) (e : exn) (b : bool) :
  (if b then r = Throw e else exists y, r = Ok y) ->
  if b then fmap g r = Throw e else exists y, fmap g r = Ok y.
Proof.
  destruct b.
  - now intros ->.
  - intros [y ->]. now exists (g y).
Qed.

End TraversalFacts.

(* ===================================================================== *)
(** * Properties of the key bookkeeping *)
(* ===================================================================== *)

Module BaseStoreFacts.
Import JS Interfaces BaseStore.

Lemma startsWith_append (p k : string) : startsWith (p ++ k) p = true.
Proof.
  unfold startsWith.
  induction p as [|c p IH]; simpl.
  - now destruct k.
  - destruct (ascii_dec c c) as [_|ne]; [exact IH | now elim ne].
Qed.

Lemma substring_from_append (p k : string) :
  substring_from (String.length p) (p ++ k) = k.
Proof.
  induction p as [|c p IH]; simpl; [reflexivity | exact IH].
Qed.

Lemma append_nonempty_length (p k : string) :
  p <> "" -> String.length (p ++ k) <> String.length k.
Proof.
  intros Hp E.
  assert (L : String.length (p ++ k) = String.length p + String.length k).
  { clear. induction p as [|c p IH]; simpl; [reflexivity | now rewrite IH]. }
  rewrite L in E.
  destruct p as [|c p]; [now elim Hp | simpl in E; lia].
Qed.

Lemma startsWith_split (s p : string) :
  startsWith s p = true -> s = p ++ substring_from (String.length p) s.
Proof.
  unfold startsWith.
  revert s; induction p as [|c p IH]; intros s H; simpl.
  - reflexivity.
  - destruct s as [|d s]; simpl in H; [discriminate|].
    destruct (ascii_dec c d) as [->|]; [|discriminate].
    simpl. f_equal. now apply IH.
Qed.

Lemma string_or_nonempty (x : option string) (d : string) :
  d <> "" -> string_or x d <> "".
Proof.
  intros Hd; destruct x as [[|c s]|]; simpl; congruence.
Qed.

(** The prefix of a store is never empty: it ends with the separator,
    which is [":"] when the option is missing or empty. *)
Lemma PREFIX_nonempty (options : RedisStoreOptions) : PREFIX (new options) <> "".
Proof.
  unfold new; simpl.
  assert (H : string_or (separator options) ":" <> "")
    by (apply string_or_nonempty; discriminate).
  destruct (prefix options); simpl; [exact H | discriminate].
Qed.

Section Keys.
Variable this : BaseStore.

Lemma prefixKey_idempotent (k : string) :
  prefixKey this (prefixKey this k) = prefixKey this k.
Proof.
  unfold prefixKey.
  destruct (startsWith k (PREFIX this)) eqn:E.
  - now rewrite E.
  - now rewrite startsWith_append.
Qed.

Lemma unPrefixKey_prefixKey (k : string) :
  startsWith k (PREFIX this) = false -> unPrefixKey this (prefixKey this k) = k.
Proof.
  intros E. unfold prefixKey. rewrite E.
  unfold unPrefixKey. rewrite startsWith_append.
  apply substring_from_append.
Qed.

(** On a key that carries the prefix already, [unPrefixKey] after
    [prefixKey] takes the prefix away. *)
Lemma unPrefixKey_prefixKey_prefixed (k : string) :
  startsWith k (PREFIX this) = true ->
  unPrefixKey this (prefixKey this k) = substring_from (String.length (PREFIX this)) k.
Proof.
  intros E. unfold prefixKey. rewrite E. unfold unPrefixKey. now rewrite E.
Qed.

End Keys.

(** C9.  Key prefixing is idempotent and un-prefixing is its one-sided
    inverse: for every store and every key [k],
    [prefixKey(prefixKey(k)) = prefixKey(k)], and [unPrefixKey(prefixKey(k)) = k]
    when [k] does not start with the store prefix.  With the default
    keygen, [toId(toKey(id))] gives [id] back exactly for the (string) ids
    that do not start with the prefix, and for such an id the distinct ids
    [id] and [PREFIX + id] have the same store key. *)
Theorem prefixKey_idempotent_unPrefixKey_one_sided_inverse (options : RedisStoreOptions) :
  let this := new options in
  (forall k, prefixKey this (prefixKey this k) = prefixKey this k)
  /\ (forall k, startsWith k (PREFIX this) = false ->
                unPrefixKey this (prefixKey this k) = k)
  /\ (keygen options = None ->
      forall id : string,
        (fmap (toId this) (toKey this (VString id)) = Ok (VString id)
         <-> startsWith id (PREFIX this) = false)
        /\ (startsWith id (PREFIX this) = false ->
            id <> PREFIX this ++ id
            /\ toKey this (VString id) = toKey this (VString (PREFIX this ++ id)))).
Proof.
  intros this.
  split; [exact (prefixKey_idempotent this)|].
  split; [exact (unPrefixKey_prefixKey this)|].
  intros Hk id.
  assert (Hne : PREFIX this <> "") by apply PREFIX_nonempty.
  assert (Hto : forall s, toKey this (VString s) = Ok (prefixKey this s)).
  { intros s. unfold toKey, serializeKey, this, new; simpl. now rewrite Hk. }
  assert (Hid : forall s, toId this s = VString (unPrefixKey this s)).
  { intros s. unfold toId, parseKey, this, new; simpl. now rewrite Hk. }
  split; [split|].
  - rewrite Hto; unfold fmap, bind. rewrite Hid. intros E.
    destruct (startsWith id (PREFIX this)) eqn:Es; [|reflexivity].
    rewrite (unPrefixKey_prefixKey_prefixed this id Es) in E.
    injection E as E.
    pose proof (startsWith_split _ _ Es) as Hs.
    assert (Hs' : id = PREFIX this ++ id)
      by (etransitivity; [exact Hs | f_equal; exact E]).
    exfalso. apply (append_nonempty_length (PREFIX this) id Hne).
    now rewrite <- Hs'.
  - intros Es. rewrite Hto; unfold fmap, bind. rewrite Hid.
    now rewrite (unPrefixKey_prefixKey this id Es).
  - intros Es. split.
    + intros E. apply (append_nonempty_length (PREFIX this) id Hne). now rewrite <- E.
    + rewrite !Hto. f_equal. unfold prefixKey.
      now rewrite Es, startsWith_append.
Qed.

(** The statement at the store [{prefix: "user"}] and the id ["1"]. *)
Lemma prefixKey_idempotent_unPrefixKey_one_sided_inverse_witness :
  let this := new {| separator := None; prefix := "user"; ttl := None; keygen := None |} in
  unPrefixKey this (prefixKey this "1") = "1"
  /\ fmap (toId this) (toKey this (VString "1")) = Ok (VString "1")
  /\ "1" <> "user:1"
  /\ toKey this (VString "1") = toKey this (VString "user:1").
Proof.
  pose proof (prefixKey_idempotent_unPrefixKey_one_sided_inverse
                {| separator := None; prefix := "user"; ttl := None; keygen := None |})
    as [_ [Hun Hdef]].
  specialize (Hun "1" eq_refl).
  destruct (Hdef eq_refl "1") as [[_ Hid] Hcol].
  destruct (Hcol eq_refl) as [Hne Hsame].
  exact (conj Hun (conj (Hid eq_refl) (conj Hne Hsame))).
Defined.

End BaseStoreFacts.

(* ===================================================================== *)
(** * Properties of the query compiler *)
(* ===================================================================== *)

Module QueryFacts.
Import JS JsonSearchStore TraversalFacts.

(** The failure of an OR with no condition. *)
Definition emptyOr : exn := Error "More than one condition required for OR".

(** The filters of the type [WhereInput]: AND and OR carry arrays of
    conditions, every other key a primitive value. *)
Fixpoint wellShaped (w : WhereInput) : bool :=
  match w with
  | Where entries =>
      forallb (fun kv => wellShapedEntry (fst kv) (snd kv)) entries
  end
with wellShapedEntry (k : string) (v : WhereValue) : bool :=
  if String.eqb k "AND" || String.eqb k "OR" then
    match v with
    | Conditions l => forallb wellShaped l
    | _ => false
    end
  else
    match v with
    | Scalar _ => true
    | _ => false
    end.

(** An OR node with no child, somewhere in the tree of AND and OR nodes. *)
Fixpoint hasEmptyOr (w : WhereInput) : bool :=
  match w with
  | Where entries => existsb (fun kv => entryHasEmptyOr (fst kv) (snd kv)) entries
  end
with entryHasEmptyOr (k : string) (v : WhereValue) : bool :=
  if String.eqb k "AND" then
    match v with
    | Conditions l => existsb hasEmptyOr l
    | _ => false
    end
  else if String.eqb k "OR" then
    match v with
    | Conditions [] => true
    | Conditions l => existsb hasEmptyOr l
    | _ => false
    end
  else false.

Section Induction.
Variable P : WhereInput -> Prop.
Variable Q : WhereValue -> Prop.
Hypothesis onWhere : forall es, Forall (fun kv => Q (snd kv)) es -> P (Where es).
Hypothesis onScalar : forall v, Q (Scalar v).
Hypothesis onConditions : forall l, Forall P l -> Q (Conditions l).
Hypothesis onCondition : forall w, P w -> Q (Condition w).

Fixpoint WhereInput_induction (w : WhereInput) : P w :=
  match w with
  | Where es =>
      onWhere es
        ((fix entries (es : list (string * WhereValue))
            : Forall (fun kv => Q (snd kv)) es :=
            match es with
            | [] => Forall_nil _
            | kv :: es' => Forall_cons kv (WhereValue_induction (snd kv)) (entries es')
            end) es)
  end
with WhereValue_induction (v : WhereValue) : Q v :=
  match v with
  | Scalar x => onScalar x
  | Conditions l =>
      onConditions l
        ((fix children (l : list WhereInput) : Forall P l :=
            match l with
            | [] => Forall_nil _
            | w :: l' => Forall_cons w (WhereInput_induction w) (children l')
            end) l)
  | Condition w => onCondition w (WhereInput_induction w)
  end.

End Induction.

Section Compiler.
Variable this : JsonSearchStore.

(** The unfolding equations of [buildQuery]. *)
Lemma buildQuery_Where (entries : list (string * WhereValue)) :
  buildQuery this (Where entries)
  = fmap (join " ") (mapM (fun kv => buildEntry this (fst kv) (snd kv)) entries).
Proof.
  simpl. f_equal.
  induction entries as [|[k v] es IH]; simpl; [reflexivity|].
  now rewrite IH.
Qed.

Lemma buildEntry_AND (l : list WhereInput) :
  buildEntry this "AND" (Conditions l)
  = fmap (fun qs => "(" ++ join " " qs ++ ")") (mapM (buildQuery this) l).
Proof.
  simpl. f_equal.
  induction l as [|w l IH]; simpl; [reflexivity|].
  now rewrite IH.
Qed.

Lemma buildEntry_OR (l : list WhereInput) :
  buildEntry this "OR" (Conditions l)
  = match l with
    | [] => Throw emptyOr
    | _ => fmap (fun qs => "(" ++ join " | " qs ++ ")") (mapM (buildQuery this) l)
    end.
Proof.
  destruct l as [|w0 l0]; [reflexivity|].
  set (l := w0 :: l0).
  change (buildEntry this "OR" (Conditions l))
    with (fmap (fun qs => "(" ++ join " | " qs ++ ")")
            ((fix each (l : list WhereInput) : result (list string) :=
                match l with
                | [] => Ok []
                | w :: l' =>
                    bind (buildQuery this w) (fun q =>
                    bind (each l') (fun qs => Ok (q :: qs)))
                end) l)).
  f_equal. clearbody l.
  induction l as [|w l IH]; simpl; [reflexivity|].
  now rewrite IH.
Qed.

Lemma buildEntry_field (k : string) (v : primitive) :
  String.eqb k "AND" = false -> String.eqb k "OR" = false ->
  buildEntry this k (Scalar v)
  = Ok ("(@" ++ k ++ ":"
          ++ (if isTag this k then "{" ++ primitiveToString v ++ "}"
              else primitiveToString v)
          ++ ")").
Proof.
  intros Ha Ho.
  destruct v; simpl; rewrite Ha, Ho; reflexivity.
Qed.

(** On a filter of the type [WhereInput], the compiler fails with the
    error of the empty OR when the tree has one, and compiles otherwise. *)
Lemma buildQuery_wellShaped (w : WhereInput) :
  wellShaped w = true ->
  if hasEmptyOr w then buildQuery this w = Throw emptyOr
  else exists q, buildQuery this w = Ok q.
Proof.
  revert w.
  apply (WhereInput_induction
           (fun w => wellShaped w = true ->
                     if hasEmptyOr w then buildQuery this w = Throw emptyOr
                     else exists q, buildQuery this w = Ok q)
           (fun v => forall k, wellShapedEntry k v = true ->
                     if entryHasEmptyOr k v then buildEntry this k v = Throw emptyOr
                     else exists q, buildEntry this k v = Ok q)).
  - intros es IH Hw. rewrite buildQuery_Where.
    change (hasEmptyOr (Where es))
      with (existsb (fun kv => entryHasEmptyOr (fst kv) (snd kv)) es).
    apply fmap_first_failure.
    apply (mapM_first_failure (fun kv => buildEntry this (fst kv) (snd kv))).
    apply (Forall_forallb_impl (fun kv => wellShapedEntry (fst kv) (snd kv))); [|exact Hw].
    revert IH. apply Forall_impl. intros [k v] H; simpl; apply H.
  - intros v k Hw.
    unfold wellShapedEntry in Hw. unfold entryHasEmptyOr.
    destruct (String.eqb k "AND") eqn:Ea; [discriminate|].
    destruct (String.eqb k "OR") eqn:Eo; [discriminate|].
    rewrite (buildEntry_field k v Ea Eo). eauto.
  - intros l IH k Hw.
    unfold wellShapedEntry in Hw. unfold entryHasEmptyOr.
    destruct (String.eqb k "AND") eqn:Ea.
    + apply String.eqb_eq in Ea; subst k. simpl in Hw.
      rewrite buildEntry_AND. apply fmap_first_failure.
      apply mapM_first_failure.
      apply (Forall_forallb_impl wellShaped); assumption.
    + destruct (String.eqb k "OR") eqn:Eo; [|discriminate].
      apply String.eqb_eq in Eo; subst k. simpl in Hw.
      rewrite buildEntry_OR.
      destruct l as [|w0 l0]; [reflexivity|].
      apply fmap_first_failure. apply mapM_first_failure.
      apply (Forall_forallb_impl wellShaped); assumption.
  - intros w _ k Hw. unfold wellShapedEntry in Hw.
    destruct (String.eqb k "AND" || String.eqb k "OR"); discriminate.
Qed.

End Compiler.

(** The store of the example: [tag] is declared as a TAG field, [status]
    as a TEXT field. *)
Definition exampleStore : JsonSearchStore :=
  new {| name := "idx";
         schema :=
           [("status", {| path := "$.status";
                          rest := [("type", VString SchemaFieldTypes.TEXT)] |});
            ("tag", {| path := "$.tag";
                       rest := [("type", VString SchemaFieldTypes.TAG)] |})];
         prefix := None |}.

(** [{AND: [{status: "active"}, {OR: [{tag: "x"}, {tag: "y"}]}]}] *)
Definition exampleFilter : WhereInput :=
  Where [("AND", Conditions
            [Where [("status", Scalar (PString "active"))];
             Where [("OR", Conditions [Where [("tag", Scalar (PString "x"))];
                                       Where [("tag", Scalar (PString "y"))]])]])].

(** C4.  With [tag] declared as a tag field (and [status] not), the filter
    [{AND: [{status: "active"}, {OR: [{tag: "x"}, {tag: "y"}]}]}] compiles
    to exactly [((@status:active) ((@tag:{x}) | (@tag:{y})))], and this is
    the string of the grammar: a leaf gives [(@field:value)] with the
    value in braces for a tag field, an AND node its compiled children
    joined by one space inside one pair of parentheses, an OR node the same
    with [" | "]. *)
Theorem buildQuery_compiles_the_grammar (this : JsonSearchStore) :
  (isTag this "tag" = true -> isTag this "status" = false ->
   buildQuery this exampleFilter = Ok "((@status:active) ((@tag:{x}) | (@tag:{y})))")
  /\ (forall k v, String.eqb k "AND" = false -> String.eqb k "OR" = false ->
        buildQuery this (Where [(k, Scalar v)])
        = Ok ("(@" ++ k ++ ":"
                ++ (if isTag this k then "{" ++ primitiveToString v ++ "}"
                    else primitiveToString v) ++ ")"))
  /\ (forall children compiled,
        mapM (buildQuery this) children = Ok compiled ->
        buildQuery this (Where [("AND", Conditions children)])
        = Ok ("(" ++ join " " compiled ++ ")"))
  /\ (forall children compiled,
        children <> [] ->
        mapM (buildQuery this) children = Ok compiled ->
        buildQuery this (Where [("OR", Conditions children)])
        = Ok ("(" ++ join " | " compiled ++ ")")).
Proof.
  assert (Leaf : forall k v, String.eqb k "AND" = false -> String.eqb k "OR" = false ->
        buildQuery this (Where [(k, Scalar v)])
        = Ok ("(@" ++ k ++ ":"
                ++ (if isTag this k then "{" ++ primitiveToString v ++ "}"
                    else primitiveToString v) ++ ")")).
  { intros k v Ha Ho. rewrite buildQuery_Where. cbn [mapM fst snd].
    now rewrite (buildEntry_field this k v Ha Ho). }
  assert (And : forall children compiled,
        mapM (buildQuery this) children = Ok compiled ->
        buildQuery this (Where [("AND", Conditions children)])
        = Ok ("(" ++ join " " compiled ++ ")")).
  { intros cs qs H. rewrite buildQuery_Where. cbn [mapM fst snd].
    now rewrite buildEntry_AND, H. }
  assert (Or : forall children compiled,
        children <> [] ->
        mapM (buildQuery this) children = Ok compiled ->
        buildQuery this (Where [("OR", Conditions children)])
        = Ok ("(" ++ join " | " compiled ++ ")")).
  { intros cs qs Hne H. rewrite buildQuery_Where. cbn [mapM fst snd].
    rewrite buildEntry_OR. destruct cs; [now elim Hne|]. now rewrite H. }
  repeat split; try assumption.
  intros Htag Hstatus. unfold exampleFilter.
  apply (And _ ["(@status:active)"; "((@tag:{x}) | (@tag:{y}))"]).
  cbn [mapM].
  rewrite (Leaf "status" (PString "active") eq_refl eq_refl), Hstatus.
  rewrite (Or _ ["(@tag:{x})"; "(@tag:{y})"]); [reflexivity | discriminate |].
  cbn [mapM].
  now rewrite (Leaf "tag" (PString "x") eq_refl eq_refl),
              (Leaf "tag" (PString "y") eq_refl eq_refl), Htag.
Qed.

(** The example on [exampleStore]. *)
Lemma buildQuery_compiles_the_grammar_witness :
  buildQuery exampleStore exampleFilter = Ok "((@status:active) ((@tag:{x}) | (@tag:{y})))".
Proof.
  exact (proj1 (buildQuery_compiles_the_grammar exampleStore) eq_refl eq_refl).
Defined.

(** C5.  Compiling a filter with an OR node that has no child fails with
    the error of the empty OR ([{OR: []}] does, and so does every filter of
    the type [WhereInput] in which such a node occurs), and a filter of
    that type in which every OR node has a child compiles. *)
Theorem buildQuery_fails_exactly_on_an_empty_OR (this : JsonSearchStore) :
  buildQuery this (Where [("OR", Conditions [])])
  = Throw (Error "More than one condition required for OR")
  /\ (forall w, wellShaped w = true -> hasEmptyOr w = true ->
                buildQuery this w = Throw (Error "More than one condition required for OR"))
  /\ (forall w, wellShaped w = true -> hasEmptyOr w = false ->
                exists q, buildQuery this w = Ok q).
Proof.
  split; [reflexivity|].
  split; intros w Hw He; pose proof (buildQuery_wellShaped this w Hw) as H;
    rewrite He in H; exact H.
Qed.

(** The statement on [exampleStore]: [{AND: [{OR: []}]}] fails, the filter
    of the example compiles. *)
Lemma buildQuery_fails_exactly_on_an_empty_OR_witness :
  buildQuery exampleStore (Where [("AND", Conditions [Where [("OR", Conditions [])]])])
  = Throw (Error "More than one condition required for OR")
  /\ exists q, buildQuery exampleStore exampleFilter = Ok q.
Proof.
  destruct (buildQuery_fails_exactly_on_an_empty_OR exampleStore) as [_ [Hfail Hok]].
  split.
  - apply Hfail; reflexivity.
  - apply Hok; reflexivity.
Defined.

End QueryFacts.


(* ===================================================================== *)
(** * Calls that never reach the store *)
(* ===================================================================== *)

Module SilentCalls.
Import JS Client.

Lemma Return_settlesSilently {A : Type} (a : A) : settlesSilently (Return a) a.
Proof. intros W redis w log. reflexivity. Qed.

(** By contrast, a call with an argument reaches the store: [del("1")] on
    the store with the prefix [user] sends DEL for the key [user:1], and
    [query] with an empty [where] object sends a search for the empty
    query. *)
Lemma calls_with_arguments_reach_the_store (W : Type) (redis : client W) (w : W) :
  sent (run redis
          (BaseStore.del
             (BaseStore.new {| BaseStore.separator := None; BaseStore.prefix := "user";
                               BaseStore.ttl := None; BaseStore.keygen := None |})
             [VString "1"]) w [])
  = [DEL ["user:1"]]
  /\ sent (run redis
             (JsonSearchStore.query QueryFacts.exampleStore
                {| JsonSearchStore.search := None;
                   JsonSearchStore.where_ := Some (JsonSearchStore.Where []);
                   JsonSearchStore.limit := None;
                   JsonSearchStore.wildcard := None |}) w [])
     = [FT_SEARCH "idx" "" {| LIMIT := None |}].
Proof.
  split.
  - cbn. destruct (redis (DEL ["user:1"]) w) as [[r|e] w']; reflexivity.
  - cbn. destruct (redis (FT_SEARCH "idx" "" {| LIMIT := None |}) w) as [[r|e] w'];
      cbn; [destruct (documents r)|]; reflexivity.
Qed.

(** C10.  Every batch operation called with no argument short-circuits to
    its neutral result: [del] and [delPatterns] settle with 0, [mGet] and
    [mGetClean] with the empty array, [mGetMap] and [mGetCleanMap] with
    the empty map, whatever the client is, with no command sent to it and
    the state of the store as it was. *)
Theorem batch_operations_without_arguments_are_silent
  (T : Type) (store : BaseStringStore.BaseStringStore T) :
  let this := BaseStringStore.base store in
  settlesSilently (BaseStore.del this []) 0%Z
  /\ settlesSilently (BaseStore.delPatterns this []) 0%Z
  /\ settlesSilently (BaseStringStore.mGet store []) []
  /\ settlesSilently (BaseStringStore.mGetClean store []) []
  /\ settlesSilently (BaseStringStore.mGetMap store []) []
  /\ settlesSilently (BaseStringStore.mGetCleanMap store []) [].
Proof.
  cbv zeta. repeat split; apply Return_settlesSilently.
Qed.

(** C8.  [query] called with neither [where] nor [search] settles with the
    empty list, whatever [limit] and [wildcard] are: it raises nothing and
    sends no search command. *)
Theorem query_without_where_and_search_is_silent
  (this : JsonSearchStore.JsonSearchStore) (limit : option number) (wildcard : option bool) :
  settlesSilently
    (JsonSearchStore.query this
       {| JsonSearchStore.search := None;
          JsonSearchStore.where_ := None;
          JsonSearchStore.limit := limit;
          JsonSearchStore.wildcard := wildcard |})
    [].
Proof.
  apply Return_settlesSilently.
Qed.

End SilentCalls.

(* ===================================================================== *)
(** * Wildcard expansion *)
(* ===================================================================== *)

Module WildcardFacts.
Import JS JsonSearchStore.

(** The expansion as the specification words it: every run of white space
    inside the trimmed term becomes one star. *)
Fixpoint starRuns (s : string) : string :=
  match s with
  | EmptyString => EmptyString
  | String c s' =>
      if isWhiteSpace c then
        match s' with
        | String d _ => if isWhiteSpace d then starRuns s' else "*" ++ starRuns s'
        | EmptyString => "*"
        end
      else String c (starRuns s')
  end.

Definition wildcardOfRuns (text : string) : string :=
  "*" ++ starRuns (trim text) ++ "*".

(** The terms on which the two readings agree: the only white space is the
    space, and no two stand next to each other. *)
Fixpoint singleSpaced (s : string) : bool :=
  match s with
  | EmptyString => true
  | String c s' =>
      (if isWhiteSpace c then
         Ascii.eqb c " "
         && match s' with
            | String d _ => negb (isWhiteSpace d)
            | EmptyString => true
            end
       else true)
      && singleSpaced s'
  end.

Fixpoint mapString (f : ascii -> ascii) (s : string) : string :=
  match s with
  | EmptyString => EmptyString
  | String c s' => String (f c) (mapString f s')
  end.

Definition defaultOptions : QueryOptions :=
  {| search := None; where_ := None; limit := None; wildcard := None |}.

Lemma replace_space_by_star (s : string) :
  replaceAllChar " " "*" s = mapString (fun c => if Ascii.eqb c " " then "*"%char else c) s.
Proof.
  induction s as [|c s IH]; cbn [replaceAllChar mapString]; [reflexivity|].
  rewrite Ascii.eqb_sym. destruct (Ascii.eqb c " "); rewrite IH; reflexivity.
Qed.

Lemma replace_space_by_star_singleSpaced (s : string) :
  singleSpaced s = true -> replaceAllChar " " "*" s = starRuns s.
Proof.
  induction s as [|c s IH]; cbn [singleSpaced replaceAllChar starRuns]; [reflexivity|].
  intros H. apply andb_prop in H as [Hc Hs]. specialize (IH Hs).
  destruct (isWhiteSpace c) eqn:Ew.
  - apply andb_prop in Hc as [Hsp Hnext].
    apply Ascii.eqb_eq in Hsp; subst c. rewrite Ascii.eqb_refl.
    destruct s as [|d s']; [reflexivity|].
    apply negb_true_iff in Hnext. rewrite Hnext. now rewrite IH.
  - destruct (Ascii.eqb " " c) eqn:E.
    + apply Ascii.eqb_eq in E; subst c. discriminate.
    + now rewrite IH.
Qed.

(** The claim C6 as it is worded fails on a term with two spaces in a row:
    the code writes a star for each of them. *)
Lemma addWildcard_two_spaces :
  addWildcard defaultOptions "a  b" = "*a**b*"
  /\ wildcardOfRuns "a  b" = "*a*b*"
  /\ addWildcard defaultOptions "a  b" <> wildcardOfRuns "a  b".
Proof.
  repeat split; discriminate.
Qed.

(** C6, amended.  Unless [wildcard] is [false], the expansion is the
    trimmed term with every space character replaced by a star (one star
    per space, other white space kept), between a leading and a trailing
    star; it is the term of the specification, with one star per run of
    white space, when the trimmed term has no white space but single
    spaces, as in ["hello world"], which gives ["*hello*world*"].  With
    [wildcard: false] the trimmed term is used as it is. *)
Theorem addWildcard_stars_every_space (opts : QueryOptions) (text : string) :
  (wildcard opts <> Some false ->
     addWildcard opts text
     = "*" ++ mapString (fun c => if Ascii.eqb c " " then "*"%char else c) (trim text) ++ "*"
     /\ (singleSpaced (trim text) = true -> addWildcard opts text = wildcardOfRuns text))
  /\ (wildcard opts = Some false -> addWildcard opts text = trim text)
  /\ addWildcard defaultOptions "hello world" = "*hello*world*".
Proof.
  split; [|split].
  - intros H.
    assert (E : addWildcard opts text = "*" ++ replaceAllChar " " "*" (trim text) ++ "*").
    { unfold addWildcard. destruct (wildcard opts) as [[|]|]; try reflexivity.
      now elim H. }
    split.
    + now rewrite E, replace_space_by_star.
    + intros Hs. rewrite E. unfold wildcardOfRuns.
      now rewrite (replace_space_by_star_singleSpaced _ Hs).
  - intros H. unfold addWildcard. now rewrite H.
  - reflexivity.
Qed.

(** The statement at ["  hello world "], by default and opted out. *)
Lemma addWildcard_stars_every_space_witness :
  addWildcard defaultOptions "  hello world " = "*hello*world*"
  /\ addWildcard defaultOptions "  hello world " = wildcardOfRuns "  hello world "
  /\ addWildcard {| search := None; where_ := None; limit := None; wildcard := Some false |}
       "  hello world " = "hello world".
Proof.
  destruct (addWildcard_stars_every_space defaultOptions "  hello world ")
    as [Hdefault _].
  destruct (Hdefault ltac:(discriminate)) as [Hstars Hruns].
  destruct (addWildcard_stars_every_space
              {| search := None; where_ := None; limit := None; wildcard := Some false |}
              "  hello world ") as [_ [Hout _]].
  exact (conj Hstars (conj (Hruns eq_refl) (Hout eq_refl))).
Defined.

End WildcardFacts.

(* ===================================================================== *)
(** * The index differ *)
(* ===================================================================== *)

Module DifferFacts.
Import JS Client JsonSearchStore.

(** Two prefix lists with the same members. *)
Definition samePrefixes (declared live : list string) : Prop :=
  forall p, In p declared <-> In p live.

(** The comparison of the differ on two lists of prefixes. *)
Definition prefixesUnchanged (declared live : list string) : result bool :=
  comparePrefix (VArray (map VString declared)) (VArray (map VString live)).

Lemma includes_strings (live : list string) (p : string) :
  includes (map VString live) (VString p) = true <-> In p live.
Proof.
  unfold includes. rewrite existsb_exists. split.
  - intros [x [Hin Heq]]. apply in_map_iff in Hin as [q [<- Hq]].
    simpl in Heq. apply String.eqb_eq in Heq. now subst.
  - intros Hin. exists (VString p). split.
    + now apply in_map.
    + simpl. apply String.eqb_refl.
Qed.

Lemma prefixesUnchanged_spec (declared live : list string) :
  prefixesUnchanged declared live = Ok true
  <-> List.length declared = List.length live /\ incl declared live.
Proof.
  unfold prefixesUnchanged, comparePrefix. rewrite !length_map.
  split.
  - intros H. injection H as H. apply andb_prop in H as [Hlen Hall].
    apply Nat.eqb_eq in Hlen. split; [exact Hlen|].
    rewrite forallb_forall in Hall. intros p Hp.
    apply includes_strings. apply Hall. now apply in_map.
  - intros [Hlen Hincl]. f_equal. apply andb_true_intro. split.
    + now apply Nat.eqb_eq.
    + apply forallb_forall. intros x Hx.
      apply in_map_iff in Hx as [p [<- Hp]].
      apply includes_strings. now apply Hincl.
Qed.

(** The claim C7 as it is worded fails on a declared list with a repeated
    prefix: [["a", "a"]] against [["a", "b"]] compares as unchanged, and the
    two are not the same set. *)
Lemma comparePrefix_repeated_prefix :
  prefixesUnchanged ["a"; "a"] ["a"; "b"] = Ok true
  /\ In "b" ["a"; "b"] /\ (In "b" ["a"; "a"] -> False)
  /\ (samePrefixes ["a"; "a"] ["a"; "b"] -> False).
Proof.
  assert (Hb : In "b" ["a"; "a"] -> False).
  { simpl. intros [H|[H|[]]]; discriminate. }
  repeat split.
  - simpl; auto.
  - exact Hb.
  - intros H. apply Hb. apply H. simpl; auto.
Qed.

(** The entries of [createOptions] against the definition the index
    reports: unchanged when the key type is JSON and the prefixes compare
    as unchanged. *)
Lemma definitionChanged_createOptions (o : JsonSearchStoreOptions) (declared : list string)
  (d : IndexDefinition) :
  prefix o = Some (ManyPrefixes declared) ->
  definitionChanged (createOptions (new o)) (entriesOfDefinition d)
  = if negb (String.eqb "JSON" (key_type d)) then Ok true
    else fmap negb (prefixesUnchanged declared (prefixes d)).
Proof.
  intros Hp. unfold new, createOptions. rewrite Hp.
  change (definitionChanged _ _)
    with (bind (Ok (String.eqb "JSON" (key_type d))) (fun same =>
            if negb same then Ok true
            else bind (prefixesUnchanged declared (prefixes d)) (fun same =>
                   if negb same then Ok true else Ok false))).
  cbn [bind]. destruct (String.eqb "JSON" (key_type d)); cbn [negb]; [|reflexivity].
  unfold prefixesUnchanged, comparePrefix, fmap. cbn [bind].
  destruct (_ && _); reflexivity.
Qed.

(** C7, amended.  For prefix lists without repetition, the differ compares
    the declared and the live list as unchanged exactly when they are
    equal as sets, whatever their order; on the entries of the index
    definition it then reports no change exactly when, besides, the key
    type is JSON. *)
Theorem comparePrefix_is_set_equality_without_repetition (declared live : list string) :
  NoDup declared -> NoDup live ->
  (prefixesUnchanged declared live = Ok true <-> samePrefixes declared live)
  /\ (forall o d,
        prefix o = Some (ManyPrefixes declared) -> prefixes d = live ->
        (definitionChanged (createOptions (new o)) (entriesOfDefinition d) = Ok false
         <-> key_type d = "JSON" /\ samePrefixes declared live)).
Proof.
  intros Hd Hl.
  assert (Main : prefixesUnchanged declared live = Ok true <-> samePrefixes declared live).
  { rewrite prefixesUnchanged_spec. split.
    - intros [Hlen Hincl] p. split; [apply Hincl|].
      apply (NoDup_length_incl Hd); [lia | exact Hincl].
    - intros H. split.
      + apply Nat.le_antisymm; apply NoDup_incl_length; trivial;
          intros p Hp; now apply H.
      + intros p Hp. now apply H. }
  split; [exact Main|].
  intros o d Hp <-. rewrite (definitionChanged_createOptions o declared d Hp).
  destruct (String.eqb "JSON" (key_type d)) eqn:E; cbn [negb].
  - apply String.eqb_eq in E. rewrite <- Main.
    unfold prefixesUnchanged, comparePrefix. cbn [fmap bind].
    destruct (_ && _); cbn [negb]; split;
      try (intros [_ H]); try (intros H); try discriminate; auto.
  - apply String.eqb_neq in E. split; [discriminate|]. intros [H _]. now elim E.
Qed.

(** The differ on the store of the example ([status] a TEXT field, [tag]
    a TAG field) with the prefix [doc:]: unchanged against the index that
    reports the same, changed when the type of a field differs, when the
    prefixes differ, and when a field is missing. *)
Lemma indexChanged_examples :
  let store :=
    new {| name := "idx";
           schema := schema (options QueryFacts.exampleStore);
           prefix := Some (OnePrefix "doc:") |} in
  let status kind :=
    [("identifier", VString "$.status"); ("attribute", VString "status");
     ("type", VString kind)] in
  let tag :=
    [("identifier", VString "$.tag"); ("attribute", VString "tag");
     ("type", VString "TAG")] in
  let definition ps :=
    {| key_type := "JSON"; prefixes := ps; default_score := "1" |} in
  indexChanged store
    {| attributes := [status "TEXT"; tag]; indexDefinition := definition ["doc:"] |}
  = Ok false
  /\ indexChanged store
       {| attributes := [status "NUMERIC"; tag]; indexDefinition := definition ["doc:"] |}
     = Ok true
  /\ indexChanged store
       {| attributes := [status "TEXT"; tag]; indexDefinition := definition ["user:"] |}
     = Ok true
  /\ indexChanged store
       {| attributes := [status "TEXT"]; indexDefinition := definition ["doc:"] |}
     = Ok true.
Proof. repeat split. Qed.

(** The statement at [["doc:", "user:"]] against [["user:", "doc:"]]. *)
Lemma comparePrefix_is_set_equality_without_repetition_witness :
  prefixesUnchanged ["doc:"; "user:"] ["user:"; "doc:"] = Ok true
  <-> samePrefixes ["doc:"; "user:"] ["user:"; "doc:"].
Proof.
  refine (proj1 (comparePrefix_is_set_equality_without_repetition
                   ["doc:"; "user:"] ["user:"; "doc:"] _ _)).
  - repeat constructor; simpl; intuition discriminate.
  - repeat constructor; simpl; intuition discriminate.
Defined.

End DifferFacts.


(* ===================================================================== *)
(** * The scalar parsers and the absent value *)
(* ===================================================================== *)

Module ScalarFacts.
Import JS.

(** C3, at the number 1.5.  [numberParser] writes a number in full and
    reads it back with [parseInt], which stops at the decimal point: 1.5
    is written as ["1.5"] and read back as 1.  An integer comes back
    (["42"] is read as 42, which is written as ["42"]), and a string with
    no leading digit, such as ["abc"], is refused with an error. *)
Theorem numberParser_reads_back_the_integer_part :
  serialize StringParsers.numberParser (Finite false "15" 1) = Ok "1.5"
  /\ deserialize StringParsers.numberParser "1.5" = Ok (number_of_Z 1)
  /\ number_of_Z 1 <> Finite false "15" 1
  /\ deserialize StringParsers.numberParser "42" = Ok (number_of_Z 42)
  /\ serialize StringParsers.numberParser (number_of_Z 42) = Ok "42"
  /\ deserialize StringParsers.numberParser "abc" = Throw (Error "Invalid number : abc").
Proof.
  repeat split; discriminate.
Qed.

(** The claim C2 as it is worded fails on the [objectParser] that goes
    through [recursiveSerialize]: it writes the absent value as the
    sentinel inside JSON quotes, and refuses the bare sentinel. *)
Lemma objectParser_of_utils_quotes_the_sentinel :
  serialize StringParsersUtils.objectParser VUndefined = Ok (quote "REDIS_UNDEFINED")
  /\ quote "REDIS_UNDEFINED" <> "REDIS_UNDEFINED"
  /\ deserialize StringParsersUtils.objectParser "REDIS_UNDEFINED"
     = Throw (SyntaxError "Unexpected token in JSON").
Proof.
  repeat split; discriminate.
Qed.

(** C2, amended.  The [objectParser] of string-parsers.ts that tests for
    the sentinel itself writes the absent value as exactly
    ["REDIS_UNDEFINED"] and reads that string back as the absent value,
    with no error.  The [objectParser] that goes through
    [recursiveSerialize] and [recursiveParse] writes the absent value as
    the sentinel in JSON quotes, and reads that text back as the absent
    value; below the JSON text, [recursiveSerialize] makes the sentinel
    of the absent value and [recursiveParse] the absent value of the
    sentinel. *)
Theorem objectParser_absent_value :
  serialize StringParsers.objectParser VUndefined = Ok "REDIS_UNDEFINED"
  /\ deserialize StringParsers.objectParser "REDIS_UNDEFINED" = Ok VUndefined
  /\ serialize StringParsersUtils.objectParser VUndefined = Ok (quote "REDIS_UNDEFINED")
  /\ deserialize StringParsersUtils.objectParser (quote "REDIS_UNDEFINED") = Ok VUndefined
  /\ Utils.recursiveSerialize VUndefined = Ok (VString "REDIS_UNDEFINED")
  /\ Utils.recursiveParse (VString "REDIS_UNDEFINED") = VUndefined.
Proof.
  repeat split.
Qed.

End ScalarFacts.


(* ===================================================================== *)
(** * Texts: appending, scanning, digits *)
(* ===================================================================== *)

Module TextFacts.
Import JS.

Lemma append_assoc (a b c : string) : (a ++ b) ++ c = a ++ (b ++ c).
Proof. induction a as [|x a IH]; simpl; [reflexivity | now rewrite IH]. Qed.

Lemma append_empty_r (a : string) : a ++ "" = a.
Proof. induction a as [|x a IH]; simpl; [reflexivity | now rewrite IH]. Qed.

Lemma length_append (a b : string) :
  String.length (a ++ b) = (String.length a + String.length b)%nat.
Proof. induction a as [|x a IH]; simpl; [reflexivity | now rewrite IH]. Qed.

(** The first code unit of [s], if any, does not satisfy [p]. *)
Definition stopsAt (p : ascii -> bool) (s : string) : bool :=
  match s with
  | String c _ => negb (p c)
  | EmptyString => true
  end.

Fixpoint allChars (p : ascii -> bool) (s : string) : bool :=
  match s with
  | EmptyString => true
  | String c s' => p c && allChars p s'
  end.

Lemma allDigits_allChars (s : string) : allDigits s = allChars isDigit s.
Proof. induction s as [|c s IH]; simpl; [reflexivity | now rewrite IH]. Qed.

Lemma allChars_append (p : ascii -> bool) (a b : string) :
  allChars p (a ++ b) = allChars p a && allChars p b.
Proof.
  induction a as [|x a IH]; simpl; [reflexivity|].
  now rewrite IH, andb_assoc.
Qed.

Lemma takeWhile_append (p : ascii -> bool) (a rest : string) :
  allChars p a = true -> stopsAt p rest = true -> takeWhile p (a ++ rest) = a.
Proof.
  intros Ha Hr. induction a as [|x a IH]; simpl in *.
  - destruct rest as [|c r]; [reflexivity|]. simpl in Hr |- *.
    apply negb_true_iff in Hr. now rewrite Hr.
  - apply andb_prop in Ha as [Hx Ha]. rewrite Hx. now rewrite IH.
Qed.

Lemma dropWhile_append (p : ascii -> bool) (a rest : string) :
  allChars p a = true -> stopsAt p rest = true -> dropWhile p (a ++ rest) = rest.
Proof.
  intros Ha Hr. induction a as [|x a IH]; simpl in *.
  - destruct rest as [|c r]; [reflexivity|]. simpl in Hr |- *.
    apply negb_true_iff in Hr. now rewrite Hr.
  - apply andb_prop in Ha as [Hx Ha]. rewrite Hx. now apply IH.
Qed.

Lemma dropWhile_stops (p : ascii -> bool) (s : string) :
  stopsAt p s = true -> dropWhile p s = s.
Proof.
  destruct s as [|c r]; simpl; [reflexivity|].
  intros H. apply negb_true_iff in H. now rewrite H.
Qed.

(** The ten digits. *)
Lemma isDigit_cases (c : ascii) :
  isDigit c = true ->
  c = "0"%char \/ c = "1"%char \/ c = "2"%char \/ c = "3"%char \/ c = "4"%char
  \/ c = "5"%char \/ c = "6"%char \/ c = "7"%char \/ c = "8"%char \/ c = "9"%char.
Proof.
  destruct c as [[] [] [] [] [] [] [] []]; intros H; try discriminate H; tauto.
Qed.

Lemma isDigit_digitOf (c : ascii) :
  isDigit c = true -> digitOf c = Some (N_of_ascii c - 48)%N /\ (N_of_ascii c - 48 < 10)%N.
Proof.
  intros H. destruct (isDigit_cases c H) as [->|[->|[->|[->|[->|[->|[->|[->|[->| ->]]]]]]]]];
    split; reflexivity.
Qed.

Lemma digitChar_isDigit (n : N) : isDigit (digitChar n) = true.
Proof.
  unfold digitChar.
  assert (H : (n mod 10 < 10)%N) by (apply N.mod_lt; discriminate).
  remember (n mod 10)%N as m eqn:E. clear E.
  assert (C : (m = 0 \/ m = 1 \/ m = 2 \/ m = 3 \/ m = 4 \/ m = 5 \/ m = 6 \/ m = 7
               \/ m = 8 \/ m = 9)%N) by lia.
  destruct C as [->|[->|[->|[->|[->|[->|[->|[->|[->| ->]]]]]]]]]; reflexivity.
Qed.

Lemma digitChar_value (n : N) : (N_of_ascii (digitChar n) - 48 = n mod 10)%N.
Proof.
  unfold digitChar.
  assert (H : (n mod 10 < 10)%N) by (apply N.mod_lt; discriminate).
  remember (n mod 10)%N as m eqn:E. clear E.
  assert (C : (m = 0 \/ m = 1 \/ m = 2 \/ m = 3 \/ m = 4 \/ m = 5 \/ m = 6 \/ m = 7
               \/ m = 8 \/ m = 9)%N) by lia.
  destruct C as [->|[->|[->|[->|[->|[->|[->|[->|[->| ->]]]]]]]]]; reflexivity.
Qed.

End TextFacts.

(* ===================================================================== *)
(** * Dates survive [toISOString] and [new Date] *)
(* ===================================================================== *)

Module DateFacts.
Import JS TextFacts.

(** The boolean comparisons among the hypotheses, as propositions. *)
Ltac reflect_bounds :=
  repeat match goal with
         | H : (_ <=? _)%N = true |- _ => apply N.leb_le in H
         | H : (_ <? _)%N = true |- _ => apply N.ltb_lt in H
         | H : (_ <=? _)%Z = true |- _ => apply Z.leb_le in H
         | H : (_ <? _)%Z = true |- _ => apply Z.ltb_lt in H
         | H : (_ <=? _)%Z = false |- _ => apply Z.leb_gt in H
         | H : (_ <? _)%Z = false |- _ => apply Z.ltb_ge in H
         | H : (_ && _)%bool = true |- _ => apply andb_prop in H as [? ?]
         | H : (_ && _)%bool = false |- _ => apply andb_false_iff in H
         end.

Lemma readDigits_one_more (w : nat) (acc : N) (s : string) :
  readDigits (S w) acc s
  = obind (readDigits w acc s) (fun '(a, r) => readDigits 1 a r).
Proof.
  revert acc s. induction w as [|w IH]; intros acc s.
  - reflexivity.
  - change (readDigits (S (S w)) acc s)
      with (match s with
            | String c s' =>
                if isDigit c then readDigits (S w) (10 * acc + (N_of_ascii c - 48))%N s'
                else None
            | EmptyString => None
            end).
    destruct s as [|c s']; [reflexivity|].
    destruct (isDigit c) eqn:E.
    + rewrite IH. cbn [readDigits]. now rewrite E.
    + cbn [readDigits obind]. now rewrite E.
Qed.

Lemma readDigits_pad (w : nat) (n acc : N) (rest : string) :
  (n < 10 ^ N.of_nat w)%N ->
  readDigits w acc (pad w n ++ rest) = Some (acc * 10 ^ N.of_nat w + n, rest)%N.
Proof.
  revert n acc rest. induction w as [|w IH]; intros n acc rest Hn.
  - cbn. f_equal. f_equal. change (10 ^ N.of_nat 0)%N with 1%N in Hn. lia.
  - rewrite readDigits_one_more. cbn [pad]. rewrite append_assoc.
    assert (Hpow : (10 ^ N.of_nat (S w) = 10 * 10 ^ N.of_nat w)%N).
    { rewrite Nat2N.inj_succ, N.pow_succ_r'. reflexivity. }
    rewrite Hpow in Hn.
    rewrite IH by (apply N.Div0.div_lt_upper_bound; lia).
    cbn [obind append readDigits].
    rewrite digitChar_isDigit, digitChar_value.
    f_equal. f_equal. rewrite Hpow.
    pose proof (N.div_mod n 10 ltac:(discriminate)) as D.
    lia.
Qed.

Lemma pad_head (w : nat) (n : N) (rest : string) :
  exists c t, pad (S w) n ++ rest = String c t /\ isDigit c = true.
Proof.
  revert n rest. induction w as [|w IH]; intros n rest.
  - exists (digitChar n), rest. split; [reflexivity | apply digitChar_isDigit].
  - change (pad (S (S w)) n) with (pad (S w) (n / 10) ++ String (digitChar n) "").
    rewrite append_assoc. apply IH.
Qed.

Lemma headIs_digit (c d : ascii) (t : string) :
  isDigit c = true -> isDigit d = false -> headIs d (String c t) = false.
Proof.
  intros Hc Hd. cbn [headIs]. destruct (Ascii.eqb c d) eqn:E; [|reflexivity].
  apply Ascii.eqb_eq in E. congruence.
Qed.

(** A valid Date is read back from what [toISOString] writes for it. *)
Lemma Date_of_toISOString (y : Z) (mo d h mi sec ms : N) :
  validFields y mo d h mi sec ms = true ->
  exists iso, toISOString (UTC y mo d h mi sec ms) = Ok iso
              /\ Date_of_string iso = UTC y mo d h mi sec ms.
Proof.
  intros V. eexists. split; [reflexivity|].
  pose proof V as V'. unfold validFields in V'. reflect_bounds.
  assert (Hday : (d <= 31)%N).
  { assert (daysInMonth y mo <= 31)%N.
    { unfold daysInMonth. repeat (destruct (_ =? _)%N; cbn [orb]);
        try destruct (isLeapYear y); lia. }
    lia. }
  set (rest := "-" ++ pad 2 mo ++ "-" ++ pad 2 d ++ "T" ++ pad 2 h ++ ":"
                   ++ pad 2 mi ++ ":" ++ pad 2 sec ++ "." ++ pad 3 ms ++ "Z").
  assert (Hrest : forall yr : Z,
    readAfterYear yr rest
    = if validFields yr mo d h mi sec ms then Some (UTC yr mo d h mi sec ms) else None).
  { intros yr. unfold readAfterYear, rest.
    cbn [obind expect append Ascii.eqb Bool.eqb].
    rewrite (readDigits_pad 2 mo) by (cbn; lia).
    cbn [obind expect append Ascii.eqb Bool.eqb].
    rewrite (readDigits_pad 2 d) by (cbn; lia).
    cbn [obind expect append Ascii.eqb Bool.eqb].
    rewrite (readDigits_pad 2 h) by (cbn; lia).
    cbn [obind expect append Ascii.eqb Bool.eqb].
    rewrite (readDigits_pad 2 mi) by (cbn; lia).
    cbn [obind expect append Ascii.eqb Bool.eqb].
    rewrite (readDigits_pad 2 sec) by (cbn; lia).
    cbn [obind expect append Ascii.eqb Bool.eqb].
    rewrite (readDigits_pad 3 ms) by (cbn; lia).
    cbn [obind N.mul N.add]. rewrite String.eqb_refl. reflexivity. }
  clearbody rest.
  unfold Date_of_string, readYear.
  destruct ((0 <=? y) && (y <=? 9999))%Z eqn:Ey; reflect_bounds.
  - destruct (pad_head 3 (Z.to_N y) rest) as [c [t [Et Hc]]].
    rewrite Et, (headIs_digit c "+" t Hc eq_refl), (headIs_digit c "-" t Hc eq_refl).
    rewrite <- Et.
    rewrite (readDigits_pad 4 (Z.to_N y)) by (cbn; lia).
    cbn [obind N.mul N.add].
    replace (Z.of_N (Z.to_N y)) with y by lia.
    rewrite Hrest, V. reflexivity.
  - destruct (y <? 0)%Z eqn:Eneg; reflect_bounds.
    + cbn [append headIs Ascii.eqb Bool.eqb tail substring_from].
      rewrite (readDigits_pad 6 (Z.abs_N y)) by (cbn; lia).
      cbn [obind N.mul N.add].
      destruct (Z.abs_N y =? 0)%N eqn:E0; [apply N.eqb_eq in E0; lia|].
      cbn [obind].
      replace (- Z.of_N (Z.abs_N y))%Z with y by lia.
      rewrite Hrest, V. reflexivity.
    + cbn [append headIs Ascii.eqb Bool.eqb tail substring_from].
      rewrite (readDigits_pad 6 (Z.abs_N y)) by (cbn; lia).
      cbn [obind N.mul N.add].
      replace (Z.of_N (Z.abs_N y)) with y by lia.
      rewrite Hrest, V. reflexivity.
Qed.

End DateFacts.

(* ===================================================================== *)
(** * JSON texts are read back *)
(* ===================================================================== *)

Module JsonFacts.
Import JS TextFacts.

(** ** String literals *)

Lemma parseStringBody_quoteChar (c : ascii) (text : string) :
  parseStringBody (quoteChar c ++ text)
  = obind (parseStringBody text) (fun '(str, rest) => Some (String c str, rest)).
Proof.
  destruct c as [[] [] [] [] [] [] [] []]; reflexivity.
Qed.

Lemma parseStringBody_quoteBody (s rest : string) :
  parseStringBody (quoteBody s ++ String dquote rest) = Some (s, rest).
Proof.
  induction s as [|c s IH].
  - reflexivity.
  - cbn [quoteBody]. rewrite append_assoc, parseStringBody_quoteChar, IH.
    reflexivity.
Qed.

(** ** Decimal digits *)

Lemma radixValue_step (radix acc d : N) (c : ascii) (s : string) :
  digitOf c = Some d ->
  radixValue radix acc (String c s) = radixValue radix (acc * radix + d) s.
Proof. intros H. cbn [radixValue]. now rewrite H. Qed.

Lemma radixValue_of_uint_acc (u : Decimal.uint) (acc : positive) :
  radixValue 10 (N.pos acc) (NilEmpty.string_of_uint u) = N.pos (Pos.of_uint_acc u acc).
Proof.
  revert acc. induction u; intros acc; cbn [NilEmpty.string_of_uint Pos.of_uint_acc];
    [reflexivity | ..];
    erewrite radixValue_step by (vm_compute; reflexivity);
    rewrite <- IHu; f_equal; lia.
Qed.

Lemma radixValue_of_uint (u : Decimal.uint) :
  radixValue 10 0 (NilEmpty.string_of_uint u) = Pos.of_uint u.
Proof.
  induction u; cbn [NilEmpty.string_of_uint Pos.of_uint];
    [reflexivity | ..];
    erewrite radixValue_step by (vm_compute; reflexivity);
    first [ exact IHu | apply radixValue_of_uint_acc ].
Qed.

Lemma radixValue_decimalDigits (n : N) : radixValue 10 0 (decimalDigits n) = n.
Proof.
  unfold decimalDigits. rewrite radixValue_of_uint.
  apply DecimalN.Unsigned.of_to.
Qed.

Lemma allChars_string_of_uint (u : Decimal.uint) :
  allChars isDigit (NilEmpty.string_of_uint u) = true.
Proof. induction u; cbn; auto. Qed.

Lemma allChars_decimalDigits (n : N) : allChars isDigit (decimalDigits n) = true.
Proof. apply allChars_string_of_uint. Qed.

Lemma decimalDigits_nonempty (n : N) :
  exists c t, decimalDigits n = String c t /\ isDigit c = true.
Proof.
  pose proof (allChars_decimalDigits n) as H.
  unfold decimalDigits in *.
  destruct n as [|p]; [now exists "0"%char, ""|].
  cbn [N.to_uint] in *.
  pose proof (DecimalPos.Unsigned.to_uint_nonnil p) as Hn.
  destruct (Pos.to_uint p); try (now elim Hn);
    cbn [NilEmpty.string_of_uint] in *; eexists; eexists; split; reflexivity.
Qed.

(** ** Numbers *)

(** The characters that continue a number. *)
Definition isNumberChar (c : ascii) : bool :=
  isDigit c || Ascii.eqb c "." || Ascii.eqb c "e" || Ascii.eqb c "E".

(** A text after which a number ends. *)
Definition numberEnds (rest : string) : bool := stopsAt isNumberChar rest.

Lemma numberEnds_inv (rest : string) :
  numberEnds rest = true ->
  stopsAt isDigit rest = true /\ headIs "." rest = false
  /\ headIs "e" rest = false /\ headIs "E" rest = false.
Proof.
  destruct rest as [|c r]; [now repeat split|].
  unfold numberEnds, isNumberChar. cbn [stopsAt headIs].
  intros H. apply negb_true_iff in H.
  repeat (apply orb_false_iff in H as [H ?]).
  rewrite H. now repeat split.
Qed.

Lemma length_zeros (m : nat) : String.length (zeros m) = m.
Proof. induction m; simpl; congruence. Qed.

Lemma allChars_zeros (m : nat) : allChars isDigit (zeros m) = true.
Proof. induction m; simpl; auto. Qed.

Lemma canonicalDigits_inv (ds : string) :
  canonicalDigits ds = true ->
  allChars isDigit ds = true
  /\ (exists c t, ds = String c t /\ isDigit c = true /\ Ascii.eqb c "0" = false)
  /\ (exists c, lastChar ds = Some c /\ Ascii.eqb c "0" = false).
Proof.
  unfold canonicalDigits. intros H.
  apply andb_prop in H as [H Hlast]. apply andb_prop in H as [Hall Hfirst].
  rewrite allDigits_allChars in Hall.
  split; [exact Hall|]. split.
  - destruct ds as [|c t]; [discriminate|]. exists c, t.
    simpl in Hall. apply andb_prop in Hall as [Hc _].
    apply negb_true_iff in Hfirst. auto.
  - destruct (lastChar ds) as [c|]; [|discriminate].
    exists c. apply negb_true_iff in Hlast. auto.
Qed.

Lemma stripTrailingZeros_append_zeros (a : string) (m : nat) :
  stripTrailingZeros (a ++ zeros m) = stripTrailingZeros a.
Proof.
  induction a as [|c a IH].
  - induction m as [|m IHm]; [reflexivity|].
    cbn [append zeros stripTrailingZeros] in *. rewrite IHm. reflexivity.
  - cbn [append stripTrailingZeros]. now rewrite IH.
Qed.

Lemma stripTrailingZeros_canonical (s : string) (c : ascii) :
  lastChar s = Some c -> Ascii.eqb c "0" = false -> stripTrailingZeros s = s.
Proof.
  intros Hl Hc. induction s as [|x s IH]; [discriminate|].
  cbn [stripTrailingZeros]. destruct s as [|y s'].
  - cbn [lastChar] in Hl. injection Hl as ->. cbn [stripTrailingZeros].
    now rewrite Hc.
  - rewrite IH by exact Hl. reflexivity.
Qed.

Lemma dropWhile_zeros_append (m : nat) (s : string) :
  dropWhile (Ascii.eqb "0") (zeros m ++ s) = dropWhile (Ascii.eqb "0") s.
Proof. induction m as [|m IH]; [reflexivity | exact IH]. Qed.

Lemma dropWhile_zero_head (c : ascii) (t : string) :
  Ascii.eqb c "0" = false -> dropWhile (Ascii.eqb "0") (String c t) = String c t.
Proof.
  intros H. cbn [dropWhile]. rewrite Ascii.eqb_sym. now rewrite H.
Qed.

(** What [number_of_decimal] makes of digits that are those of a canonical
    number between [z] leading and [m] trailing zeros. *)
Lemma number_of_decimal_canonical (neg : bool) (i f ds : string) (e : Z) (z m : nat) :
  canonicalDigits ds = true ->
  i ++ f = zeros z ++ ds ++ zeros m ->
  number_of_decimal neg i f e
  = Finite neg ds (e + Z.of_nat (String.length i) - Z.of_nat z).
Proof.
  intros Hc Hall.
  destruct (canonicalDigits_inv ds Hc) as [_ [[c [t [Hds [_ Hc0]]]] [l [Hl Hl0]]]].
  unfold number_of_decimal. rewrite Hall.
  rewrite dropWhile_zeros_append.
  assert (Hsig : dropWhile (Ascii.eqb "0") (ds ++ zeros m) = ds ++ zeros m).
  { rewrite Hds. cbn [append]. now apply dropWhile_zero_head. }
  rewrite Hsig.
  rewrite stripTrailingZeros_append_zeros, (stripTrailingZeros_canonical ds l Hl Hl0).
  assert (Hne : exists t', ds ++ zeros m = String c t').
  { rewrite Hds. cbn [append]. eauto. }
  destruct Hne as [t' Et]. rewrite Et at 1.
  f_equal. rewrite length_append, length_zeros. lia.
Qed.

Lemma parseFraction_none (rest : string) :
  headIs "." rest = false -> parseFraction rest = Some ("", rest).
Proof. intros H. unfold parseFraction. now rewrite H. Qed.

Lemma parseFraction_some (f rest : string) :
  f <> "" -> allChars isDigit f = true -> stopsAt isDigit rest = true ->
  parseFraction ("." ++ f ++ rest) = Some (f, rest).
Proof.
  intros Hne Hf Hr. unfold parseFraction.
  cbn [append headIs Ascii.eqb Bool.eqb tail substring_from].
  rewrite (takeWhile_append isDigit _ _ Hf Hr), (dropWhile_append isDigit _ _ Hf Hr).
  destruct f; [now elim Hne | reflexivity].
Qed.

Lemma parseExponent_none (rest : string) :
  headIs "e" rest = false -> headIs "E" rest = false -> parseExponent rest = Some (0%Z, rest).
Proof. intros H1 H2. unfold parseExponent. now rewrite H1, H2. Qed.

Lemma parseExponent_some (e : Z) (rest : string) :
  stopsAt isDigit rest = true ->
  parseExponent ("e" ++ (if (e <? 0)%Z then "-" else "+") ++ decimalDigits (Z.abs_N e) ++ rest)
  = Some (e, rest).
Proof.
  intros Hr. unfold parseExponent.
  cbn [append headIs Ascii.eqb Bool.eqb orb tail substring_from].
  pose proof (allChars_decimalDigits (Z.abs_N e)) as Hd.
  destruct (decimalDigits_nonempty (Z.abs_N e)) as [c [t [Ed _]]].
  destruct (e <? 0)%Z eqn:Es;
    cbn [append headIs Ascii.eqb Bool.eqb orb tail substring_from];
    rewrite (takeWhile_append isDigit _ _ Hd Hr), (dropWhile_append isDigit _ _ Hd Hr);
    rewrite Ed; cbv iota beta; rewrite <- Ed;
    rewrite radixValue_decimalDigits;
    f_equal; f_equal;
    [apply Z.ltb_lt in Es | apply Z.ltb_ge in Es]; lia.
Qed.

(** The integer part, then what [parseFraction] and [parseExponent] read. *)
Lemma parseMagnitude_parts (neg : bool) (c : ascii) (i f t t2 rest : string) (e : Z) :
  allChars isDigit (String c i) = true ->
  (Ascii.eqb c "0" = false \/ i = "") ->
  stopsAt isDigit t = true ->
  parseFraction t = Some (f, t2) ->
  parseExponent t2 = Some (e, rest) ->
  parseMagnitude neg (String c i ++ t)
  = Some (number_of_decimal neg (String c i) f e, rest).
Proof.
  intros Hi Hz Ht Hf He. unfold parseMagnitude.
  rewrite (takeWhile_append isDigit _ _ Hi Ht), (dropWhile_append isDigit _ _ Hi Ht).
  cbn [String.length Nat.eqb orb headIs].
  assert (Hlead : Ascii.eqb c "0" && negb (String.length i =? 0)%nat = false).
  { destruct Hz as [-> | ->]; [reflexivity|]. cbn. apply andb_false_r. }
  rewrite Hlead, Hf. cbn [obind]. rewrite He. reflexivity.
Qed.

Lemma take_substring_from (j : nat) (s : string) : take j s ++ substring_from j s = s.
Proof.
  revert s. induction j as [|j IH]; intros s; [reflexivity|].
  destruct s as [|c s]; [reflexivity|]. cbn [take substring_from append].
  now rewrite IH.
Qed.

Lemma length_take (j : nat) (s : string) :
  (j <= String.length s)%nat -> String.length (take j s) = j.
Proof.
  revert s. induction j as [|j IH]; intros s H; [reflexivity|].
  destruct s as [|c s]; simpl in *; [lia|]. rewrite IH; lia.
Qed.

Lemma allChars_take (p : ascii -> bool) (j : nat) (s : string) :
  allChars p s = true -> allChars p (take j s) = true.
Proof.
  revert s. induction j as [|j IH]; intros s H; [reflexivity|].
  destruct s as [|c s]; [reflexivity|]. simpl in *.
  apply andb_prop in H as [Hc Hs]. rewrite Hc. now apply IH.
Qed.

Lemma allChars_substring_from (p : ascii -> bool) (j : nat) (s : string) :
  allChars p s = true -> allChars p (substring_from j s) = true.
Proof.
  revert s. induction j as [|j IH]; intros s H; [exact H|].
  destruct s as [|c s]; [reflexivity|]. simpl in *.
  apply andb_prop in H as [_ Hs]. now apply IH.
Qed.

Lemma substring_from_nonempty (j : nat) (s : string) :
  (j < String.length s)%nat -> substring_from j s <> "".
Proof.
  revert s. induction j as [|j IH]; intros s H.
  - destruct s; simpl in *; [lia | discriminate].
  - destruct s as [|c s]; simpl in *; [lia|]. apply IH. lia.
Qed.

Lemma isDigit_stops (c : ascii) (t : string) :
  isDigit c = false -> stopsAt isDigit (String c t) = true.
Proof. intros H. cbn [stopsAt]. now rewrite H. Qed.

(** The text of a canonical magnitude is read back. *)
Lemma parseMagnitude_magnitudeToString (neg : bool) (ds : string) (n : Z) (rest : string) :
  canonicalDigits ds = true -> numberEnds rest = true ->
  parseMagnitude neg (magnitudeToString ds n ++ rest) = Some (Finite neg ds n, rest).
Proof.
  intros Hc Hr.
  destruct (canonicalDigits_inv ds Hc) as [Hall [[c [t [Hds [Hd Hc0]]]] _]].
  destruct (numberEnds_inv rest Hr) as [Hrd [Hr1 [Hr2 Hr3]]].
  subst ds.
  assert (Hallt : allChars isDigit t = true).
  { simpl in Hall. now apply andb_prop in Hall as [_ ?]. }
  unfold magnitudeToString.
  destruct ((Z.of_nat (String.length (String c t)) <=? n) && (n <=? 21))%Z eqn:E1.
  { (* the digits, then zeros *)
    apply andb_prop in E1 as [E1 _]. apply Z.leb_le in E1.
    set (m := Z.to_nat (n - Z.of_nat (String.length (String c t)))) in *.
    cbn [append].
    change (String c ((t ++ zeros m) ++ rest)) with (String c (t ++ zeros m) ++ rest).
    rewrite (parseMagnitude_parts neg c (t ++ zeros m) "" rest rest rest 0);
      auto using parseFraction_none, parseExponent_none.
    - f_equal. f_equal.
      rewrite (number_of_decimal_canonical neg _ "" (String c t) 0 0 m Hc).
      + f_equal. cbn [String.length] in *. rewrite length_append, length_zeros.
        subst m. lia.
      + now rewrite append_empty_r.
    - cbn [allChars]. rewrite Hd, allChars_append, Hallt, allChars_zeros. reflexivity. }
  destruct ((0 <? n) && (n <=? 21))%Z eqn:E2.
  { (* the digits around a decimal point *)
    apply andb_prop in E2 as [E2 E22]. apply Z.ltb_lt in E2. apply Z.leb_le in E22.
    apply andb_false_iff in E1.
    assert (Hlt : (Z.to_nat n < String.length (String c t))%nat).
    { destruct E1 as [E1|E1]; apply Z.leb_gt in E1; lia. }
    destruct (Z.to_nat n) as [|j] eqn:Ej; [lia|].
    cbn [take append].
    rewrite append_assoc. cbn [append].
    change (String c (take j t ++ String "." (substring_from (S j) (String c t) ++ rest)))
      with (String c (take j t) ++ "." ++ substring_from (S j) (String c t) ++ rest).
    rewrite (parseMagnitude_parts neg c (take j t)
               (substring_from (S j) (String c t)) _ rest rest 0);
      auto using parseExponent_none, isDigit_stops.
    - f_equal. f_equal.
      rewrite (number_of_decimal_canonical neg _ _ (String c t) 0 0 0 Hc).
      + f_equal. cbn [String.length] in *. rewrite length_take; lia.
      + cbn [zeros append]. rewrite append_empty_r.
        exact (take_substring_from (S j) (String c t)).
    - cbn [allChars]. rewrite Hd. now apply allChars_take.
    - apply parseFraction_some; auto.
      + now apply substring_from_nonempty.
      + now apply allChars_substring_from. }
  destruct ((-6 <? n) && (n <=? 0))%Z eqn:E3.
  { (* zeros after the decimal point, then the digits *)
    apply andb_prop in E3 as [_ E3]. apply Z.leb_le in E3.
    set (m := Z.to_nat (- n)) in *.
    cbn [append]. rewrite append_assoc.
    change (String "0" (String "." (zeros m ++ String c t ++ rest)))
      with (String "0" "" ++ "." ++ zeros m ++ String c t ++ rest).
    rewrite <- (append_assoc (zeros m) (String c t) rest).
    rewrite (parseMagnitude_parts neg "0" "" (zeros m ++ String c t) _ rest rest 0);
      auto using parseExponent_none, isDigit_stops.
    - f_equal. f_equal.
      rewrite (number_of_decimal_canonical neg _ _ (String c t) 0 (S m) 0 Hc).
      + f_equal. cbn [String.length]. subst m. lia.
      + cbn [zeros append]. now rewrite append_empty_r.
    - apply parseFraction_some; auto.
      + destruct (zeros m); discriminate.
      + now rewrite allChars_append, allChars_zeros, Hall. }
  (* the exponential notation *)
  set (sign := if (n - 1 <? 0)%Z then "-" else "+").
  assert (Hexp : parseExponent ("e" ++ sign ++ decimalDigits (Z.abs_N (n - 1)) ++ rest)
                 = Some ((n - 1)%Z, rest))
    by apply (parseExponent_some (n - 1) rest Hrd).
  destruct t as [|c2 r].
  - replace ((String c "" ++ "e" ++ sign ++ decimalDigits (Z.abs_N (n - 1))) ++ rest)
      with (String c "" ++ "e" ++ sign ++ decimalDigits (Z.abs_N (n - 1)) ++ rest)
      by (repeat (progress (rewrite ?append_assoc; cbn [append])); reflexivity).
    rewrite (parseMagnitude_parts neg c "" ""
               ("e" ++ sign ++ decimalDigits (Z.abs_N (n - 1)) ++ rest)
               ("e" ++ sign ++ decimalDigits (Z.abs_N (n - 1)) ++ rest) rest (n - 1));
      auto using isDigit_stops.
    f_equal. f_equal.
    rewrite (number_of_decimal_canonical neg _ _ (String c "") (n - 1) 0 0 Hc).
    + f_equal. cbn [String.length]. lia.
    + reflexivity.
  - replace ((String c ("." ++ String c2 r) ++ "e" ++ sign
                ++ decimalDigits (Z.abs_N (n - 1))) ++ rest)
      with (String c "" ++ "." ++ String c2 r ++ "e" ++ sign
              ++ decimalDigits (Z.abs_N (n - 1)) ++ rest)
      by (repeat (progress (rewrite ?append_assoc; cbn [append])); reflexivity).
    rewrite (parseMagnitude_parts neg c "" (String c2 r)
               ("." ++ String c2 r ++ "e" ++ sign ++ decimalDigits (Z.abs_N (n - 1)) ++ rest)
               ("e" ++ sign ++ decimalDigits (Z.abs_N (n - 1)) ++ rest) rest (n - 1));
      auto using isDigit_stops.
    + f_equal. f_equal.
      rewrite (number_of_decimal_canonical neg _ _ (String c (String c2 r)) (n - 1) 0 0 Hc).
      * f_equal. cbn [String.length]. lia.
      * cbn [zeros append]. now rewrite append_empty_r.
    + cbn [allChars]. now rewrite Hd.
    + apply parseFraction_some; auto using isDigit_stops. discriminate.
Qed.

Lemma magnitudeToString_head (ds : string) (n : Z) (rest : string) :
  canonicalDigits ds = true ->
  exists c t, magnitudeToString ds n ++ rest = String c t /\ isDigit c = true.
Proof.
  intros Hc.
  destruct (canonicalDigits_inv ds Hc) as [_ [[c [t [-> [Hd _]]]] _]].
  assert (Head : forall u, exists c' t', String c u = String c' t' /\ isDigit c' = true)
    by (intros u; exists c, u; auto).
  unfold magnitudeToString.
  destruct ((Z.of_nat (String.length (String c t)) <=? n) && (n <=? 21))%Z eqn:E1;
    [cbn [append]; apply Head|].
  destruct ((0 <? n) && (n <=? 21))%Z eqn:E2.
  { apply andb_prop in E2 as [E2 _]. apply Z.ltb_lt in E2.
    destruct (Z.to_nat n) as [|j] eqn:Ej; [lia|]. cbn [take append]. apply Head. }
  destruct ((-6 <? n) && (n <=? 0))%Z eqn:E3.
  { cbn [append]. do 2 eexists. split; reflexivity. }
  destruct t; cbn [append]; apply Head.
Qed.

(** The numbers JSON writes as numbers: zero and the canonical finite
    ones. *)
Definition finiteNumber (x : number) : bool :=
  match x with
  | Zero => true
  | Finite _ ds _ => canonicalDigits ds
  | NaN | Infinity _ => false
  end.

(** The text of a finite number is read back. *)
Lemma parseNumber_toString (x : number) (rest : string) :
  finiteNumber x = true -> numberEnds rest = true ->
  parseNumber (toString x ++ rest) = Some (x, rest).
Proof.
  intros Hx Hr. destruct x as [| |  |neg ds n]; try discriminate.
  - destruct (numberEnds_inv rest Hr) as [Hrd [Hr1 [Hr2 Hr3]]].
    unfold parseNumber. cbn [toString append headIs Ascii.eqb Bool.eqb].
    change (String "0" rest) with (String "0" "" ++ rest).
    rewrite (parseMagnitude_parts false "0" "" "" rest rest rest 0);
      auto using parseFraction_none, parseExponent_none.
  - cbn [finiteNumber] in Hx. unfold parseNumber. cbn [toString].
    destruct neg.
    + cbn [append headIs Ascii.eqb Bool.eqb tail substring_from].
      now apply parseMagnitude_magnitudeToString.
    + destruct (magnitudeToString_head ds n rest Hx) as [c [t [Et Hd]]].
      rewrite Et, (DateFacts.headIs_digit c "-" t Hd eq_refl), <- Et.
      now apply parseMagnitude_magnitudeToString.
Qed.

Lemma toString_head (x : number) (rest : string) :
  finiteNumber x = true ->
  exists c t, toString x ++ rest = String c t /\ (isDigit c = true \/ c = "-"%char).
Proof.
  intros Hx. destruct x as [| |  |neg ds n]; try discriminate.
  - exists "0"%char, rest. split; [reflexivity | now left].
  - cbn [finiteNumber toString] in *. destruct neg.
    + cbn [append]. eauto.
    + destruct (magnitudeToString_head ds n rest Hx) as [c [t [Et Hd]]]. eauto.
Qed.

(** ** Values *)

(** Induction on values, through the elements of arrays and the
    properties of objects. *)
Section ValueInduction.
Variable P : value -> Prop.
Hypothesis onUndefined : P VUndefined.
Hypothesis onNull : P VNull.
Hypothesis onBoolean : forall b, P (VBoolean b).
Hypothesis onNumber : forall x, P (VNumber x).
Hypothesis onString : forall s, P (VString s).
Hypothesis onDate : forall d, P (VDate d).
Hypothesis onArray : forall l, Forall P l -> P (VArray l).
Hypothesis onObject : forall ps, Forall (fun kv => P (snd kv)) ps -> P (VObject ps).

Fixpoint value_induction (v : value) : P v :=
  match v with
  | VUndefined => onUndefined
  | VNull => onNull
  | VBoolean b => onBoolean b
  | VNumber x => onNumber x
  | VString s => onString s
  | VDate d => onDate d
  | VArray l =>
      onArray l
        ((fix elements (l : list value) : Forall P l :=
            match l with
            | [] => Forall_nil _
            | e :: l' => Forall_cons e (value_induction e) (elements l')
            end) l)
  | VObject ps =>
      onObject ps
        ((fix properties (ps : list (string * value)) : Forall (fun kv => P (snd kv)) ps :=
            match ps with
            | [] => Forall_nil _
            | kv :: ps' => Forall_cons kv (value_induction (snd kv)) (properties ps')
            end) ps)
  end.

End ValueInduction.

(** No key occurs twice. *)
Fixpoint uniqueKeys {A : Type} (ps : list (string * A)) : bool :=
  match ps with
  | [] => true
  | (k, _) :: ps' =>
      negb (existsb (fun kv => String.eqb k (fst kv)) ps') && uniqueKeys ps'
  end.

(** The values that JSON texts denote: no [undefined], no Date, finite
    numbers, objects without a repeated key. *)
Fixpoint jsonValue (v : value) : bool :=
  match v with
  | VNull | VBoolean _ | VString _ => true
  | VNumber x => finiteNumber x
  | VArray l => forallb jsonValue l
  | VObject ps => uniqueKeys ps && forallb (fun kv => jsonValue (snd kv)) ps
  | VUndefined | VDate _ => false
  end.

(** The text [JSON.stringify] writes for a value inside an array. *)
Definition textOf (v : value) : string :=
  match stringify v with
  | Some t => t
  | None => "null"
  end.

Definition memberText (kv : string * value) : string :=
  quote (fst kv) ++ ":" ++ textOf (snd kv).

Lemma stringify_textOf (v : value) : jsonValue v = true -> stringify v = Some (textOf v).
Proof. unfold textOf. destruct v; try discriminate; reflexivity. Qed.

Lemma textOf_array (l : list value) :
  textOf (VArray l) = "[" ++ join "," (map textOf l) ++ "]".
Proof. reflexivity. Qed.

Lemma textOf_object (ps : list (string * value)) :
  forallb (fun kv => jsonValue (snd kv)) ps = true ->
  textOf (VObject ps) = "{" ++ join "," (map memberText ps) ++ "}".
Proof.
  intros H. unfold textOf. cbn [stringify]. do 3 f_equal.
  induction ps as [|[k v] ps IH]; [reflexivity|].
  cbn [forallb snd] in H. apply andb_prop in H as [Hv Hps].
  cbn [flat_map map snd fst]. rewrite (stringify_textOf v Hv), IH by exact Hps.
  reflexivity.
Qed.

(** The fuel that reading a value back takes. *)
Fixpoint weight (v : value) : nat :=
  match v with
  | VArray l => S (fold_right (fun e n => S (weight e + n)) 0 l)
  | VObject ps => S (fold_right (fun kv n => S (weight (snd kv) + n)) 0 ps)
  | _ => 1
  end.

(** The first character of the text of a value: no white space, and
    neither of the closing brackets. *)
Definition startsValue (text : string) : bool :=
  match text with
  | String c _ => negb (isJsonWs c) && negb (Ascii.eqb c "]") && negb (Ascii.eqb c "}")
  | EmptyString => false
  end.

Lemma startsValue_append (text rest : string) :
  startsValue text = true -> startsValue (text ++ rest) = true.
Proof. destruct text; [discriminate | exact (fun H => H)]. Qed.

Lemma startsValue_skipWs (text : string) :
  startsValue text = true -> skipWs text = text.
Proof.
  destruct text as [|c t]; [discriminate|]. cbn [startsValue]. intros H.
  apply andb_prop in H as [H _]. apply andb_prop in H as [H _].
  apply negb_true_iff in H. unfold skipWs. cbn [dropWhile]. now rewrite H.
Qed.

Lemma startsValue_not_closing (text : string) :
  startsValue text = true -> headIs "]" text = false /\ headIs "}" text = false.
Proof.
  destruct text as [|c t]; [discriminate|]. cbn [startsValue headIs]. intros H.
  apply andb_prop in H as [H H2]. apply andb_prop in H as [_ H1].
  apply negb_true_iff in H1, H2. auto.
Qed.

(** What the first character of a number is not. *)
Lemma numberStart_facts (c : ascii) :
  isDigit c = true \/ c = "-"%char ->
  isJsonWs c = false /\ Ascii.eqb c "[" = false /\ Ascii.eqb c "{" = false
  /\ Ascii.eqb c dquote = false /\ Ascii.eqb c "]" = false /\ Ascii.eqb c "}" = false
  /\ c <> "n"%char /\ c <> "t"%char /\ c <> "f"%char.
Proof.
  intros [H| ->].
  - destruct (isDigit_cases c H) as [->|[->|[->|[->|[->|[->|[->|[->|[->| ->]]]]]]]]];
      repeat split; discriminate.
  - repeat split; discriminate.
Qed.

Lemma startsWith_other_head (c a : ascii) (r p : string) :
  c <> a -> startsWith (String c r) (String a p) = false.
Proof.
  intros H. unfold startsWith. cbn [String.prefix].
  destruct (ascii_dec a c) as [E|_]; [now elim H | reflexivity].
Qed.

Lemma parseValue_number (fuel : nat) (c : ascii) (t : string) :
  isDigit c = true \/ c = "-"%char ->
  parseValue (S fuel) (String c t)
  = obind (parseNumber (String c t)) (fun '(x, rest) => Some (VNumber x, rest)).
Proof.
  intros H.
  destruct (numberStart_facts c H) as [Hw [H1 [H2 [H3 [_ [_ [Hn [Ht Hf]]]]]]]].
  cbn [parseValue]. unfold skipWs. cbn [dropWhile]. rewrite Hw, H1, H2, H3.
  now rewrite !startsWith_other_head.
Qed.

Lemma parseValue_string (fuel : nat) (r : string) :
  parseValue (S fuel) (String dquote r)
  = obind (parseStringBody r) (fun '(str, rest) => Some (VString str, rest)).
Proof. reflexivity. Qed.

Lemma parseValue_array (fuel : nat) (r : string) :
  parseValue (S fuel) (String "[" r)
  = if headIs "]" (skipWs r) then Some (VArray [], tail (skipWs r))
    else obind (parseElements fuel (skipWs r)) (fun '(l, rest) => Some (VArray l, rest)).
Proof. reflexivity. Qed.

Lemma parseValue_object (fuel : nat) (r : string) :
  parseValue (S fuel) (String "{" r)
  = if headIs "}" (skipWs r) then Some (VObject [], tail (skipWs r))
    else obind (parseMembers fuel (skipWs r)) (fun '(ps, rest) =>
           Some (VObject (fromEntries ps), rest)).
Proof. reflexivity. Qed.

Lemma skipWs_head (c : ascii) (x : string) :
  isJsonWs c = false -> skipWs (String c x) = String c x.
Proof. intros H. unfold skipWs. cbn [dropWhile]. now rewrite H. Qed.

(** A value whose text is read back, whatever follows that ends it. *)
Definition readBack (v : value) : Prop :=
  startsValue (textOf v) = true
  /\ forall fuel rest,
       (weight v <= fuel)%nat -> numberEnds rest = true ->
       parseValue fuel (textOf v ++ rest) = Some (v, rest).

Definition weights (l : list value) : nat :=
  fold_right (fun e n => S (weight e + n)) 0%nat l.

Definition memberWeights (ps : list (string * value)) : nat :=
  fold_right (fun kv n => S (weight (snd kv) + n)) 0%nat ps.

Lemma parseElements_join (l : list value) :
  l <> [] -> Forall readBack l ->
  forall fuel rest,
    (weights l <= fuel)%nat ->
    parseElements fuel (join "," (map textOf l) ++ String "]" rest) = Some (l, rest).
Proof.
  intros Hne Hl. induction Hl as [|e l [He1 He2] Hl IH]; [now elim Hne|].
  intros fuel rest Hf. cbn [weights fold_right] in Hf.
  destruct fuel as [|fuel]; [lia|].
  cbn [parseElements]. destruct l as [|e2 l].
  - cbn [map join]. rewrite He2; [|lia|reflexivity].
    reflexivity.
  - change (join "," (map textOf (e :: e2 :: l)))
      with (textOf e ++ "," ++ join "," (map textOf (e2 :: l))).
    rewrite !append_assoc. rewrite He2; [|lia|reflexivity].
    cbn [obind append]. rewrite skipWs_head by reflexivity.
    cbn [headIs Ascii.eqb Bool.eqb tail substring_from].
    rewrite IH; [reflexivity | discriminate|].
    change (weights (e2 :: l)) with (fold_right (fun e n => S (weight e + n)) 0%nat (e2 :: l)).
    lia.
Qed.

Lemma memberText_shape (k : string) (v : value) (rest : string) :
  memberText (k, v) ++ rest
  = String dquote (quoteBody k ++ String dquote (String ":" (textOf v ++ rest))).
Proof.
  unfold memberText, quote. cbn [fst snd append].
  rewrite !append_assoc. reflexivity.
Qed.

Lemma parseMembers_join (ps : list (string * value)) :
  ps <> [] -> Forall (fun kv => readBack (snd kv)) ps ->
  forall fuel rest,
    (memberWeights ps <= fuel)%nat ->
    parseMembers fuel (join "," (map memberText ps) ++ String "}" rest) = Some (ps, rest).
Proof.
  intros Hne Hl. induction Hl as [|[k v] ps [Hv1 Hv2] Hl IH]; [now elim Hne|].
  intros fuel rest Hf. cbn [memberWeights fold_right snd] in Hf.
  destruct fuel as [|fuel]; [lia|].
  cbn [parseMembers snd] in *. destruct ps as [|kv2 ps].
  - cbn [map join]. rewrite memberText_shape.
    rewrite skipWs_head by reflexivity.
    cbn [headIs tail substring_from]. rewrite Ascii.eqb_refl.
    rewrite parseStringBody_quoteBody. cbn [obind].
    rewrite skipWs_head by reflexivity.
    cbn [headIs Ascii.eqb Bool.eqb tail substring_from].
    rewrite Hv2; [|lia|reflexivity].
    reflexivity.
  - change (join "," (map memberText ((k, v) :: kv2 :: ps)))
      with (memberText (k, v) ++ "," ++ join "," (map memberText (kv2 :: ps))).
    rewrite append_assoc, memberText_shape.
    rewrite skipWs_head by reflexivity.
    cbn [headIs tail substring_from]. rewrite Ascii.eqb_refl.
    rewrite parseStringBody_quoteBody. cbn [obind].
    rewrite skipWs_head by reflexivity.
    cbn [headIs Ascii.eqb Bool.eqb tail substring_from].
    rewrite append_assoc. rewrite Hv2; [|lia|reflexivity].
    cbn [obind append]. rewrite skipWs_head by reflexivity.
    cbn [headIs Ascii.eqb Bool.eqb tail substring_from].
    rewrite IH; [reflexivity | discriminate|].
    change (memberWeights (kv2 :: ps))
      with (fold_right (fun kv n => S (weight (snd kv) + n)) 0%nat (kv2 :: ps)).
    lia.
Qed.

(** [Object.fromEntries] keeps a list without a repeated key as it is. *)
Lemma setProperty_fresh {A : Type} (k : string) (v : A) (acc : list (string * A)) :
  existsb (fun kv => String.eqb k (fst kv)) acc = false ->
  setProperty k v acc = (acc ++ [(k, v)])%list.
Proof.
  induction acc as [|[k' v'] acc IH]; [reflexivity|].
  cbn [existsb fst setProperty]. intros H.
  apply orb_false_iff in H as [Hk H]. rewrite Hk. cbn [List.app]. now rewrite IH.
Qed.

Lemma fold_setProperty_unique {A : Type} (ps acc : list (string * A)) :
  uniqueKeys (acc ++ ps)%list = true ->
  fold_left (fun o kv => setProperty (fst kv) (snd kv) o) ps acc = (acc ++ ps)%list.
Proof.
  revert acc. induction ps as [|[k v] ps IH]; intros acc H.
  - cbn. now rewrite app_nil_r.
  - cbn [fold_left fst snd].
    assert (Hfresh : existsb (fun kv => String.eqb k (fst kv)) acc = false).
    { clear IH. induction acc as [|[k' v'] acc IHa]; [reflexivity|].
      cbn [List.app uniqueKeys] in H. apply andb_prop in H as [Hk' H].
      cbn [existsb fst]. rewrite (IHa H), orb_false_r.
      apply negb_true_iff in Hk'. rewrite existsb_app in Hk'.
      apply orb_false_iff in Hk' as [_ Hk']. cbn [existsb fst] in Hk'.
      apply orb_false_iff in Hk' as [Hk' _]. now rewrite String.eqb_sym. }
    rewrite (setProperty_fresh k v acc Hfresh).
    rewrite IH; rewrite <- app_assoc; [reflexivity | exact H].
Qed.

Lemma fromEntries_unique {A : Type} (ps : list (string * A)) :
  uniqueKeys ps = true -> fromEntries ps = ps.
Proof. intros H. unfold fromEntries. now rewrite fold_setProperty_unique. Qed.

Lemma numberEnds_closing (rest : string) :
  numberEnds (String "]" rest) = true /\ numberEnds (String "}" rest) = true.
Proof. split; reflexivity. Qed.

Lemma parseValue_other (fuel : nat) (c : ascii) (r : string) :
  isJsonWs c = false -> Ascii.eqb c "[" = false -> Ascii.eqb c "{" = false ->
  Ascii.eqb c dquote = false ->
  parseValue (S fuel) (String c r)
  = if startsWith (String c r) "null" then Some (VNull, substring_from 4 (String c r))
    else if startsWith (String c r) "true"
         then Some (VBoolean true, substring_from 4 (String c r))
    else if startsWith (String c r) "false"
         then Some (VBoolean false, substring_from 5 (String c r))
    else obind (parseNumber (String c r)) (fun '(x, rest) => Some (VNumber x, rest)).
Proof.
  intros Hw H1 H2 H3. cbn [parseValue]. rewrite (skipWs_head c r Hw), H1, H2, H3.
  reflexivity.
Qed.

Lemma parseValue_literals (fuel : nat) (rest : string) :
  parseValue (S fuel) ("null" ++ rest) = Some (VNull, rest)
  /\ parseValue (S fuel) ("true" ++ rest) = Some (VBoolean true, rest)
  /\ parseValue (S fuel) ("false" ++ rest) = Some (VBoolean false, rest).
Proof.
  repeat split.
  - change ("null" ++ rest) with (String "n" ("ull" ++ rest)).
    rewrite parseValue_other by reflexivity.
    change (String "n" ("ull" ++ rest)) with ("null" ++ rest).
    rewrite BaseStoreFacts.startsWith_append. reflexivity.
  - change ("true" ++ rest) with (String "t" ("rue" ++ rest)).
    rewrite parseValue_other by reflexivity.
    rewrite startsWith_other_head by discriminate.
    change (String "t" ("rue" ++ rest)) with ("true" ++ rest).
    rewrite BaseStoreFacts.startsWith_append. reflexivity.
  - change ("false" ++ rest) with (String "f" ("alse" ++ rest)).
    rewrite parseValue_other by reflexivity.
    rewrite !startsWith_other_head by discriminate.
    change (String "f" ("alse" ++ rest)) with ("false" ++ rest).
    rewrite BaseStoreFacts.startsWith_append. reflexivity.
Qed.

(** Every JSON value is read back from its text. *)
Lemma jsonValue_readBack (v : value) : jsonValue v = true -> readBack v.
Proof.
  induction v as [| |b|x|s|d|l IH|ps IH] using value_induction; intros Hv;
    try discriminate Hv.
  - (* null *)
    split; [reflexivity|].
    intros [|fuel] rest Hf _; [cbn in Hf; lia | apply parseValue_literals].
  - (* booleans *)
    split; [now destruct b|].
    intros [|fuel] rest Hf _; [cbn in Hf; lia | destruct b; apply parseValue_literals].
  - (* numbers *)
    cbn [jsonValue] in Hv.
    assert (Et : textOf (VNumber x) = toString x) by (destruct x; try discriminate; reflexivity).
    unfold readBack. rewrite Et. split.
    + destruct (toString_head x "" Hv) as [c [t [Ec Hc]]].
      rewrite append_empty_r in Ec. rewrite Ec. cbn [startsValue].
      destruct (numberStart_facts c Hc) as [Hw [_ [_ [_ [H1 [H2 _]]]]]].
      now rewrite Hw, H1, H2.
    + intros [|fuel] rest Hf Hr; [cbn in Hf; lia|].
      destruct (toString_head x rest Hv) as [c [t [Ec Hc]]].
      rewrite Ec, (parseValue_number fuel c t Hc), <- Ec.
      now rewrite (parseNumber_toString x rest Hv Hr).
  - (* strings *)
    split; [reflexivity|].
    intros [|fuel] rest Hf _; [cbn in Hf; lia|].
    change (textOf (VString s)) with (quote s). unfold quote.
    cbn [append]. rewrite parseValue_string, append_assoc.
    cbn [append]. now rewrite parseStringBody_quoteBody.
  - (* arrays *)
    cbn [jsonValue] in Hv.
    assert (Hl : Forall readBack l).
    { clear -IH Hv. induction IH as [|e l He _ IHl]; [constructor|].
      cbn [forallb] in Hv. apply andb_prop in Hv as [H1 H2]. constructor; auto. }
    unfold readBack. rewrite textOf_array. split; [reflexivity|].
    intros [|fuel] rest Hf _; [cbn in Hf; lia|].
    cbn [append]. rewrite parseValue_array, append_assoc. cbn [append].
    destruct l as [|e l].
    + cbn [map join append]. rewrite skipWs_head by reflexivity. reflexivity.
    + assert (Hs : startsValue (join "," (map textOf (e :: l)) ++ String "]" rest) = true).
      { apply startsValue_append. inversion Hl as [|? ? [He _] _]; subst.
        cbn [map join]. destruct (map textOf l); [exact He|].
        now apply startsValue_append. }
      rewrite (startsValue_skipWs _ Hs).
      destruct (startsValue_not_closing _ Hs) as [-> _].
      rewrite (parseElements_join (e :: l)); [reflexivity | discriminate | exact Hl |].
      cbn [weight] in Hf. unfold weights. lia.
  - (* objects *)
    cbn [jsonValue] in Hv. apply andb_prop in Hv as [Hu Hv].
    assert (Hl : Forall (fun kv => readBack (snd kv)) ps).
    { clear -IH Hv. induction IH as [|kv ps He _ IHl]; [constructor|].
      cbn [forallb] in Hv. apply andb_prop in Hv as [H1 H2]. constructor; auto. }
    unfold readBack. rewrite (textOf_object ps Hv). split; [reflexivity|].
    intros [|fuel] rest Hf _; [cbn in Hf; lia|].
    cbn [append]. rewrite parseValue_object, append_assoc. cbn [append].
    destruct ps as [|[k v] ps].
    + cbn [map join append]. rewrite skipWs_head by reflexivity. reflexivity.
    + assert (Hs : startsValue (join "," (map memberText ((k, v) :: ps)) ++ String "}" rest)
                   = true).
      { apply startsValue_append. cbn [map join].
        destruct (map memberText ps); [reflexivity|].
        now apply startsValue_append. }
      rewrite (startsValue_skipWs _ Hs).
      destruct (startsValue_not_closing _ Hs) as [_ ->].
      rewrite (parseMembers_join ((k, v) :: ps)); [| discriminate | exact Hl |].
      * cbn [obind]. now rewrite (fromEntries_unique _ Hu).
      * cbn [weight] in Hf. unfold memberWeights. lia.
Qed.

Lemma length_join_weights (l : list value) :
  Forall (fun e => weight e <= String.length (textOf e))%nat l ->
  (weights l <= String.length (join "," (map textOf l)) + 1)%nat.
Proof.
  induction 1 as [|e l He _ IH]; [cbn; lia|].
  cbn [weights fold_right map] in *. destruct l as [|e2 l].
  - cbn [map join fold_right]. lia.
  - change (join "," (textOf e :: map textOf (e2 :: l)))
      with (textOf e ++ "," ++ join "," (map textOf (e2 :: l))).
    rewrite !length_append. unfold weights in *. cbn [String.length map] in *. lia.
Qed.

Lemma length_memberText (kv : string * value) :
  (String.length (textOf (snd kv)) + 3 <= String.length (memberText kv))%nat.
Proof.
  unfold memberText, quote.
  rewrite !length_append. cbn [String.length]. rewrite !length_append.
  cbn [String.length]. lia.
Qed.

Lemma length_join_memberWeights (ps : list (string * value)) :
  Forall (fun kv => weight (snd kv) <= String.length (textOf (snd kv)))%nat ps ->
  (memberWeights ps <= String.length (join "," (map memberText ps)) + 1)%nat.
Proof.
  induction 1 as [|kv ps He _ IH]; [cbn; lia|].
  cbn [memberWeights fold_right map] in *.
  pose proof (length_memberText kv) as Hm. destruct ps as [|kv2 ps].
  - cbn [map join fold_right]. lia.
  - change (join "," (memberText kv :: map memberText (kv2 :: ps)))
      with (memberText kv ++ "," ++ join "," (map memberText (kv2 :: ps))).
    rewrite !length_append. unfold memberWeights in *. cbn [String.length map] in *. lia.
Qed.

(** The fuel [JSON_parse] supplies is enough. *)
Lemma weight_le_length (v : value) :
  jsonValue v = true -> (weight v <= String.length (textOf v))%nat.
Proof.
  induction v as [| |b|x|s|d|l IH|ps IH] using value_induction; intros Hv;
    try discriminate Hv.
  - cbn; lia.
  - destruct b; cbn; lia.
  - destruct (jsonValue_readBack _ Hv) as [Hs _].
    destruct (textOf (VNumber x)); [discriminate | cbn; lia].
  - cbn; lia.
  - cbn [jsonValue] in Hv. rewrite textOf_array.
    assert (Hl : Forall (fun e => weight e <= String.length (textOf e))%nat l).
    { clear -IH Hv. induction IH as [|e l He _ IHl]; [constructor|].
      cbn [forallb] in Hv. apply andb_prop in Hv as [H1 H2]. constructor; auto. }
    pose proof (length_join_weights l Hl) as H.
    cbn [weight]. fold (weights l). cbn [append String.length].
    rewrite length_append. cbn [String.length]. lia.
  - cbn [jsonValue] in Hv. apply andb_prop in Hv as [_ Hv].
    rewrite (textOf_object ps Hv).
    assert (Hl : Forall (fun kv => weight (snd kv) <= String.length (textOf (snd kv)))%nat ps).
    { clear -IH Hv. induction IH as [|kv ps He _ IHl]; [constructor|].
      cbn [forallb] in Hv. apply andb_prop in Hv as [H1 H2]. constructor; auto. }
    pose proof (length_join_memberWeights ps Hl) as H.
    cbn [weight]. fold (memberWeights ps). cbn [append String.length].
    rewrite length_append. cbn [String.length]. lia.
Qed.

(** [JSON.parse(JSON.stringify(v))] is [v] for every JSON value [v]. *)
Theorem JSON_parse_stringify (v : value) :
  jsonValue v = true ->
  stringify v = Some (textOf v) /\ JSON_parse (textOf v) = Ok v.
Proof.
  intros Hv. split; [now apply stringify_textOf|].
  destruct (jsonValue_readBack v Hv) as [_ Hread].
  pose proof (weight_le_length v Hv) as Hw.
  unfold JSON_parse.
  specialize (Hread (S (String.length (textOf v))) "" ltac:(lia) eq_refl).
  rewrite append_empty_r in Hread. rewrite Hread. reflexivity.
Qed.

End JsonFacts.

(* ===================================================================== *)
(** * The object parsers hand values back *)
(* ===================================================================== *)

Module ObjectParserFacts.
Import JS TextFacts JsonFacts TraversalFacts.

(** What comes back from a parser for what was handed to it. *)
Definition roundTrip {T : Type} (parser : StringParser T) (v : T) : result T :=
  bind (serialize parser v) (deserialize parser).

Definition validInstant (d : Date) : bool :=
  match d with
  | UTC y mo d h mi sec ms => validFields y mo d h mi sec ms
  | InvalidDate => false
  end.

(** The values that survive the walk of [recursiveSerialize] and
    [recursiveParse]: no string that is the sentinel of the absent value
    or starts with the prefix of dates, finite numbers, valid Dates,
    objects without a repeated key. *)
Fixpoint survivesWalk (v : value) : bool :=
  match v with
  | VUndefined | VNull | VBoolean _ => true
  | VNumber x => finiteNumber x
  | VString s =>
      negb (String.eqb s Utils.REDIS_UNDEFINED) && negb (startsWith s Utils.REDIS_DATE)
  | VDate d => validInstant d
  | VArray l => forallb survivesWalk l
  | VObject ps => uniqueKeys ps && forallb (fun kv => survivesWalk (snd kv)) ps
  end.

(** The values that survive [recursiveReplace] and the reviver: as above,
    but a string may be the sentinel of the absent value, and no
    [undefined] may occur. *)
Fixpoint survivesReviver (v : value) : bool :=
  match v with
  | VUndefined => false
  | VNull | VBoolean _ => true
  | VNumber x => finiteNumber x
  | VString s => negb (startsWith s "REDIS_DATE:")
  | VDate d => validInstant d
  | VArray l => forallb survivesReviver l
  | VObject ps => uniqueKeys ps && forallb (fun kv => survivesReviver (snd kv)) ps
  end.

(** [{a: [1, undefined, new Date(0)]}] *)
Definition nestedExample : value :=
  VObject [("a", VArray [VNumber (number_of_Z 1); VUndefined; VDate epoch])].

Lemma uniqueKeys_same_keys {A B : Type} (ps : list (string * A)) (qs : list (string * B)) :
  map fst ps = map fst qs -> uniqueKeys ps = uniqueKeys qs.
Proof.
  revert qs. induction ps as [|[k a] ps IH]; intros [|[k' b] qs] H; try discriminate.
  - reflexivity.
  - cbn [map fst] in H. injection H as -> H. cbn [uniqueKeys].
    rewrite (IH qs H). f_equal. f_equal.
    clear IH. revert qs H. induction ps as [|[k1 a1] ps IHp]; intros [|[k2 b2] qs] H;
      try discriminate; [reflexivity|].
    cbn [map fst] in H. injection H as -> H. cbn [existsb fst]. now rewrite (IHp qs H).
Qed.

Lemma sentinel_of_date (iso : string) :
  String.eqb (Utils.REDIS_DATE ++ iso) Utils.REDIS_UNDEFINED = false.
Proof. reflexivity. Qed.

Section Walk.

(** What [recursiveSerialize] makes of a value: a JSON value from which
    [recursiveParse] makes the value again. *)
Definition serializedBy (v j : value) : Prop :=
  jsonValue j = true /\ Utils.recursiveParse j = v.

Lemma recursiveSerialize_survivesWalk (v : value) :
  survivesWalk v = true -> exists j, Utils.recursiveSerialize v = Ok j /\ serializedBy v j.
Proof.
  induction v as [| |b|x|s|d|l IH|ps IH] using value_induction; intros Hv.
  - exists (VString Utils.REDIS_UNDEFINED). now repeat split.
  - exists VNull. now repeat split.
  - exists (VBoolean b). now repeat split.
  - exists (VNumber x). now repeat split.
  - exists (VString s). cbn [survivesWalk] in Hv.
    apply andb_prop in Hv as [H1 H2]. apply negb_true_iff in H1, H2.
    repeat split. cbn [Utils.recursiveParse]. now rewrite H1, H2.
  - destruct d as [|y mo dd h mi sec ms]; [discriminate|].
    cbn [survivesWalk validInstant] in Hv.
    destruct (DateFacts.Date_of_toISOString y mo dd h mi sec ms Hv) as [iso [Hiso Hback]].
    exists (VString (Utils.REDIS_DATE ++ iso)).
    cbn [Utils.recursiveSerialize]. rewrite Hiso. cbn [bind].
    repeat split. cbn [Utils.recursiveParse].
    rewrite sentinel_of_date, BaseStoreFacts.startsWith_append,
      BaseStoreFacts.substring_from_append, Hback.
    reflexivity.
  - cbn [survivesWalk] in Hv.
    pose proof (Forall_forallb_impl _ _ _ IH Hv) as Hl.
    destruct (mapM_Forall2 Utils.recursiveSerialize serializedBy l Hl) as [js [Hjs Hrel]].
    exists (VArray js). cbn [Utils.recursiveSerialize]. rewrite Hjs.
    split; [reflexivity|]. split.
    + cbn [jsonValue]. clear -Hrel.
      induction Hrel as [|e j l js [Hj _] _ IHr]; [reflexivity|].
      cbn [forallb]. now rewrite Hj, IHr.
    + cbn [Utils.recursiveParse]. f_equal. clear -Hrel.
      induction Hrel as [|e j l js [_ Hj] _ IHr]; [reflexivity|].
      cbn [map]. now rewrite Hj, IHr.
  - cbn [survivesWalk] in Hv. apply andb_prop in Hv as [Hu Hv].
    pose proof (Forall_forallb_impl (fun kv => survivesWalk (snd kv)) _ _ IH Hv) as Hl.
    destruct (mapM_Forall2
                (fun kv => bind (Utils.recursiveSerialize (snd kv)) (fun v' => Ok (fst kv, v')))
                (fun kv kj => fst kj = fst kv /\ serializedBy (snd kv) (snd kj)) ps)
      as [entries [He Hrel]].
    { revert Hl. apply Forall_impl. intros [k v] [j [Hj Hs]]. exists (k, j).
      cbn [fst snd] in *. rewrite Hj. cbn [bind].
      split; [reflexivity|]. split; [reflexivity | exact Hs]. }
    assert (Hkeys : map fst entries = map fst ps).
    { clear -Hrel. induction Hrel as [|kv kj ps es [Hk _] _ IHr]; [reflexivity|].
      cbn [map]. now rewrite Hk, IHr. }
    assert (Hue : uniqueKeys entries = true)
      by now rewrite (uniqueKeys_same_keys entries ps Hkeys).
    exists (VObject entries). cbn [Utils.recursiveSerialize]. rewrite He.
    cbn [fmap bind]. rewrite (fromEntries_unique entries Hue).
    split; [reflexivity|]. split.
    + cbn [jsonValue]. rewrite Hue. cbn [andb]. clear -Hrel.
      induction Hrel as [|kv kj ps es [_ [Hj _]] _ IHr]; [reflexivity|].
      cbn [forallb]. now rewrite Hj, IHr.
    + cbn [Utils.recursiveParse].
      assert (Hmap : map (fun kv => (fst kv, Utils.recursiveParse (snd kv))) entries = ps).
      { clear -Hrel. induction Hrel as [|[k v] [k' j] ps es [Hk [_ Hj]] _ IHr]; [reflexivity|].
        cbn [map fst snd] in *. now rewrite Hk, Hj, IHr. }
      rewrite Hmap. now rewrite (fromEntries_unique ps Hu).
Qed.

(** The [objectParser] built on [recursiveSerialize] and [recursiveParse]
    hands back every value that survives the walk. *)
Lemma objectParser_of_utils_round_trip (v : value) :
  survivesWalk v = true -> roundTrip StringParsersUtils.objectParser v = Ok v.
Proof.
  intros Hv.
  destruct (recursiveSerialize_survivesWalk v Hv) as [j [Hj [Hjson Hback]]].
  destruct (JSON_parse_stringify j Hjson) as [Hs Hp].
  unfold roundTrip. cbn [serialize deserialize StringParsersUtils.objectParser].
  rewrite Hj. cbn [bind]. unfold stringified. rewrite Hs. cbn [bind].
  rewrite Hp. cbn [fmap bind]. now rewrite Hback.
Qed.

End Walk.

Section Reviver.
Import StringParsers.

(** What [recursiveReplace] makes of a value: a JSON value from which the
    walk of the reviver makes the value again, under any key. *)
Definition replacedBy (v j : value) : Prop :=
  jsonValue j = true /\ forall key, internalize reviver key j = v.

Lemma survivesReviver_defined (v : value) (k : string) :
  survivesReviver v = true -> revivedProperty k v = [(k, v)].
Proof. destruct v; [discriminate | reflexivity ..]. Qed.

Lemma recursiveReplace_survivesReviver (v : value) :
  survivesReviver v = true -> exists j, recursiveReplace v = Ok j /\ replacedBy v j.
Proof.
  induction v as [| |b|x|s|d|l IH|ps IH] using value_induction; intros Hv.
  - discriminate.
  - exists VNull. now repeat split.
  - exists (VBoolean b). now repeat split.
  - exists (VNumber x). now repeat split.
  - exists (VString s). cbn [survivesReviver] in Hv. apply negb_true_iff in Hv.
    repeat split. intros key. cbn [internalize reviver]. now rewrite Hv.
  - destruct d as [|y mo dd h mi sec ms]; [discriminate|].
    cbn [survivesReviver validInstant] in Hv.
    destruct (DateFacts.Date_of_toISOString y mo dd h mi sec ms Hv) as [iso [Hiso Hback]].
    exists (VString ("REDIS_DATE:" ++ iso)).
    cbn [recursiveReplace]. rewrite Hiso. cbn [bind].
    repeat split. intros key. cbn [internalize reviver].
    rewrite BaseStoreFacts.startsWith_append,
      BaseStoreFacts.substring_from_append, Hback.
    reflexivity.
  - cbn [survivesReviver] in Hv.
    pose proof (Forall_forallb_impl _ _ _ IH Hv) as Hl.
    destruct (mapM_Forall2 recursiveReplace replacedBy l Hl) as [js [Hjs Hrel]].
    exists (VArray js). cbn [recursiveReplace]. rewrite Hjs.
    split; [reflexivity|]. split.
    + cbn [jsonValue]. clear -Hrel.
      induction Hrel as [|e j l js [Hj _] _ IHr]; [reflexivity|].
      cbn [forallb]. now rewrite Hj, IHr.
    + intros key. cbn [internalize reviver]. f_equal. clear -Hrel.
      generalize 0%N as i.
      induction Hrel as [|e j l js [_ Hj] _ IHr]; intros i; [reflexivity|].
      cbn [mapIndexed]. now rewrite Hj, IHr.
  - cbn [survivesReviver] in Hv. apply andb_prop in Hv as [Hu Hv].
    pose proof (Forall_forallb_impl (fun kv => survivesReviver (snd kv)) _ _ IH Hv) as Hl.
    destruct (mapM_Forall2
                (fun kv => bind (recursiveReplace (snd kv)) (fun v' => Ok (fst kv, v')))
                (fun kv kj => fst kj = fst kv /\ replacedBy (snd kv) (snd kj)) ps)
      as [entries [He Hrel]].
    { revert Hl. apply Forall_impl. intros [k v] [j [Hj Hs]]. exists (k, j).
      cbn [fst snd] in *. rewrite Hj. cbn [bind].
      split; [reflexivity|]. split; [reflexivity | exact Hs]. }
    assert (Hkeys : map fst entries = map fst ps).
    { clear -Hrel. induction Hrel as [|kv kj ps es [Hk _] _ IHr]; [reflexivity|].
      cbn [map]. now rewrite Hk, IHr. }
    assert (Hue : uniqueKeys entries = true)
      by now rewrite (uniqueKeys_same_keys entries ps Hkeys).
    exists (VObject entries). cbn [recursiveReplace]. rewrite He.
    cbn [fmap bind]. rewrite (fromEntries_unique entries Hue).
    split; [reflexivity|]. split.
    + cbn [jsonValue]. rewrite Hue. cbn [andb]. clear -Hrel.
      induction Hrel as [|kv kj ps es [_ [Hj _]] _ IHr]; [reflexivity|].
      cbn [forallb]. now rewrite Hj, IHr.
    + intros key. cbn [internalize reviver]. f_equal. clear -Hrel Hv.
      induction Hrel as [|[k v] [k' j] ps es [Hk [_ Hj]] _ IHr]; [reflexivity|].
      cbn [forallb snd] in Hv. apply andb_prop in Hv as [Hv1 Hv2].
      cbn [flat_map fst snd] in *. subst k'.
      rewrite Hj, (survivesReviver_defined v k Hv1), (IHr Hv2). reflexivity.
Qed.

(** The text of a JSON value is never the bare sentinel. *)
Lemma textOf_not_sentinel (j : value) :
  jsonValue j = true -> String.eqb (textOf j) "REDIS_UNDEFINED" = false.
Proof.
  intros Hj. destruct j as [| |b|x|s|d|l|ps]; try discriminate Hj; try reflexivity.
  - now destruct b.
  - cbn [jsonValue] in Hj.
    assert (Et : textOf (VNumber x) = toString x) by (destruct x; try discriminate; reflexivity).
    destruct (toString_head x "" Hj) as [c [t [Ec Hc]]].
    rewrite append_empty_r in Ec. rewrite Et, Ec. cbn [String.eqb].
    destruct Hc as [Hc| ->]; [|reflexivity].
    destruct (isDigit_cases c Hc) as [->|[->|[->|[->|[->|[->|[->|[->|[->| ->]]]]]]]]];
      reflexivity.
Qed.

(** The [objectParser] with the reviver hands back the absent value and
    every value that survives the reviver. *)
Lemma objectParser_round_trip_reviver (v : value) :
  v = VUndefined \/ survivesReviver v = true ->
  roundTrip objectParser v = Ok v.
Proof.
  intros [-> | Hv]; [reflexivity|].
  destruct (recursiveReplace_survivesReviver v Hv) as [j [Hj [Hjson Hback]]].
  destruct (JSON_parse_stringify j Hjson) as [Hs Hp].
  assert (Hser : serialize objectParser v = bind (recursiveReplace v) stringified)
    by (destruct v; [discriminate Hv | reflexivity ..]).
  unfold roundTrip. rewrite Hser, Hj. cbn [bind]. unfold stringified. rewrite Hs.
  cbn [bind deserialize objectParser].
  rewrite (textOf_not_sentinel j Hjson). unfold JSON_parse_with.
  rewrite Hp. cbn [fmap bind]. now rewrite Hback.
Qed.

End Reviver.

(** The claim C1 as it is worded fails on a string that starts with the
    prefix of dates: it is not the sentinel of the absent value, and both
    parsers hand back a Date for it.  A number that is not finite comes
    back as [null], and the parser with the reviver hands back [null] for
    the [undefined] inside the array of the example. *)
Lemma objectParser_string_with_date_prefix :
  roundTrip StringParsersUtils.objectParser (VString "REDIS_DATE:x") = Ok (VDate InvalidDate)
  /\ roundTrip StringParsers.objectParser (VString "REDIS_DATE:x") = Ok (VDate InvalidDate)
  /\ VString "REDIS_DATE:x" <> VString "REDIS_UNDEFINED"
  /\ roundTrip StringParsersUtils.objectParser (VNumber NaN) = Ok VNull
  /\ roundTrip StringParsers.objectParser nestedExample
     = Ok (VObject [("a", VArray [VNumber (number_of_Z 1); VNull; VDate epoch])]).
Proof.
  repeat split; try discriminate; vm_compute; reflexivity.
Qed.

(** C1, amended.  The [objectParser] that goes through [recursiveSerialize]
    and [recursiveParse] hands back every Serializable Value in which no
    string is the sentinel of the absent value or starts with the prefix
    of dates, every number is finite, every Date is valid and no object
    repeats a key: [deserialize(serialize(v))] is [v], the absent value and
    Dates restored at any depth, as in [{a: [1, undefined, new Date(0)]}].
    The [objectParser] with the reviver hands back the absent value
    itself, and every such value in which [undefined] does not occur (a
    string may then be the sentinel). *)
Theorem objectParser_round_trip (v : value) :
  (survivesWalk v = true -> roundTrip StringParsersUtils.objectParser v = Ok v)
  /\ (v = VUndefined \/ survivesReviver v = true ->
      roundTrip StringParsers.objectParser v = Ok v)
  /\ roundTrip StringParsersUtils.objectParser nestedExample = Ok nestedExample.
Proof.
  split; [apply objectParser_of_utils_round_trip|].
  split; [apply objectParser_round_trip_reviver|].
  now apply objectParser_of_utils_round_trip.
Qed.

(** The statement at [{a: [1, undefined, new Date(0)]}] for the first
    parser, and at [{a: [1, "REDIS_UNDEFINED", new Date(0)]}] for the
    second. *)
Lemma objectParser_round_trip_witness :
  roundTrip StringParsersUtils.objectParser nestedExample = Ok nestedExample
  /\ roundTrip StringParsers.objectParser
       (VObject [("a", VArray [VNumber (number_of_Z 1); VString "REDIS_UNDEFINED";
                               VDate epoch])])
     = Ok (VObject [("a", VArray [VNumber (number_of_Z 1); VString "REDIS_UNDEFINED";
                                  VDate epoch])]).
Proof.
  split.
  - exact (proj1 (objectParser_round_trip nestedExample) eq_refl).
  - exact (proj1 (proj2 (objectParser_round_trip
                           (VObject [("a", VArray [VNumber (number_of_Z 1);
                                                   VString "REDIS_UNDEFINED";
                                                   VDate epoch])])))
             (or_intror eq_refl)).
Defined.

End ObjectParserFacts.

(* ===================================================================== *)
(** * The number parser on integers *)
(* ===================================================================== *)

Module NumberParserFacts.
Import JS TextFacts JsonFacts ObjectParserFacts.

Lemma stripTrailingZeros_restore (s : string) :
  stripTrailingZeros s
    ++ zeros (String.length s - String.length (stripTrailingZeros s))
  = s.
Proof.
  induction s as [|c s IH]; [reflexivity|].
  cbn [stripTrailingZeros]. destruct (stripTrailingZeros s) as [|d t] eqn:E.
  - cbn [append String.length] in IH. rewrite Nat.sub_0_r in IH.
    destruct (Ascii.eqb c "0") eqn:Ec.
    + apply Ascii.eqb_eq in Ec. subst c. cbn [append String.length zeros Nat.sub].
      now rewrite IH.
    + cbn [append String.length Nat.sub]. rewrite Nat.sub_0_r. now rewrite IH.
  - cbn [append String.length Nat.sub] in *. now rewrite IH.
Qed.

Lemma length_stripTrailingZeros (s : string) :
  (String.length (stripTrailingZeros s) <= String.length s)%nat.
Proof.
  pose proof (f_equal String.length (stripTrailingZeros_restore s)) as H.
  rewrite length_append, length_zeros in H. lia.
Qed.

(** An integer of at most 21 digits is written as its digits. *)
Lemma magnitudeToString_integer (ds : string) :
  (String.length ds <= 21)%nat ->
  magnitudeToString (stripTrailingZeros ds) (Z.of_nat (String.length ds)) = ds.
Proof.
  intros H. pose proof (length_stripTrailingZeros ds) as Hk.
  unfold magnitudeToString.
  assert (E : ((Z.of_nat (String.length (stripTrailingZeros ds))
                <=? Z.of_nat (String.length ds))
               && (Z.of_nat (String.length ds) <=? 21))%Z = true).
  { apply andb_true_intro. split; apply Z.leb_le; lia. }
  rewrite E.
  replace (Z.to_nat (Z.of_nat (String.length ds)
                     - Z.of_nat (String.length (stripTrailingZeros ds))))
    with (String.length ds - String.length (stripTrailingZeros ds))%nat by lia.
  apply stripTrailingZeros_restore.
Qed.

Lemma isDigit_isRadixDigit (c : ascii) : isDigit c = true -> isRadixDigit 10 c = true.
Proof.
  intros H. unfold isRadixDigit. destruct (isDigit_digitOf c H) as [-> Hlt].
  now apply N.ltb_lt.
Qed.

Lemma allChars_impl (p q : ascii -> bool) (s : string) :
  (forall c, p c = true -> q c = true) -> allChars p s = true -> allChars q s = true.
Proof.
  intros Hpq. induction s as [|c s IH]; [reflexivity|]. cbn [allChars]. intros H.
  apply andb_prop in H as [Hc Hs]. now rewrite (Hpq c Hc), (IH Hs).
Qed.

Lemma digits_are_not_hexadecimal (s : string) :
  allChars isDigit s = true -> startsWith s "0x" || startsWith s "0X" = false.
Proof.
  intros H. destruct s as [|c [|d t]]; [reflexivity| |].
  - unfold startsWith. cbn [String.prefix]. now destruct (ascii_dec "0" c).
  - cbn [allChars] in H. apply andb_prop in H as [_ H]. apply andb_prop in H as [Hd _].
    unfold startsWith. cbn [String.prefix].
    destruct (ascii_dec "0" c); [|reflexivity].
    destruct (ascii_dec "x" d) as [<-|_]; [discriminate|].
    destruct (ascii_dec "X" d) as [<-|_]; [discriminate | reflexivity].
Qed.

Lemma digit_not_space (c : ascii) : isDigit c = true -> isWhiteSpace c = false.
Proof.
  intros H.
  destruct (isDigit_cases c H) as [->|[->|[->|[->|[->|[->|[->|[->|[->| ->]]]]]]]]];
    reflexivity.
Qed.

(** [parseInt] on a run of digits, signed or not. *)
Lemma parseIntAfterSign_digits (negative : bool) (c : ascii) (t : string) :
  allChars isDigit (String c t) = true ->
  parseIntAfterSign negative (String c t)
  = number_of_Z (if negative then - Z.of_N (radixValue 10 0 (String c t))
                 else Z.of_N (radixValue 10 0 (String c t)))%Z.
Proof.
  intros H. unfold parseIntAfterSign. rewrite (digits_are_not_hexadecimal _ H).
  rewrite <- (append_empty_r (String c t)) at 1.
  rewrite takeWhile_append;
    [reflexivity | exact (allChars_impl _ _ _ isDigit_isRadixDigit H) | reflexivity].
Qed.

Lemma parseInt_digits (neg : bool) (c : ascii) (t : string) :
  allChars isDigit (String c t) = true ->
  parseInt (if neg then String "-" (String c t) else String c t)
  = number_of_Z (if neg then - Z.of_N (radixValue 10 0 (String c t))
                 else Z.of_N (radixValue 10 0 (String c t)))%Z.
Proof.
  intros H. pose proof H as Hc. cbn [allChars] in Hc. apply andb_prop in Hc as [Hc _].
  unfold parseInt. destruct neg.
  - cbn [trimStart]. change (isWhiteSpace "-") with false. cbv iota.
    cbn [headIs orb tail substring_from Ascii.eqb Bool.eqb].
    now apply parseIntAfterSign_digits.
  - cbn [trimStart]. rewrite (digit_not_space c Hc).
    rewrite (DateFacts.headIs_digit c "-" t Hc eq_refl),
      (DateFacts.headIs_digit c "+" t Hc eq_refl).
    cbn [orb]. now apply parseIntAfterSign_digits.
Qed.

(** X3.  [numberParser] hands back every integer of at most 21 digits: those
    that [toString] writes without an exponent. *)
Lemma numberParser_round_trips_integers (z : Z) :
  (String.length (decimalDigits (Z.abs_N z)) <= 21)%nat ->
  roundTrip StringParsers.numberParser (number_of_Z z) = Ok (number_of_Z z).
Proof.
  intros H. destruct z as [|p|p]; [reflexivity | |];
    cbn [Z.abs_N] in H;
    pose proof (allChars_decimalDigits (N.pos p)) as Hd;
    destruct (decimalDigits_nonempty (N.pos p)) as [c [t [Ed _]]];
    unfold roundTrip;
    cbn [serialize deserialize StringParsers.numberParser number_of_Z Z.abs_N Z.ltb
           Z.compare toString bind];
    rewrite (magnitudeToString_integer _ H).
  - rewrite Ed in *. rewrite (parseInt_digits false c t Hd). rewrite <- Ed.
    rewrite radixValue_decimalDigits. reflexivity.
  - cbn [append]. rewrite Ed in *. rewrite (parseInt_digits true c t Hd). rewrite <- Ed.
    rewrite radixValue_decimalDigits. reflexivity.
Qed.

End NumberParserFacts.


(* ===================================================================== *)
(** * The scalar parsers on every text *)
(* ===================================================================== *)

Module ScalarParserFacts.
Import JS TextFacts JsonFacts ObjectParserFacts NumberParserFacts.

(** What a parser writes for what it read. *)
Definition rewritten {T : Type} (parser : StringParser T) (text : string) : result string :=
  bind (deserialize parser text) (serialize parser).

(** X1.  [booleanParser] hands back both booleans; it reads every text, as
    [true] exactly when the text is ["true"], so that the only texts it
    writes back as they were are ["true"] and ["false"]. *)
Theorem booleanParser_reads_every_text (text : string) :
  (forall b : bool, roundTrip StringParsers.booleanParser b = Ok b)
  /\ (exists b : bool,
        deserialize StringParsers.booleanParser text = Ok b
        /\ (b = true <-> text = "true"))
  /\ (rewritten StringParsers.booleanParser text = Ok text
      <-> text = "true" \/ text = "false").
Proof.
  split; [intros []; reflexivity|]. split.
  - exists (String.eqb text "true"). split; [reflexivity | apply String.eqb_eq].
  - unfold rewritten. cbn [deserialize serialize StringParsers.booleanParser bind].
    destruct (String.eqb text "true") eqn:E.
    + apply String.eqb_eq in E. subst text. split; auto.
    + apply String.eqb_neq in E. split.
      * intros H. injection H as H. now right.
      * intros [H|H]; [now elim E | now subst text].
Qed.





(** [numberParser_round_trips_integers] at -1234567890123. *)
Lemma numberParser_round_trips_integers_witness :
  roundTrip StringParsers.numberParser (number_of_Z (-1234567890123))
  = Ok (number_of_Z (-1234567890123)).
Proof.
  apply (numberParser_round_trips_integers (-1234567890123)). vm_compute. lia.
Defined.

End ScalarParserFacts.

(* ===================================================================== *)
(** * The walks of utils.ts on every value *)
(* ===================================================================== *)

Module WalkFacts.
Import JS TextFacts JsonFacts TraversalFacts ObjectParserFacts.

(** An Invalid Date, at any depth. *)
Fixpoint holdsInvalidDate (v : value) : bool :=
  match v with
  | VDate InvalidDate => true
  | VArray l => existsb holdsInvalidDate l
  | VObject ps => existsb (fun kv => holdsInvalidDate (snd kv)) ps
  | _ => false
  end.

(** The values with neither [undefined] nor a Date at any depth, and
    without a repeated key in an object: what a JSON document can hold,
    but for numbers that are not finite. *)
Fixpoint storable (j : value) : bool :=
  match j with
  | VUndefined | VDate _ => false
  | VArray l => forallb storable l
  | VObject ps => uniqueKeys ps && forallb (fun kv => storable (snd kv)) ps
  | _ => true
  end.

(** The values that the walk of [recursiveParse] restores from what
    [recursiveSerialize] made of them: no string that is the sentinel of
    the absent value or starts with the prefix of dates, valid Dates,
    objects without a repeated key; any number. *)
Fixpoint restoredByWalk (v : value) : bool :=
  match v with
  | VString s =>
      negb (String.eqb s Utils.REDIS_UNDEFINED) && negb (startsWith s Utils.REDIS_DATE)
  | VDate d => validInstant d
  | VArray l => forallb restoredByWalk l
  | VObject ps => uniqueKeys ps && forallb (fun kv => restoredByWalk (snd kv)) ps
  | _ => true
  end.

(** The numbers of the model that stand for a number: the digits of a
    finite one are those of the shortest decimal that identifies it. *)
Definition properNumber (x : number) : bool :=
  match x with
  | Finite _ ds _ => canonicalDigits ds
  | _ => true
  end.

Fixpoint properNumbers (v : value) : bool :=
  match v with
  | VNumber x => properNumber x
  | VArray l => forallb properNumbers l
  | VObject ps => forallb (fun kv => properNumbers (snd kv)) ps
  | _ => true
  end.

(** What [JSON.stringify] makes of a number that is not finite. *)
Fixpoint nullified (j : value) : value :=
  match j with
  | VNumber NaN | VNumber (Infinity _) => VNull
  | VArray l => VArray (map nullified l)
  | VObject ps => VObject (map (fun kv => (fst kv, nullified (snd kv))) ps)
  | _ => j
  end.

Lemma mapM_failure_or_all {A B : Type} (f : A -> result B) (bad : A -> bool) (e : exn)
  (R : A -> B -> Prop) (l : list A) :
  Forall (fun x => if bad x then f x = Throw e else exists y, f x = Ok y /\ R x y) l ->
  if existsb bad l then mapM f l = Throw e
  else exists ys, mapM f l = Ok ys /\ Forall2 R l ys.
Proof.
  induction 1 as [|x l Hx _ IH]; cbn [existsb mapM].
  - exists []. split; [reflexivity | constructor].
  - destruct (bad x); cbn [orb].
    + now rewrite Hx.
    + destruct Hx as [y [-> Hy]]. cbn [bind].
      destruct (existsb bad l).
      * now rewrite IH.
      * destruct IH as [ys [-> Hys]]. exists (y :: ys).
        split; [reflexivity | now constructor].
Qed.

Lemma Forall2_Forall_r {A B : Type} (R : A -> B -> Prop) (P : A -> Prop) (Q : B -> Prop)
  (l : list A) (ys : list B) :
  (forall x y, R x y -> P x -> Q y) -> Forall2 R l ys -> Forall P l -> Forall Q ys.
Proof.
  intros H. induction 1 as [|x y l ys Hxy _ IH]; intros Hl; [constructor|].
  inversion Hl; subst. constructor; eauto.
Qed.

Lemma existsb_setProperty {A : Type} (k k' : string) (v : A) (o : list (string * A)) :
  String.eqb k' k = false ->
  existsb (fun kv => String.eqb k' (fst kv)) (setProperty k v o)
  = existsb (fun kv => String.eqb k' (fst kv)) o.
Proof.
  intros Hk. induction o as [|[k0 v0] o IH]; cbn [setProperty existsb fst].
  - now rewrite Hk.
  - destruct (String.eqb k k0); cbn [existsb fst]; [reflexivity | now rewrite IH].
Qed.

Lemma uniqueKeys_setProperty {A : Type} (k : string) (v : A) (o : list (string * A)) :
  uniqueKeys o = true -> uniqueKeys (setProperty k v o) = true.
Proof.
  induction o as [|[k0 v0] o IH]; [reflexivity|].
  cbn [uniqueKeys setProperty]. intros H. apply andb_prop in H as [H0 H].
  destruct (String.eqb k k0) eqn:E; cbn [uniqueKeys].
  - now rewrite H0, H.
  - rewrite existsb_setProperty, H0, (IH H); [reflexivity|].
    now rewrite String.eqb_sym.
Qed.

Lemma uniqueKeys_fromEntries {A : Type} (es : list (string * A)) :
  uniqueKeys (fromEntries es) = true.
Proof.
  unfold fromEntries.
  assert (H : forall acc : list (string * A), uniqueKeys acc = true ->
            uniqueKeys (fold_left (fun o kv => setProperty (fst kv) (snd kv) o) es acc)
            = true).
  { induction es as [|[k v] es IH]; intros acc Hacc; [exact Hacc|].
    cbn [fold_left fst snd]. apply IH. now apply uniqueKeys_setProperty. }
  now apply H.
Qed.

Lemma Forall_setProperty {A : Type} (P : A -> Prop) (k : string) (v : A)
  (o : list (string * A)) :
  P v -> Forall (fun kv => P (snd kv)) o ->
  Forall (fun kv => P (snd kv)) (setProperty k v o).
Proof.
  intros Hv. induction 1 as [|[k0 v0] o H0 Ho IH]; cbn [setProperty].
  - repeat constructor. exact Hv.
  - destruct (String.eqb k k0); constructor;
      first [exact Hv | exact H0 | exact IH | exact Ho].
Qed.

Lemma Forall_fromEntries {A : Type} (P : A -> Prop) (es : list (string * A)) :
  Forall (fun kv => P (snd kv)) es -> Forall (fun kv => P (snd kv)) (fromEntries es).
Proof.
  unfold fromEntries.
  assert (H : forall acc : list (string * A),
            Forall (fun kv => P (snd kv)) es -> Forall (fun kv => P (snd kv)) acc ->
            Forall (fun kv => P (snd kv))
              (fold_left (fun o kv => setProperty (fst kv) (snd kv) o) es acc)).
  { induction es as [|[k v] es IH]; intros acc Hes Hacc; [exact Hacc|].
    inversion Hes as [|? ? Hv Hes']; subst. cbn [fold_left fst snd].
    apply IH; [exact Hes' | now apply Forall_setProperty]. }
  intros Hes. apply H; [exact Hes | constructor].
Qed.

Lemma forallb_Forall {A : Type} (p : A -> bool) (l : list A) :
  forallb p l = true <-> Forall (fun x => p x = true) l.
Proof.
  rewrite forallb_forall, Forall_forall. reflexivity.
Qed.

(** What [recursiveSerialize] makes of a value that holds no Invalid
    Date. *)
Definition serialized (v j : value) : Prop :=
  storable j = true /\ (properNumbers v = true -> properNumbers j = true).

Lemma recursiveSerialize_outcome (v : value) :
  if holdsInvalidDate v
  then Utils.recursiveSerialize v = Throw (RangeError "Invalid time value")
  else exists j, Utils.recursiveSerialize v = Ok j /\ serialized v j.
Proof.
  induction v as [| |b|x|s|d|l IH|ps IH] using value_induction;
    try (cbn [holdsInvalidDate Utils.recursiveSerialize]; eexists;
         split; [reflexivity | split; [reflexivity | auto]]).
  - destruct d as [|y mo dd h mi sec ms]; [reflexivity|].
    cbn [holdsInvalidDate Utils.recursiveSerialize toISOString bind].
    eexists; split; [reflexivity | split; reflexivity].
  - cbn [holdsInvalidDate Utils.recursiveSerialize].
    pose proof (mapM_failure_or_all Utils.recursiveSerialize holdsInvalidDate
                  (RangeError "Invalid time value") serialized l IH) as H.
    destruct (existsb holdsInvalidDate l).
    + now rewrite H.
    + destruct H as [js [-> Hjs]]. exists (VArray js). split; [reflexivity|].
      split.
      * cbn [storable]. apply forallb_Forall.
        apply (Forall2_Forall_r serialized (fun _ => True)
                 (fun j => storable j = true) l js); [| exact Hjs |].
        -- now intros x y [Hs _] _.
        -- apply Forall_forall. trivial.
      * cbn [properNumbers]. intros Hl. apply forallb_Forall in Hl. apply forallb_Forall.
        apply (Forall2_Forall_r serialized (fun x => properNumbers x = true)
                 (fun j => properNumbers j = true) l js); [| exact Hjs | exact Hl].
        intros x y [_ Hp] Hx. exact (Hp Hx).
  - cbn [holdsInvalidDate Utils.recursiveSerialize].
    pose proof (mapM_failure_or_all
                  (fun kv => bind (Utils.recursiveSerialize (snd kv))
                               (fun v' => Ok (fst kv, v')))
                  (fun kv => holdsInvalidDate (snd kv))
                  (RangeError "Invalid time value")
                  (fun kv kj : string * value => serialized (snd kv) (snd kj)) ps) as H.
    assert (Hps : Forall
              (fun x : string * value =>
               if holdsInvalidDate (snd x)
               then bind (Utils.recursiveSerialize (snd x)) (fun v' => Ok (fst x, v'))
                    = Throw (RangeError "Invalid time value")
               else exists y, bind (Utils.recursiveSerialize (snd x))
                                (fun v' => Ok (fst x, v')) = Ok y
                              /\ serialized (snd x) (snd y)) ps).
    { revert IH. apply Forall_impl. intros [k v] Hv. cbn [fst snd] in *.
      destruct (holdsInvalidDate v).
      - now rewrite Hv.
      - destruct Hv as [j [-> Hj]]. exists (k, j). split; [reflexivity | exact Hj]. }
    specialize (H Hps).
    destruct (existsb (fun kv => holdsInvalidDate (snd kv)) ps).
    + now rewrite H.
    + destruct H as [entries [-> Hentries]].
      exists (VObject (fromEntries entries)). split; [reflexivity|].
      split.
      * cbn [storable]. rewrite uniqueKeys_fromEntries. cbn [andb].
        apply forallb_Forall.
        apply (Forall_fromEntries (fun j => storable j = true)).
        apply (Forall2_Forall_r (fun kv kj => serialized (snd kv) (snd kj))
                 (fun _ => True) (fun kj => storable (snd kj) = true) ps entries);
          [| exact Hentries |].
        -- now intros x y [Hs _] _.
        -- apply Forall_forall. trivial.
      * cbn [properNumbers]. intros Hl. apply forallb_Forall in Hl. apply forallb_Forall.
        apply (Forall_fromEntries (fun j => properNumbers j = true)).
        apply (Forall2_Forall_r (fun kv kj => serialized (snd kv) (snd kj))
                 (fun kv => properNumbers (snd kv) = true)
                 (fun kj => properNumbers (snd kj) = true) ps entries);
          [| exact Hentries | exact Hl].
        intros x y [_ Hp] Hx. exact (Hp Hx).
Qed.

(** X4.  [recursiveSerialize] fails on the values that hold an Invalid Date,
    with the RangeError of [toISOString], and on no other: of every other
    value it makes one with neither [undefined] nor a Date at any depth. *)
Theorem recursiveSerialize_fails_only_on_an_invalid_date (v : value) :
  if holdsInvalidDate v
  then Utils.recursiveSerialize v = Throw (RangeError "Invalid time value")
  else exists j, Utils.recursiveSerialize v = Ok j /\ storable j = true.
Proof.
  pose proof (recursiveSerialize_outcome v) as H.
  destruct (holdsInvalidDate v); [exact H|].
  destruct H as [j [Hj [Hs _]]]. now exists j.
Qed.

(** What [recursiveSerialize] makes of a value that the walk restores:
    a value from which [recursiveParse] makes the value again. *)
Lemma recursiveSerialize_restoredByWalk (v : value) :
  restoredByWalk v = true ->
  exists j, Utils.recursiveSerialize v = Ok j /\ Utils.recursiveParse j = v.
Proof.
  induction v as [| |b|x|s|d|l IH|ps IH] using value_induction; intros Hv;
    try (eexists; split; reflexivity).
  - exists (VString s). cbn [restoredByWalk] in Hv.
    apply andb_prop in Hv as [H1 H2]. apply negb_true_iff in H1, H2.
    split; [reflexivity|]. cbn [Utils.recursiveParse]. now rewrite H1, H2.
  - destruct d as [|y mo dd h mi sec ms]; [discriminate|].
    cbn [restoredByWalk validInstant] in Hv.
    destruct (DateFacts.Date_of_toISOString y mo dd h mi sec ms Hv) as [iso [Hiso Hback]].
    exists (VString (Utils.REDIS_DATE ++ iso)).
    cbn [Utils.recursiveSerialize]. rewrite Hiso. cbn [bind].
    split; [reflexivity|]. cbn [Utils.recursiveParse].
    rewrite sentinel_of_date, BaseStoreFacts.startsWith_append,
      BaseStoreFacts.substring_from_append, Hback.
    reflexivity.
  - cbn [restoredByWalk] in Hv.
    pose proof (Forall_forallb_impl _ _ _ IH Hv) as Hl.
    destruct (mapM_Forall2 Utils.recursiveSerialize
                (fun e j => Utils.recursiveParse j = e) l Hl) as [js [Hjs Hrel]].
    exists (VArray js). cbn [Utils.recursiveSerialize]. rewrite Hjs.
    split; [reflexivity|]. cbn [Utils.recursiveParse]. f_equal. clear -Hrel.
    induction Hrel as [|e j l js Hj _ IHr]; [reflexivity|].
    cbn [map]. now rewrite Hj, IHr.
  - cbn [restoredByWalk] in Hv. apply andb_prop in Hv as [Hu Hv].
    pose proof (Forall_forallb_impl (fun kv => restoredByWalk (snd kv)) _ _ IH Hv) as Hl.
    destruct (mapM_Forall2
                (fun kv => bind (Utils.recursiveSerialize (snd kv)) (fun v' => Ok (fst kv, v')))
                (fun kv kj => fst kj = fst kv /\ Utils.recursiveParse (snd kj) = snd kv) ps)
      as [entries [He Hrel]].
    { revert Hl. apply Forall_impl. intros [k v] [j [Hj Hs]]. exists (k, j).
      cbn [fst snd] in *. rewrite Hj. cbn [bind].
      split; [reflexivity|]. split; [reflexivity | exact Hs]. }
    assert (Hkeys : map fst entries = map fst ps).
    { clear -Hrel. induction Hrel as [|kv kj ps es [Hk _] _ IHr]; [reflexivity|].
      cbn [map]. now rewrite Hk, IHr. }
    assert (Hue : uniqueKeys entries = true)
      by now rewrite (uniqueKeys_same_keys entries ps Hkeys).
    exists (VObject entries). cbn [Utils.recursiveSerialize]. rewrite He.
    cbn [fmap bind]. rewrite (fromEntries_unique entries Hue).
    split; [reflexivity|]. cbn [Utils.recursiveParse].
    assert (Hmap : map (fun kv => (fst kv, Utils.recursiveParse (snd kv))) entries = ps).
    { clear -Hrel. induction Hrel as [|[k v] [k' j] ps es [Hk Hj] _ IHr]; [reflexivity|].
      cbn [map fst snd] in *. now rewrite Hk, Hj, IHr. }
    rewrite Hmap. now rewrite (fromEntries_unique ps Hu).
Qed.

Lemma stringify_nullified (j : value) :
  storable j = true -> stringify j = stringify (nullified j).
Proof.
  induction j as [| |b|x|s|d|l IH|ps IH] using value_induction; intros Hj;
    try discriminate; try reflexivity.
  - destruct x; reflexivity.
  - cbn [storable] in Hj. cbn [nullified stringify].
    pose proof (Forall_forallb_impl _ _ _ IH Hj) as Hl.
    assert (E : map (fun e => match stringify e with
                              | Some t => t
                              | None => "null"
                              end) l
                = map (fun e => match stringify e with
                                | Some t => t
                                | None => "null"
                                end) (map nullified l)).
    { clear -Hl. induction Hl as [|e l He _ IHl]; [reflexivity|].
      cbn [map]. now rewrite He, IHl. }
    now rewrite E.
  - cbn [storable] in Hj. apply andb_prop in Hj as [_ Hj].
    cbn [nullified stringify].
    pose proof (Forall_forallb_impl (fun kv => storable (snd kv)) _ _ IH Hj) as Hl.
    assert (E : flat_map (fun kv => match stringify (snd kv) with
                                    | Some t => [quote (fst kv) ++ ":" ++ t]
                                    | None => []
                                    end) ps
                = flat_map (fun kv => match stringify (snd kv) with
                                      | Some t => [quote (fst kv) ++ ":" ++ t]
                                      | None => []
                                      end)
                    (map (fun kv => (fst kv, nullified (snd kv))) ps)).
    { clear -Hl. induction Hl as [|[k e] l He _ IHl]; [reflexivity|].
      cbn [map flat_map fst snd] in *. now rewrite He, IHl. }
    now rewrite E.
Qed.

Lemma jsonValue_nullified (j : value) :
  storable j = true -> properNumbers j = true -> jsonValue (nullified j) = true.
Proof.
  induction j as [| |b|x|s|d|l IH|ps IH] using value_induction; intros Hj Hp;
    try discriminate; try reflexivity.
  - destruct x; try reflexivity. exact Hp.
  - cbn [storable properNumbers] in Hj, Hp. cbn [nullified jsonValue].
    apply forallb_Forall in Hj, Hp. revert Hj Hp.
    induction IH as [|e l He _ IHl]; intros Hj Hp; [reflexivity|].
    inversion Hj; inversion Hp; subst.
    cbn [map forallb]. rewrite He, IHl; auto.
  - cbn [storable properNumbers] in Hj, Hp. apply andb_prop in Hj as [Hu Hj].
    cbn [nullified jsonValue].
    assert (Hk : uniqueKeys (map (fun kv => (fst kv, nullified (snd kv))) ps) = true).
    { rewrite (uniqueKeys_same_keys _ ps); [exact Hu|]. rewrite map_map. reflexivity. }
    rewrite Hk. clear Hk Hu.
    cbn [andb]. apply forallb_Forall in Hj, Hp. revert Hj Hp.
    induction IH as [|[k e] l He _ IHl]; intros Hj Hp; [reflexivity|].
    inversion Hj; inversion Hp; subst.
    cbn [map forallb fst snd] in *. rewrite He, IHl; auto.
Qed.

(** The [objectParser] built on [recursiveSerialize] and [recursiveParse]
    reads whatever it wrote: [serialize] fails on the values that hold an
    Invalid Date and on no other, and [deserialize] accepts every text
    that [serialize] returns, whatever strings, numbers and absent values
    the value holds. *)
Lemma objectParser_of_utils_reads_whatever_it_wrote (v : value) :
  properNumbers v = true ->
  if holdsInvalidDate v
  then serialize StringParsersUtils.objectParser v
       = Throw (RangeError "Invalid time value")
  else exists text back,
         serialize StringParsersUtils.objectParser v = Ok text
         /\ deserialize StringParsersUtils.objectParser text = Ok back.
Proof.
  intros Hv. pose proof (recursiveSerialize_outcome v) as H.
  cbn [serialize deserialize StringParsersUtils.objectParser].
  destruct (holdsInvalidDate v).
  - now rewrite H.
  - destruct H as [j [-> [Hj Hp]]]. cbn [bind]. specialize (Hp Hv).
    destruct (JSON_parse_stringify (nullified j) (jsonValue_nullified j Hj Hp)) as [Hs Hr].
    exists (textOf (nullified j)), (Utils.recursiveParse (nullified j)).
    unfold stringified. rewrite (stringify_nullified j Hj), Hs.
    split; [reflexivity|]. now rewrite Hr.
Qed.

End WalkFacts.

(* ===================================================================== *)
(** * Running the methods against a client *)
(* ===================================================================== *)

Module ClientFacts.
Import JS Client.

(** What is sent is added to what was sent before. *)
Lemma run_log {W A : Type} (redis : client W) (p : async A) (w : W) (log : list command) :
  run redis p w log
  = {| settled := settled (run redis p w []);
       world := world (run redis p w []);
       sent := (log ++ sent (run redis p w []))%list |}.
Proof.
  revert w log. induction p as [a|e|c k IH]; intros w log; cbn [run].
  - cbn. now rewrite app_nil_r.
  - cbn. now rewrite app_nil_r.
  - destruct (redis c w) as [r w']. rewrite (IH r w' (log ++ [c])%list).
    rewrite (IH r w' ([] ++ [c])%list). cbn [settled world sent List.app].
    now rewrite <- app_assoc.
Qed.

Lemma run_abind {W A B : Type} (redis : client W) (p : async A) (f : A -> async B)
  (w : W) (log : list command) :
  run redis (abind p f) w log
  = match settled (run redis p w log) with
    | Ok a => run redis (f a) (world (run redis p w log)) (sent (run redis p w log))
    | Throw e => {| settled := Throw e;
                    world := world (run redis p w log);
                    sent := sent (run redis p w log) |}
    end.
Proof.
  revert w log. induction p as [a|e|c k IH]; intros w log; cbn [abind run];
    try reflexivity.
  destruct (redis c w) as [r w']. apply IH.
Qed.

Lemma run_lift {W A : Type} (redis : client W) (r : result A) (w : W) (log : list command) :
  run redis (lift r) w log = {| settled := r; world := w; sent := log |}.
Proof. destruct r; reflexivity. Qed.

Lemma run_send {W : Type} (redis : client W) (c : command) (w : W) (log : list command) :
  run redis (send c) w log
  = {| settled := fst (redis c w); world := snd (redis c w); sent := (log ++ [c])%list |}.
Proof.
  unfold send. cbn [run]. destruct (redis c w) as [r w']. apply run_lift.
Qed.

(** Every command that a method may send, whatever the client answers,
    satisfies [P]. *)
Inductive sendsOnly {A : Type} (P : command -> Prop) : async A -> Prop :=
| sendsOnly_Return (a : A) : sendsOnly P (Return a)
| sendsOnly_Reject (e : exn) : sendsOnly P (Reject e)
| sendsOnly_Await (c : command) (k : result (reply c) -> async A) :
    P c -> (forall r, sendsOnly P (k r)) -> sendsOnly P (Await c k).

Lemma sendsOnly_run {W A : Type} (P : command -> Prop) (redis : client W) (p : async A) :
  sendsOnly P p ->
  forall (w : W) (log : list command), Forall P log -> Forall P (sent (run redis p w log)).
Proof.
  induction 1 as [a|e|c k Hc _ IH]; intros w log Hlog; cbn [run]; try exact Hlog.
  destruct (redis c w) as [r w']. apply IH. apply Forall_app. split; [exact Hlog|].
  now repeat constructor.
Qed.

Lemma sendsOnly_abind {A B : Type} (P : command -> Prop) (p : async A) (f : A -> async B) :
  sendsOnly P p -> (forall a, sendsOnly P (f a)) -> sendsOnly P (abind p f).
Proof.
  intros Hp Hf. induction Hp as [a|e|c k Hc _ IH]; cbn [abind].
  - apply Hf.
  - constructor.
  - constructor; [exact Hc | exact IH].
Qed.

Lemma sendsOnly_lift {A : Type} (P : command -> Prop) (r : result A) : sendsOnly P (lift r).
Proof. destruct r; constructor. Qed.

Lemma sendsOnly_send (P : command -> Prop) (c : command) : P c -> sendsOnly P (send c).
Proof. intros Hc. constructor; [exact Hc | intros r; apply sendsOnly_lift]. Qed.

Lemma sendsOnly_settle {A : Type} (P : command -> Prop) (p : async A) :
  sendsOnly P p -> sendsOnly P (settle p).
Proof. induction 1; cbn [settle]; constructor; auto. Qed.

Lemma sendsOnly_all {A : Type} (P : command -> Prop) (ps : list (async A)) :
  Forall (sendsOnly P) ps -> sendsOnly P (all ps).
Proof.
  intros H. unfold all. apply sendsOnly_abind; [|intros rs; apply sendsOnly_lift].
  induction H as [|p ps Hp _ IH]; cbn [settleAll]; [constructor|].
  apply sendsOnly_abind; [now apply sendsOnly_settle|]. intros r.
  apply sendsOnly_abind; [exact IH|]. intros rs. constructor.
Qed.

End ClientFacts.

(* ===================================================================== *)
(** * The batch operations of the stores *)
(* ===================================================================== *)

Module BatchFacts.
Import JS Interfaces Client ClientFacts BaseStoreFacts JsonFacts.

(** The keys of a command lie in the name space of a store: they start
    with its prefix. *)
Definition inNamespace (this : BaseStore.BaseStore) (c : command) : Prop :=
  match c with
  | DEL ks | MGET ks =>
      Forall (fun k => startsWith k (BaseStore.PREFIX this) = true) ks
  | KEYS pattern => startsWith pattern (BaseStore.PREFIX this) = true
  | _ => True
  end.

(** DEL with no key, which Redis refuses. *)
Definition emptyDEL (c : command) : Prop := c = DEL [].

Section Store.
Variable this : BaseStore.BaseStore.

Lemma prefixKey_startsWith (k : string) :
  startsWith (BaseStore.prefixKey this k) (BaseStore.PREFIX this) = true.
Proof.
  unfold BaseStore.prefixKey.
  destruct (startsWith k (BaseStore.PREFIX this)) eqn:E; [exact E|].
  apply startsWith_append.
Qed.

Lemma toKeys_startsWith (ids : list value) (ks : list string) :
  BaseStore.toKeys this ids = Ok ks ->
  Forall (fun k => startsWith k (BaseStore.PREFIX this) = true) ks.
Proof.
  unfold BaseStore.toKeys. revert ks.
  induction ids as [|id ids IH]; intros ks; cbn [mapM].
  - intros H. injection H as <-. constructor.
  - unfold BaseStore.toKey at 1, fmap.
    destruct (BaseStore.serializeKey this id) as [s|e]; cbn [bind]; [|discriminate].
    destruct (mapM (BaseStore.toKey this) ids) as [ks'|e]; cbn [bind]; [|discriminate].
    intros H. injection H as <-. constructor; [apply prefixKey_startsWith | now apply IH].
Qed.

Lemma toKeys_length (ids : list value) (ks : list string) :
  BaseStore.toKeys this ids = Ok ks -> List.length ks = List.length ids.
Proof.
  unfold BaseStore.toKeys. revert ks.
  induction ids as [|id ids IH]; intros ks; cbn [mapM].
  - intros H. now injection H as <-.
  - destruct (BaseStore.toKey this id) as [s|e]; cbn [bind]; [|discriminate].
    destruct (mapM (BaseStore.toKey this) ids) as [ks'|e]; cbn [bind]; [|discriminate].
    intros H. injection H as <-. cbn [List.length]. now rewrite (IH ks').
Qed.

End Store.

Section Store.
Variable this : BaseStore.BaseStore.

Lemma sendsOnly_lift_then {A B : Type} (P : command -> Prop) (r : result A)
  (f : A -> async B) :
  (forall a, r = Ok a -> sendsOnly P (f a)) -> sendsOnly P (abind (lift r) f).
Proof.
  intros H. destruct r as [a|e]; cbn [lift abind]; [now apply H | constructor].
Qed.

Lemma toKeys_nonempty (id : value) (ids : list value) (ks : list string) :
  BaseStore.toKeys this (id :: ids) = Ok ks -> ks <> [].
Proof.
  intros H E. apply toKeys_length in H. subst ks. discriminate.
Qed.

(** The methods that make their keys from IDs and patterns. *)
Lemma del_sendsOnly (P : command -> Prop) (ids : list value) :
  (forall ks, BaseStore.toKeys this ids = Ok ks -> ks <> [] -> P (DEL ks)) ->
  sendsOnly P (BaseStore.del this ids).
Proof.
  intros H. destruct ids as [|id ids]; [constructor|].
  unfold BaseStore.del. apply sendsOnly_lift_then. intros ks Hks.
  apply (sendsOnly_send P (DEL ks)).
  apply H; [exact Hks | exact (toKeys_nonempty id ids ks Hks)].
Qed.

Lemma keys_sendsOnly (P : command -> Prop) (pattern : string) :
  P (KEYS (BaseStore.prefixKey this pattern)) -> sendsOnly P (BaseStore.keys this pattern).
Proof. intros H. exact (sendsOnly_send P _ H). Qed.

Lemma delPatterns_sendsOnly (P : command -> Prop) (patterns : list string) :
  (forall p, In p patterns -> P (KEYS (BaseStore.prefixKey this p))) ->
  (forall ks, ks <> [] -> P (DEL ks)) ->
  sendsOnly P (BaseStore.delPatterns this patterns).
Proof.
  intros Hk Hd. destruct patterns as [|p ps]; [constructor|].
  unfold BaseStore.delPatterns. apply sendsOnly_abind.
  - apply sendsOnly_all. apply Forall_forall. intros q Hq.
    apply in_map_iff in Hq as [p' [<- Hp']]. apply keys_sendsOnly. now apply Hk.
  - intros found. destruct (concat found) as [|k ks] eqn:E; [constructor|].
    apply (sendsOnly_send P (DEL (k :: ks))). now apply Hd.
Qed.

Lemma reset_sendsOnly (P : command -> Prop) :
  P (KEYS (BaseStore.prefixKey this "*")) ->
  (forall ks, ks <> [] -> P (DEL ks)) ->
  sendsOnly P (BaseStore.reset this).
Proof.
  intros Hk Hd. unfold BaseStore.reset, BaseStore.getAllKeys.
  apply sendsOnly_abind; [now apply keys_sendsOnly|].
  intros [|k ks]; [constructor|]. apply (sendsOnly_send P (DEL (k :: ks))). now apply Hd.
Qed.

End Store.

Section StringStore.
Context {T : Type}.
Variable store : BaseStringStore.BaseStringStore T.

Let this : BaseStore.BaseStore := BaseStringStore.base store.

Lemma reads_sendOnly (P : command -> Prop) (ids : list value) :
  (forall ks, BaseStore.toKeys this ids = Ok ks -> P (MGET ks)) ->
  sendsOnly P (BaseStringStore.mGet store ids)
  /\ sendsOnly P (BaseStringStore.mGetClean store ids)
  /\ sendsOnly P (BaseStringStore.mGetMap store ids)
  /\ sendsOnly P (BaseStringStore.mGetCleanMap store ids).
Proof.
  intros H. destruct ids as [|id ids]; [repeat split; constructor|].
  repeat split;
    (apply sendsOnly_lift_then; intros ks Hks;
     apply sendsOnly_abind; [apply (sendsOnly_send P (MGET ks)); now apply H|];
     intros values; apply sendsOnly_lift).
Qed.

End StringStore.

(** X6.  Every key that the methods make from IDs and patterns lies in the
    name space of the store: whatever the client answers, the keys of the
    DEL that [del] sends, of the MGET that [mGet], [mGetClean], [mGetMap],
    [mGetCleanMap], [getAll] and [getAllAsMap] send, and the patterns of
    the KEYS that [keys], [ids], [getAllKeys], [getAllIds], [getAll] and
    [getAllAsMap] send start with the prefix of the store. *)
Theorem keys_sent_carry_the_prefix (T : Type) (store : BaseStringStore.BaseStringStore T)
  (ids : list value) (pattern : string) (W : Type) (redis : client W) (w : W) :
  let this := BaseStringStore.base store in
  let inside {A : Type} (method : async A) :=
    Forall (inNamespace this) (sent (run redis method w [])) in
  inside (BaseStore.del this ids)
  /\ inside (BaseStore.keys this pattern)
  /\ inside (BaseStore.ids this pattern)
  /\ inside (BaseStore.getAllKeys this)
  /\ inside (BaseStore.getAllIds this)
  /\ inside (BaseStringStore.mGet store ids)
  /\ inside (BaseStringStore.mGetClean store ids)
  /\ inside (BaseStringStore.mGetMap store ids)
  /\ inside (BaseStringStore.mGetCleanMap store ids)
  /\ inside (StringStoreMethods.getAll store)
  /\ inside (StringStoreMethods.getAllAsMap store).
Proof.
  intros this inside.
  assert (Hkeys : forall p, sendsOnly (inNamespace this) (BaseStore.keys this p)).
  { intros p. apply keys_sendsOnly. apply prefixKey_startsWith. }
  assert (Hreads : forall l,
            sendsOnly (inNamespace this) (BaseStringStore.mGet store l)
            /\ sendsOnly (inNamespace this) (BaseStringStore.mGetClean store l)
            /\ sendsOnly (inNamespace this) (BaseStringStore.mGetMap store l)
            /\ sendsOnly (inNamespace this) (BaseStringStore.mGetCleanMap store l)).
  { intros l. apply reads_sendOnly. intros ks Hks. exact (toKeys_startsWith this l ks Hks). }
  assert (Hids : sendsOnly (inNamespace this) (BaseStore.getAllIds this)).
  { unfold BaseStore.getAllIds. apply sendsOnly_abind; [apply Hkeys | constructor]. }
  unfold inside.
  repeat split; (apply sendsOnly_run; [|constructor]).
  - apply del_sendsOnly. intros ks Hks _. exact (toKeys_startsWith this ids ks Hks).
  - apply Hkeys.
  - unfold BaseStore.ids. apply sendsOnly_abind; [apply Hkeys | constructor].
  - apply Hkeys.
  - exact Hids.
  - apply Hreads.
  - apply Hreads.
  - apply Hreads.
  - apply Hreads.
  - unfold StringStoreMethods.getAll. apply sendsOnly_abind; [exact Hids|].
    intros [|i l]; [constructor | apply Hreads].
  - unfold StringStoreMethods.getAllAsMap. apply sendsOnly_abind; [exact Hids|].
    intros l. apply Hreads.
Qed.

(** X7.  DEL is never sent without a key: whatever the client answers, every
    DEL that [del], [delPatterns] and [reset] send names at least one key
    (when there is none to name, no DEL is sent). *)
Theorem DEL_is_never_sent_without_a_key (this : BaseStore.BaseStore)
  (ids : list value) (patterns : list string) (W : Type) (redis : client W) (w : W) :
  let never {A : Type} (method : async A) :=
    Forall (fun c => ~ emptyDEL c) (sent (run redis method w [])) in
  never (BaseStore.del this ids)
  /\ never (BaseStore.delPatterns this patterns)
  /\ never (BaseStore.reset this).
Proof.
  intros never. unfold never, emptyDEL.
  assert (Hd : forall ks : list string, ks <> [] -> DEL ks <> DEL []).
  { intros ks Hks E. apply Hks. now injection E. }
  repeat split; (apply sendsOnly_run; [|constructor]).
  - apply del_sendsOnly. intros ks _. apply Hd.
  - apply delPatterns_sendsOnly; [discriminate | exact Hd].
  - apply reset_sendsOnly; [discriminate | exact Hd].
Qed.

(** A call that rejects with [e] before anything is sent. *)
Definition rejectsSilently {A : Type} (method : async A) (e : exn) : Prop :=
  forall (W : Type) (redis : client W) (w : W) (log : list command),
    run redis method w log = {| settled := Throw e; world := w; sent := log |}.

Lemma toKeys_default_keygen (options : BaseStore.RedisStoreOptions) (strs : list string)
  (bad : value) (rest : list value) :
  BaseStore.keygen options = None -> (forall s, bad <> VString s) ->
  BaseStore.toKeys (BaseStore.new options) (map VString strs ++ bad :: rest)%list
  = Throw (Error ("Could not serialize Redis ID of type " ++ typeof bad
                  ++ " to valid redis key.")).
Proof.
  intros Hk Hbad. unfold BaseStore.toKeys.
  assert (Hto : forall id, BaseStore.toKey (BaseStore.new options) id
                           = fmap (BaseStore.prefixKey (BaseStore.new options))
                               (Interfaces.serialize DEFAULT_KEYGEN id)).
  { intros id. unfold BaseStore.toKey, BaseStore.serializeKey, BaseStore.new.
    cbn [BaseStore.store_keygen]. now rewrite Hk. }
  induction strs as [|s strs IH]; cbn [map List.app mapM].
  - rewrite Hto. destruct bad; try reflexivity. now elim (Hbad s).
  - rewrite Hto. cbn [Interfaces.serialize DEFAULT_KEYGEN fmap bind]. now rewrite IH.
Qed.

(** X8.  With the default keygen, a batch call in which an ID is not a string
    rejects with the error of the keygen for the first such ID, and
    nothing is sent, although the IDs before it are strings. *)
Theorem ids_that_are_not_strings_reject_the_call (T : Type) (parser : StringParser T)
  (options : BaseStore.RedisStoreOptions) (strs : list string) (bad : value)
  (rest : list value) :
  BaseStore.keygen options = None -> (forall s, bad <> VString s) ->
  let store := {| BaseStringStore.base := BaseStore.new options;
                  BaseStringStore.valueParser := parser |} in
  let ids := (map VString strs ++ bad :: rest)%list in
  let e := Error ("Could not serialize Redis ID of type " ++ typeof bad
                  ++ " to valid redis key.") in
  rejectsSilently (BaseStore.del (BaseStore.new options) ids) e
  /\ rejectsSilently (BaseStringStore.mGet store ids) e
  /\ rejectsSilently (BaseStringStore.mGetClean store ids) e
  /\ rejectsSilently (BaseStringStore.mGetMap store ids) e
  /\ rejectsSilently (BaseStringStore.mGetCleanMap store ids) e.
Proof.
  intros Hk Hbad store ids e.
  pose proof (toKeys_default_keygen options strs bad rest Hk Hbad) as Hkeys.
  fold ids in Hkeys. fold e in Hkeys.
  assert (Hne : exists i l, ids = i :: l).
  { unfold ids. destruct strs; cbn [map List.app]; eauto. }
  destruct Hne as [i [l Hil]].
  unfold BaseStore.del, BaseStringStore.mGet, BaseStringStore.mGetClean,
    BaseStringStore.mGetMap, BaseStringStore.mGetCleanMap.
  cbn [BaseStringStore.base store]. rewrite Hil, <- Hil, Hkeys.
  repeat split; intros W redis w log; reflexivity.
Qed.

(** The statement at [del("a", 1, "b")] on the store with the prefix
    [user]. *)
Lemma ids_that_are_not_strings_reject_the_call_witness :
  rejectsSilently
    (BaseStore.del
       (BaseStore.new {| BaseStore.separator := None; BaseStore.prefix := "user";
                         BaseStore.ttl := None; BaseStore.keygen := None |})
       [VString "a"; VNumber (number_of_Z 1); VString "b"])
    (Error "Could not serialize Redis ID of type number to valid redis key.").
Proof.
  exact (proj1 (ids_that_are_not_strings_reject_the_call string StringParsers.stringParser
                  {| BaseStore.separator := None; BaseStore.prefix := "user";
                     BaseStore.ttl := None; BaseStore.keygen := None |}
                  ["a"] (VNumber (number_of_Z 1)) [VString "b"] eq_refl
                  ltac:(discriminate))).
Defined.


Section Reads.
Context {T : Type}.
Variable store : BaseStringStore.BaseStringStore T.

Lemma mGetClean_forEach_removeNulls (values : list (option string)) (acc : list T) :
  BaseStringStore.mGetClean_forEach store values acc
  = fmap (fun l => (acc ++ Utils.removeNulls l)%list)
      (mapM (BaseStringStore.deserializeOrNull store) values).
Proof.
  revert acc. induction values as [|[text|] values IH]; intros acc;
    cbn [BaseStringStore.mGetClean_forEach mapM BaseStringStore.deserializeOrNull].
  - cbn. now rewrite app_nil_r.
  - unfold fmap at 2.
    destruct (deserialize (BaseStringStore.valueParser store) text) as [x|e];
      cbn [bind]; [|reflexivity].
    rewrite IH. unfold fmap.
    destruct (mapM (BaseStringStore.deserializeOrNull store) values) as [l|e];
      cbn [bind]; [|reflexivity].
    unfold Utils.removeNulls. cbn [flat_map]. now rewrite <- app_assoc.
  - cbn [bind]. rewrite IH. unfold fmap.
    destruct (mapM (BaseStringStore.deserializeOrNull store) values) as [l|e];
      cbn [bind]; reflexivity.
Qed.

End Reads.


(** The pairs of a map without those whose value is [null]. *)
Definition cleanPairs {T : Type} (pairs : list (string * option T)) : list (string * T) :=
  flat_map (fun kx => match snd kx with
                      | Some x => [(fst kx, x)]
                      | None => []
                      end) pairs.

Lemma mapM_fmap {A B C : Type} (f : A -> result B) (g : B -> C) (l : list A) :
  mapM (fun x => fmap g (f x)) l = fmap (map g) (mapM f l).
Proof.
  induction l as [|x l IH]; [reflexivity|].
  cbn [mapM]. rewrite IH. unfold fmap.
  destruct (f x) as [y|e]; cbn [bind]; [|reflexivity].
  destruct (mapM f l) as [ys|e]; reflexivity.
Qed.

Lemma uniqueKeys_combine {A : Type} (keys : list string) (xs : list A) :
  NoDup keys -> uniqueKeys (combine keys xs) = true.
Proof.
  intros H. revert xs. induction H as [|k keys Hk _ IH]; intros [|x xs]; try reflexivity.
  cbn [combine uniqueKeys]. rewrite IH, andb_true_r. apply negb_true_iff.
  destruct (existsb (fun kv => String.eqb k (fst kv)) (combine keys xs)) eqn:E;
    [|reflexivity].
  apply existsb_exists in E as [[k' x'] [Hin Heq]]. cbn [fst] in Heq.
  apply String.eqb_eq in Heq. subst k'. elim Hk. exact (in_combine_l _ _ _ _ Hin).
Qed.

Section Maps.
Context {T : Type}.
Variable store : BaseStringStore.BaseStringStore T.

Let this : BaseStore.BaseStore := BaseStringStore.base store.

Lemma mGetMap_loop_pairs (ids : list value) :
  forall (keys : list string) (values : list (option string)) (xs : list (option T))
         (acc : list (string * option T)),
    mapM (BaseStore.serializeKey this) ids = Ok keys ->
    mapM (BaseStringStore.deserializeOrNull store) values = Ok xs ->
    List.length values = List.length ids ->
    BaseStringStore.mGetMap_loop store ids values acc
    = Ok (fold_left (fun o kv => setProperty (fst kv) (snd kv) o) (combine keys xs) acc).
Proof.
  induction ids as [|id ids IH]; intros keys values xs acc Hk Hx Hlen.
  - cbn [mapM] in Hk. injection Hk as <-. reflexivity.
  - destruct values as [|v values]; [discriminate|].
    cbn [mapM] in Hk, Hx. fold this in Hk.
    cbn [BaseStringStore.mGetMap_loop]. fold this.
    destruct (BaseStore.serializeKey this id) as [k|e]; cbn [bind] in *; [|discriminate].
    destruct (mapM (BaseStore.serializeKey this) ids) as [keys'|e] eqn:Ek;
      cbn [bind] in Hk; [|discriminate].
    injection Hk as <-.
    destruct (BaseStringStore.deserializeOrNull store v) as [x|e];
      cbn [bind] in *; [|discriminate].
    destruct (mapM (BaseStringStore.deserializeOrNull store) values) as [xs'|e] eqn:Ex;
      cbn [bind] in Hx; [|discriminate].
    injection Hx as <-. cbn [combine fold_left fst snd].
    apply IH; auto.
Qed.

Lemma mGetCleanMap_loop_pairs (ids : list value) :
  forall (keys : list string) (values : list (option string)) (xs : list (option T))
         (acc : list (string * T)),
    mapM (BaseStore.serializeKey this) ids = Ok keys ->
    mapM (BaseStringStore.deserializeOrNull store) values = Ok xs ->
    List.length values = List.length ids ->
    BaseStringStore.mGetCleanMap_loop store ids values acc
    = Ok (fold_left (fun o kv => setProperty (fst kv) (snd kv) o)
            (cleanPairs (combine keys xs)) acc).
Proof.
  induction ids as [|id ids IH]; intros keys values xs acc Hk Hx Hlen.
  - cbn [mapM] in Hk. injection Hk as <-. reflexivity.
  - destruct values as [|v values]; [discriminate|].
    cbn [mapM] in Hk, Hx. fold this in Hk.
    destruct (BaseStore.serializeKey this id) as [k|e] eqn:Eid;
      cbn [bind] in Hk; [|discriminate].
    destruct (mapM (BaseStore.serializeKey this) ids) as [keys'|e] eqn:Ek;
      cbn [bind] in Hk; [|discriminate].
    injection Hk as <-.
    destruct (mapM (BaseStringStore.deserializeOrNull store) values) as [xs'|e] eqn:Ex.
    2:{ destruct (BaseStringStore.deserializeOrNull store v); discriminate. }
    destruct v as [text|]; cbn [BaseStringStore.deserializeOrNull] in Hx.
    + cbn [BaseStringStore.mGetCleanMap_loop]. fold this. rewrite Eid. cbn [bind].
      unfold fmap in Hx.
      destruct (deserialize (BaseStringStore.valueParser store) text) as [x|e];
        cbn [bind] in *; [|discriminate].
      injection Hx as <-. unfold cleanPairs. cbn [combine flat_map fst snd List.app fold_left].
      apply IH; auto.
    + cbn [BaseStringStore.mGetCleanMap_loop bind] in *. injection Hx as <-.
      unfold cleanPairs. cbn [combine flat_map fst snd List.app].
      apply IH; auto.
Qed.

End Maps.

(** X10.  [mGetMap] and [mGetCleanMap] pair the IDs with the values in the
    order of the call.  When the client answers MGET with one entry per
    key, each of which the parser reads, [mGetMap] resolves with the map
    that [Object.fromEntries] would make of the pairs of a serialized ID
    (without the prefix) and a value, so that an ID given twice keeps its
    first place and its last value, and [mGetCleanMap] with the one of the
    pairs whose value is not [null]; for IDs that are all different these
    are the pairs themselves. *)
Theorem mGetMap_pairs_the_ids_with_the_values (T : Type)
  (store : BaseStringStore.BaseStringStore T) (ids : list value) (keys : list string)
  (values : list (option string)) (xs : list (option T))
  (W : Type) (redis : client W) (w w' : W) :
  let this := BaseStringStore.base store in
  let asked := MGET (map (BaseStore.prefixKey this) keys) in
  ids <> [] ->
  mapM (BaseStore.serializeKey this) ids = Ok keys ->
  redis asked w = (Ok values, w') ->
  List.length values = List.length ids ->
  mapM (BaseStringStore.deserializeOrNull store) values = Ok xs ->
  run redis (BaseStringStore.mGetMap store ids) w []
  = {| settled := Ok (fromEntries (combine keys xs)); world := w'; sent := [asked] |}
  /\ run redis (BaseStringStore.mGetCleanMap store ids) w []
     = {| settled := Ok (fromEntries (cleanPairs (combine keys xs)));
          world := w'; sent := [asked] |}
  /\ (NoDup keys -> fromEntries (combine keys xs) = combine keys xs).
Proof.
  intros this asked Hne Hk Hr Hlen Hx.
  assert (Hto : BaseStore.toKeys this ids = Ok (map (BaseStore.prefixKey this) keys)).
  { unfold BaseStore.toKeys, BaseStore.toKey.
    rewrite (mapM_fmap (BaseStore.serializeKey this) (BaseStore.prefixKey this) ids), Hk.
    reflexivity. }
  destruct ids as [|id ids]; [now elim Hne|].
  split; [|split].
  - unfold BaseStringStore.mGetMap. fold this. rewrite Hto.
    cbn [lift abind send run]. fold asked. rewrite Hr. cbn [lift abind].
    rewrite run_lift. now rewrite (mGetMap_loop_pairs store _ keys values xs [] Hk Hx Hlen).
  - unfold BaseStringStore.mGetCleanMap. fold this. rewrite Hto.
    cbn [lift abind send run]. fold asked. rewrite Hr. cbn [lift abind].
    rewrite run_lift.
    now rewrite (mGetCleanMap_loop_pairs store _ keys values xs [] Hk Hx Hlen).
  - intros Hnd. apply JsonFacts.fromEntries_unique. now apply uniqueKeys_combine.
Qed.

(** A key that starts with the prefix of the store, once: what follows
    the prefix does not start with it again. *)
Definition carriesPrefixOnce (this : BaseStore.BaseStore) (k : string) : bool :=
  startsWith k (BaseStore.PREFIX this)
  && negb (startsWith (BaseStore.unPrefixKey this k) (BaseStore.PREFIX this)).

Lemma prefixKey_unPrefixKey (this : BaseStore.BaseStore) (k : string) :
  carriesPrefixOnce this k = true ->
  BaseStore.prefixKey this (BaseStore.unPrefixKey this k) = k.
Proof.
  unfold carriesPrefixOnce. intros H. apply andb_prop in H as [H1 H2].
  apply negb_true_iff in H2. unfold BaseStore.prefixKey. rewrite H2.
  unfold BaseStore.unPrefixKey. rewrite H1. symmetry. now apply startsWith_split.
Qed.

Lemma toKey_toId_default (options : BaseStore.RedisStoreOptions) (s : string) :
  BaseStore.keygen options = None ->
  BaseStore.toKey (BaseStore.new options) (BaseStore.toId (BaseStore.new options) s)
  = Ok (BaseStore.prefixKey (BaseStore.new options)
          (BaseStore.unPrefixKey (BaseStore.new options) s)).
Proof.
  intros Hk. unfold BaseStore.toKey, BaseStore.toId, BaseStore.serializeKey,
    BaseStore.parseKey, BaseStore.new. cbn [BaseStore.store_keygen]. now rewrite Hk.
Qed.

Lemma toKeys_toIds_once (options : BaseStore.RedisStoreOptions) (ks : list string) :
  BaseStore.keygen options = None ->
  forallb (carriesPrefixOnce (BaseStore.new options)) ks = true ->
  BaseStore.toKeys (BaseStore.new options) (BaseStore.toIds (BaseStore.new options) ks)
  = Ok ks.
Proof.
  intros Hk. unfold BaseStore.toKeys, BaseStore.toIds.
  induction ks as [|k ks IH]; [reflexivity|]. cbn [forallb map mapM]. intros H.
  apply andb_prop in H as [H1 H2].
  rewrite (toKey_toId_default options k Hk), (prefixKey_unPrefixKey _ k H1). cbn [bind].
  now rewrite (IH H2).
Qed.

(** X11.  With the default keygen, the keys of the IDs of keys are these keys,
    when each of them carries the prefix of the store once; a key that
    carries it twice comes back with one prefix less. *)
Theorem toKeys_of_toIds (options : BaseStore.RedisStoreOptions) (ks : list string) :
  BaseStore.keygen options = None ->
  let this := BaseStore.new options in
  (forallb (carriesPrefixOnce this) ks = true ->
   BaseStore.toKeys this (BaseStore.toIds this ks) = Ok ks)
  /\ (forall k, BaseStore.toKeys this
                  (BaseStore.toIds this [BaseStore.PREFIX this ++ BaseStore.PREFIX this ++ k])
                = Ok [BaseStore.PREFIX this ++ k]).
Proof.
  intros Hk this. subst this. split.
  - unfold BaseStore.toKeys, BaseStore.toIds.
    induction ks as [|k ks IH]; [reflexivity|]. cbn [forallb map mapM]. intros H.
    apply andb_prop in H as [H1 H2].
    rewrite (toKey_toId_default options k Hk).
    rewrite (prefixKey_unPrefixKey _ k H1). cbn [bind].
    now rewrite (IH H2).
  - intros k. unfold BaseStore.toKeys, BaseStore.toIds. cbn [map mapM].
    rewrite (toKey_toId_default options _ Hk). cbn [bind]. do 2 f_equal.
    unfold BaseStore.unPrefixKey. rewrite startsWith_append, substring_from_append.
    unfold BaseStore.prefixKey. now rewrite startsWith_append.
Qed.

(** The statement at the keys [user:1] and [user:2] of the store with the
    prefix [user]. *)
Lemma toKeys_of_toIds_witness :
  let this := BaseStore.new {| BaseStore.separator := None; BaseStore.prefix := "user";
                               BaseStore.ttl := None; BaseStore.keygen := None |} in
  BaseStore.toKeys this (BaseStore.toIds this ["user:1"; "user:2"])
  = Ok ["user:1"; "user:2"].
Proof.
  exact (proj1 (toKeys_of_toIds
                  {| BaseStore.separator := None; BaseStore.prefix := "user";
                     BaseStore.ttl := None; BaseStore.keygen := None |}
                  ["user:1"; "user:2"] eq_refl) eq_refl).
Defined.

Lemma mGetClean_with_ids {T : Type} (store : BaseStringStore.BaseStringStore T)
  (ids : list value) :
  ids <> [] ->
  BaseStringStore.mGetClean store ids
  = abind (lift (BaseStore.toKeys (BaseStringStore.base store) ids)) (fun ks =>
      abind (send (MGET ks)) (fun values =>
        lift (BaseStringStore.mGetClean_forEach store values []))).
Proof. destruct ids; [intros H; now elim H | reflexivity]. Qed.

(** X12.  [getAll] reads the keys that KEYS reports.  With the default keygen,
    when the client answers [KEYS prefix*] with keys that carry the prefix
    once, [getAll] asks MGET for exactly these keys and resolves with the
    values that are there, read by the parser; when the client reports no
    key, [getAll] resolves with the empty array and sends no MGET. *)
Theorem getAll_reads_the_keys_that_KEYS_reports (T : Type) (parser : StringParser T)
  (options : BaseStore.RedisStoreOptions) (ks : list string)
  (W : Type) (redis : client W) (w w1 : W) :
  let this := BaseStore.new options in
  let store := {| BaseStringStore.base := this; BaseStringStore.valueParser := parser |} in
  let listing := KEYS (BaseStore.prefixKey this "*") in
  BaseStore.keygen options = None ->
  redis listing w = (Ok ks, w1) ->
  forallb (carriesPrefixOnce this) ks = true ->
  run redis (StringStoreMethods.getAll store) w []
  = match ks with
    | [] => {| settled := Ok []; world := w1; sent := [listing] |}
    | _ =>
        {| settled :=
             bind (fst (redis (MGET ks) w1)) (fun values =>
               fmap Utils.removeNulls (mapM (BaseStringStore.deserializeOrNull store) values));
           world := snd (redis (MGET ks) w1);
           sent := [listing; MGET ks] |}
    end.
Proof.
  intros this store listing Hk Hr Hks.
  pose proof (toKeys_toIds_once options ks Hk Hks) as Hto. fold this in Hto.
  unfold StringStoreMethods.getAll, BaseStore.getAllIds, BaseStore.keys.
  cbn [BaseStringStore.base store]. cbn [send abind run]. fold listing. rewrite Hr.
  cbn [lift abind].
  destruct ks as [|k ks']; [reflexivity|].
  set (keys := k :: ks') in *.
  assert (Hids : BaseStore.toIds this keys <> []) by discriminate.
  destruct (BaseStore.toIds this keys) as [|i l] eqn:Ei; [now elim Hids|].
  rewrite (mGetClean_with_ids store (i :: l) Hids). cbn [BaseStringStore.base store].
  rewrite Hto. cbn [lift abind send run List.app].
  destruct (redis (MGET keys) w1) as [[values|e] w2]; cbn [fst snd bind lift abind].
  - rewrite run_lift. now rewrite mGetClean_forEach_removeNulls.
  - reflexivity.
Qed.

(** X13.  [reset] is [delPatterns("*")]: against every client the two send the
    same commands, leave the store in the same state and settle alike. *)
Theorem reset_is_delPatterns_of_everything (this : BaseStore.BaseStore)
  (W : Type) (redis : client W) (w : W) (log : list command) :
  run redis (BaseStore.reset this) w log
  = run redis (BaseStore.delPatterns this ["*"]) w log.
Proof.
  unfold BaseStore.reset, BaseStore.delPatterns, BaseStore.getAllKeys, BaseStore.keys, all.
  cbn [map settleAll send settle abind run].
  destruct (redis (KEYS (BaseStore.prefixKey this "*")) w) as [[ks|e] w'];
    cbn [lift settle abind mapM bind concat]; [|reflexivity].
  rewrite app_nil_r. cbn [reply] in ks. destruct ks; reflexivity.
Qed.

(** The answers of the client to KEYS for each pattern in turn, and the
    state of the store afterwards. *)
Fixpoint lookups {W : Type} (redis : client W) (this : BaseStore.BaseStore)
  (patterns : list string) (w : W) : list (result (list string)) * W :=
  match patterns with
  | [] => ([], w)
  | p :: ps =>
      let '(r, w1) := redis (KEYS (BaseStore.prefixKey this p)) w in
      let '(rs, w2) := lookups redis this ps w1 in
      (r :: rs, w2)
  end.

Lemma settle_lift {A : Type} (r : result A) : settle (lift r) = Return r.
Proof. destruct r; reflexivity. Qed.

Lemma run_settleAll_keys {W : Type} (redis : client W) (this : BaseStore.BaseStore)
  (patterns : list string) (w : W) (log : list command) :
  run redis (settleAll (map (BaseStore.keys this) patterns)) w log
  = {| settled := Ok (fst (lookups redis this patterns w));
       world := snd (lookups redis this patterns w);
       sent := (log ++ map (fun p => KEYS (BaseStore.prefixKey this p)) patterns)%list |}.
Proof.
  revert w log. induction patterns as [|p ps IH]; intros w log.
  - cbn. now rewrite app_nil_r.
  - cbn [map settleAll lookups]. unfold BaseStore.keys at 1, send.
    cbn [settle abind run].
    destruct (redis (KEYS (BaseStore.prefixKey this p)) w) as [r w1].
    rewrite settle_lift. cbn [abind]. rewrite run_abind, IH. cbn [settled world sent run].
    destruct (lookups redis this ps w1) as [rs w2]. cbn [fst snd].
    now rewrite <- app_assoc.
Qed.

(** X14.  [delPatterns] looks every pattern up, with the prefix of the store,
    in the order of the call, and deletes what was found with one DEL:
    the keys of all the answers, in that order.  When nothing was found
    it resolves with 0 and sends no DEL; when a lookup was rejected it
    rejects, after all the lookups, and deletes nothing. *)
Theorem delPatterns_deletes_what_the_patterns_match (this : BaseStore.BaseStore)
  (patterns : list string) (W : Type) (redis : client W) (w : W) :
  patterns <> [] ->
  let asked := map (fun p => KEYS (BaseStore.prefixKey this p)) patterns in
  let answers := fst (lookups redis this patterns w) in
  let w1 := snd (lookups redis this patterns w) in
  run redis (BaseStore.delPatterns this patterns) w []
  = match mapM (fun r => r) answers with
    | Throw e => {| settled := Throw e; world := w1; sent := asked |}
    | Ok found =>
        match concat found with
        | [] => {| settled := Ok 0%Z; world := w1; sent := asked |}
        | ks => {| settled := fst (redis (DEL ks) w1);
                   world := snd (redis (DEL ks) w1);
                   sent := (asked ++ [DEL ks])%list |}
        end
    end.
Proof.
  intros Hne asked answers w1. destruct patterns as [|p ps]; [now elim Hne|].
  unfold BaseStore.delPatterns, all. rewrite !run_abind, run_settleAll_keys.
  cbn [settled world sent List.app]. fold asked. fold answers. fold w1.
  rewrite run_lift. cbn [settled world sent].
  destruct (mapM (fun r => r) answers) as [found|e]; [|reflexivity].
  destruct (concat found) as [|k ks]; [reflexivity|].
  exact (run_send redis (DEL (k :: ks)) w1 asked).
Qed.

(** A client for the examples: it lists the keys [user:1] and [user:2]
    for every pattern, holds the text [one] at [user:1] and nothing at
    any other key, and counts the keys it is asked to delete. *)
Definition exampleClient : client unit := fun c w =>
  match c return result (reply c) * unit with
  | DEL ks => (Ok (Z.of_nat (List.length ks)), tt)
  | KEYS _ => (Ok ["user:1"; "user:2"], tt)
  | MGET ks =>
      (Ok (map (fun k => if String.eqb k "user:1" then Some "one" else None) ks), tt)
  | FT_INFO _ => (Throw (Error "Unknown index name"), tt)
  | FT_SEARCH _ _ _ => (Ok {| total := 0; documents := [] |}, tt)
  end.

(** The options [{prefix: "user"}]. *)
Definition userOptions : BaseStore.RedisStoreOptions :=
  {| BaseStore.separator := None; BaseStore.prefix := "user";
     BaseStore.ttl := None; BaseStore.keygen := None |}.

(** The statement at [mGetMap("1", "2")] and [mGetCleanMap("1", "2")] on
    the store of strings with the prefix [user]. *)
Lemma mGetMap_pairs_the_ids_with_the_values_witness :
  run exampleClient
    (BaseStringStore.mGetMap (StringStoreMethods.StringStore userOptions)
       [VString "1"; VString "2"]) tt []
  = {| settled := Ok [("1", Some "one"); ("2", None)]; world := tt;
       sent := [MGET ["user:1"; "user:2"]] |}
  /\ run exampleClient
       (BaseStringStore.mGetCleanMap (StringStoreMethods.StringStore userOptions)
          [VString "1"; VString "2"]) tt []
     = {| settled := Ok [("1", "one")]; world := tt;
          sent := [MGET ["user:1"; "user:2"]] |}.
Proof.
  destruct (mGetMap_pairs_the_ids_with_the_values string
              (StringStoreMethods.StringStore userOptions)
              [VString "1"; VString "2"] ["1"; "2"] [Some "one"; None] [Some "one"; None]
              unit exampleClient tt tt ltac:(discriminate) eq_refl eq_refl eq_refl eq_refl)
    as [H1 [H2 _]].
  exact (conj H1 H2).
Defined.

(** The statement on the store of strings with the prefix [user]. *)
Lemma getAll_reads_the_keys_that_KEYS_reports_witness :
  run exampleClient (StringStoreMethods.getAll (StringStoreMethods.StringStore userOptions))
    tt []
  = {| settled := Ok ["one"]; world := tt;
       sent := [KEYS "user:*"; MGET ["user:1"; "user:2"]] |}.
Proof.
  exact (getAll_reads_the_keys_that_KEYS_reports string StringParsers.stringParser
           userOptions ["user:1"; "user:2"] unit exampleClient tt tt
           eq_refl eq_refl eq_refl).
Defined.

(** The statement at [delPatterns("a*", "b*")] on the store with the
    prefix [user]. *)
Lemma delPatterns_deletes_what_the_patterns_match_witness :
  run exampleClient (BaseStore.delPatterns (BaseStore.new userOptions) ["a*"; "b*"]) tt []
  = {| settled := Ok 4%Z; world := tt;
       sent := [KEYS "user:a*"; KEYS "user:b*";
                DEL ["user:1"; "user:2"; "user:1"; "user:2"]] |}.
Proof.
  exact (delPatterns_deletes_what_the_patterns_match (BaseStore.new userOptions)
           ["a*"; "b*"] unit exampleClient tt ltac:(discriminate)).
Defined.

End BatchFacts.

(* ===================================================================== *)
(** * Running the methods that write *)
(* ===================================================================== *)

Module CommandsFacts.
Import JS Commands.

Lemma commands_run_abind {W A B : Type} (redis : client W) (p : async A)
  (f : A -> async B) (w : W) (log : list command) :
  run redis (abind p f) w log
  = match settled (run redis p w log) with
    | Ok a => run redis (f a) (world (run redis p w log)) (sent (run redis p w log))
    | Throw e => {| settled := Throw e;
                    world := world (run redis p w log);
                    sent := sent (run redis p w log) |}
    end.
Proof.
  revert w log. induction p as [a|e|c k IH]; intros w log; cbn [abind run];
    try reflexivity.
  destruct (redis c w) as [r w']. apply IH.
Qed.

Lemma commands_run_lift {W A : Type} (redis : client W) (r : result A) (w : W)
  (log : list command) :
  run redis (lift r) w log = {| settled := r; world := w; sent := log |}.
Proof. destruct r; reflexivity. Qed.

Lemma commands_run_send {W : Type} (redis : client W) (c : command) (w : W)
  (log : list command) :
  run redis (send c) w log
  = {| settled := fst (redis c w); world := snd (redis c w); sent := (log ++ [c])%list |}.
Proof.
  unfold send. cbn [run]. destruct (redis c w) as [r w']. apply commands_run_lift.
Qed.

(** The client that a method of the modules above sees. *)
Definition narrow {W : Type} (redis : client W) : Client.client W :=
  fun c w => redis (Batch c) w.

Lemma run_widen_log {W A : Type} (redis : client W) (p : Client.async A) (w : W)
  (log : list command) (log' : list Client.command) :
  run redis (widen p) w (log ++ map Batch log')%list
  = {| settled := Client.settled (Client.run (narrow redis) p w log');
       world := Client.world (Client.run (narrow redis) p w log');
       sent := (log ++ map Batch (Client.sent (Client.run (narrow redis) p w log')))%list |}.
Proof.
  revert w log'. induction p as [a|e|c k IH]; intros w log'; cbn [widen run Client.run];
    try reflexivity.
  unfold narrow at 1 3 5. destruct (redis (Batch c) w) as [r w'].
  rewrite <- (IH r w' (log' ++ [c])%list). f_equal.
  now rewrite map_app, app_assoc.
Qed.

Lemma run_widen {W A : Type} (redis : client W) (p : Client.async A) (w : W)
  (log : list command) :
  run redis (widen p) w log
  = {| settled := Client.settled (Client.run (narrow redis) p w []);
       world := Client.world (Client.run (narrow redis) p w []);
       sent := (log ++ map Batch (Client.sent (Client.run (narrow redis) p w [])))%list |}.
Proof.
  rewrite <- (run_widen_log redis p w log []). cbn [map]. now rewrite app_nil_r.
Qed.

End CommandsFacts.

(* ===================================================================== *)
(** * The methods that write *)
(* ===================================================================== *)

Module WriteFacts.
Import JS Commands CommandsFacts BaseStoreFacts JsonFacts WalkFacts.
Local Open Scope commands_scope.

Lemma getProperty_setProperty {A : Type} (k : string) (v : A) (o : list (string * A)) :
  getProperty (setProperty k v o) k = Some v.
Proof.
  induction o as [|[k' v'] o IH]; cbn [setProperty getProperty].
  - now rewrite String.eqb_refl.
  - destruct (String.eqb k k') eqn:E; cbn [getProperty]; now rewrite E.
Qed.

(** X15.  [set] and [get] of the stores of strings: [set] sends one SET, of the
    text that the parser wrote, at the key of the ID; the expiry it asks
    for is the time to live of the store when that is set and not 0,
    whatever the caller asked for, and the options of the caller are sent
    as they are otherwise.  [get], answered with that text, resolves with
    what the parser reads from it; answered with [null], it resolves with
    [null] without calling the parser. *)
Theorem get_reads_what_set_wrote (T : Type) (store : BaseStringStore.BaseStringStore T)
  (id : value) (v : T) (k text : string) (options : option (list (string * value)))
  (W : Type) (redis : client W) (w : W) :
  let this := BaseStringStore.base store in
  let given := match options with
               | Some o => o
               | None => []
               end in
  BaseStore.toKey this id = Ok k ->
  serialize (BaseStringStore.valueParser store) v = Ok text ->
  (exists asked,
     sent (run redis (StringStoreMethods.set store id v options) w []) = [SET k text asked]
     /\ match BaseStore.store_ttl this with
        | Some ttl =>
            if truthy (VNumber ttl) then getProperty asked "EX" = Some (VNumber ttl)
            else asked = given
        | None => asked = given
        end)
  /\ (fst (redis (GET k) w) = Ok (Some text) ->
      run redis (StringStoreMethods.get store id) w []
      = {| settled := fmap Some (deserialize (BaseStringStore.valueParser store) text);
           world := snd (redis (GET k) w); sent := [GET k] |})
  /\ (fst (redis (GET k) w) = Ok None ->
      run redis (StringStoreMethods.get store id) w []
      = {| settled := Ok None; world := snd (redis (GET k) w); sent := [GET k] |}).
Proof.
  intros this given Hk Ht. split; [|split].
  - unfold StringStoreMethods.set. cbv zeta. fold this. rewrite Hk, Ht.
    cbn [lift abind send run]. eexists.
    destruct (redis (SET k text _) w) as [r w']. rewrite commands_run_lift.
    split; [reflexivity|].
    destruct (BaseStore.store_ttl this) as [ttl|]; [|reflexivity].
    destruct (truthy (VNumber ttl)); [apply getProperty_setProperty | reflexivity].
  - intros Hr. unfold StringStoreMethods.get. cbv zeta. fold this. rewrite Hk.
    cbn [lift abind send run]. destruct (redis (GET k) w) as [r w'].
    cbn [fst snd] in *. subst r. cbn [lift abind]. now rewrite commands_run_lift.
  - intros Hr. unfold StringStoreMethods.get. cbv zeta. fold this. rewrite Hk.
    cbn [lift abind send run]. destruct (redis (GET k) w) as [r w'].
    cbn [fst snd] in *. subst r. reflexivity.
Qed.

Lemma staleKeys_spec (oKeys keys : list string) (k : string) :
  In k (StringStoreMethods.staleKeys oKeys keys) <-> In k oKeys /\ ~ In k keys.
Proof.
  unfold StringStoreMethods.staleKeys. rewrite filter_In. split.
  - intros [Hin Hn]. split; [exact Hin|]. intros Hk.
    apply negb_true_iff in Hn.
    assert (E : existsb (String.eqb k) keys = true).
    { apply existsb_exists. exists k. split; [exact Hk | apply String.eqb_refl]. }
    congruence.
  - intros [Hin Hn]. split; [exact Hin|]. apply negb_true_iff.
    destruct (existsb (String.eqb k) keys) eqn:E; [|reflexivity].
    apply existsb_exists in E as [k' [Hk' Heq]]. apply String.eqb_eq in Heq. subst k'.
    now elim Hn.
Qed.

Lemma staleKeys_of_nothing (oKeys : list string) :
  StringStoreMethods.staleKeys oKeys [] = oKeys.
Proof.
  unfold StringStoreMethods.staleKeys. induction oKeys as [|k ks IH]; [reflexivity|].
  cbn [filter existsb negb]. f_equal. exact IH.
Qed.

(** The pairs that [mSet] sends. *)
Definition mappedPairs {T : Type} (store : BaseStringStore.BaseStringStore T)
  (kvs : list (value * T)) : result (list (string * string)) :=
  mapM (fun kv =>
          bind (BaseStore.toKey (BaseStringStore.base store) (fst kv)) (fun k =>
          bind (serialize (BaseStringStore.valueParser store) (snd kv)) (fun text =>
            Ok (k, text)))) kvs.

Lemma mappedPairs_keys {T : Type} (store : BaseStringStore.BaseStringStore T)
  (kvs : list (value * T)) (pairs : list (string * string)) :
  mappedPairs store kvs = Ok pairs ->
  mapM (fun kv => BaseStore.toKey (BaseStringStore.base store) (fst kv)) kvs
  = Ok (map fst pairs).
Proof.
  unfold mappedPairs. revert pairs. induction kvs as [|[id v] kvs IH]; intros pairs;
    cbn [mapM fst snd].
  - intros H. now injection H as <-.
  - destruct (BaseStore.toKey (BaseStringStore.base store) id) as [k|e];
      cbn [bind]; [|discriminate].
    destruct (serialize (BaseStringStore.valueParser store) v) as [text|e];
      cbn [bind]; [|discriminate].
    destruct (mapM _ kvs) as [ps|e] eqn:E; cbn [bind]; [|discriminate].
    intros H. injection H as <-. now rewrite (IH ps eq_refl).
Qed.

Lemma run_getAllKeys {W : Type} (redis : client W) (this : BaseStore.BaseStore) (w : W)
  (log : list command) :
  run redis (widen (BaseStore.getAllKeys this)) w log
  = {| settled := fst (redis (Batch (Client.KEYS (BaseStore.prefixKey this "*"))) w);
       world := snd (redis (Batch (Client.KEYS (BaseStore.prefixKey this "*"))) w);
       sent := (log ++ [Batch (Client.KEYS (BaseStore.prefixKey this "*"))])%list |}.
Proof.
  unfold BaseStore.getAllKeys, BaseStore.keys, Client.send. cbn [widen run].
  destruct (redis (Batch (Client.KEYS (BaseStore.prefixKey this "*"))) w) as [[ks|e] w'];
    reflexivity.
Qed.

Lemma run_mSet {W T : Type} (redis : client W) (store : BaseStringStore.BaseStringStore T)
  (kvs : list (value * T)) (pairs : list (string * string)) (w : W) (log : list command) :
  mappedPairs store kvs = Ok pairs ->
  run redis (_ <- StringStoreMethods.mSet store kvs ;; Return tt) w log
  = {| settled := fmap (fun _ => tt) (fst (redis (MSET pairs) w));
       world := snd (redis (MSET pairs) w);
       sent := (log ++ [MSET pairs])%list |}.
Proof.
  intros H. unfold StringStoreMethods.mSet. cbv zeta. unfold mappedPairs in H. rewrite H.
  cbn [lift abind send run].
  destruct (redis (MSET pairs) w) as [[ok|e] w']; reflexivity.
Qed.

(** X16.  [reload] of the stores of strings writes the pairs it is given and
    deletes the keys of the store that it did not write.  Given at least
    one pair, all of which the keygen and the parser serialize, it lists
    the keys of the store, sends one MSET with a pair for each pair given
    (the key of the ID, the text of the value, in the order given) and
    then, when MSET was accepted, one DEL for the listed keys that are not
    among those written, unless there is none.  It never deletes a key
    that it wrote, and deletes nothing when MSET was rejected. *)
Theorem reload_deletes_the_keys_it_did_not_write (T : Type)
  (store : BaseStringStore.BaseStringStore T) (kvs : list (value * T))
  (pairs : list (string * string)) (oKeys : list string)
  (W : Type) (redis : client W) (w : W) :
  let this := BaseStringStore.base store in
  let listing := Batch (Client.KEYS (BaseStore.prefixKey this "*")) in
  let w1 := snd (redis listing w) in
  let written := redis (MSET pairs) w1 in
  let stale := StringStoreMethods.staleKeys oKeys (map fst pairs) in
  kvs <> [] ->
  mappedPairs store kvs = Ok pairs ->
  fst (redis listing w) = Ok oKeys ->
  run redis (StringStoreMethods.reload store kvs) w []
  = match fst written with
    | Throw e => {| settled := Throw e; world := snd written;
                    sent := [listing; MSET pairs] |}
    | Ok _ =>
        match stale with
        | [] => {| settled := Ok tt; world := snd written;
                   sent := [listing; MSET pairs] |}
        | _ =>
            {| settled := fmap (fun _ => tt) (fst (redis (Batch (Client.DEL stale))
                                                     (snd written)));
               world := snd (redis (Batch (Client.DEL stale)) (snd written));
               sent := [listing; MSET pairs; Batch (Client.DEL stale)] |}
        end
    end
  /\ (forall k, In k stale <-> In k oKeys /\ ~ In k (map fst pairs)).
Proof.
  intros this listing w1 written stale Hne Hpairs Hlist.
  split; [|intros k; apply staleKeys_spec].
  pose proof (mappedPairs_keys store kvs pairs Hpairs) as Hkeys. fold this in Hkeys.
  unfold StringStoreMethods.reload. cbv zeta. fold this. rewrite Hkeys.
  cbn [lift abind]. rewrite commands_run_abind, run_getAllKeys.
  fold listing. cbn [settled world sent List.app]. rewrite Hlist. fold w1.
  destruct kvs as [|kv kvs']; [now elim Hne|].
  rewrite commands_run_abind, (run_mSet redis store (kv :: kvs') pairs w1 [listing] Hpairs).
  fold written. cbn [settled world sent List.app].
  destruct (fst written) as [ok|e]; cbn [fmap bind]; [|reflexivity].
  fold stale. destruct stale as [|k ks]; [reflexivity|].
  cbn [send abind run List.app].
  destruct (redis (Batch (Client.DEL (k :: ks))) (snd written)) as [[n|e] w3]; reflexivity.
Qed.

(** X17.  A [Map] handed to [mSet] or [reload] of [JsonStore] is read as no
    entry at all: [toKeyValues] reads the enumerable properties of what is
    not an array, and a [Map] has none.  So [mSet] of a [Map] sends
    JSON.MSET with no item, and [reload] of a [Map] writes nothing and
    deletes every key that the store lists. *)
Theorem JsonStore_reads_a_Map_as_no_entry (this : BaseStore.BaseStore)
  (entries : list (string * value)) (oKeys : list string)
  (W : Type) (redis : client W) (w : W) :
  let listing := Batch (Client.KEYS (BaseStore.prefixKey this "*")) in
  fst (redis listing w) = Ok oKeys ->
  JsonStore.toKeyValues this (JsonStore.AsMap entries) = []
  /\ sent (run redis (JsonStore.mSet this (JsonStore.AsMap entries)) w []) = [JSON_MSET []]
  /\ sent (run redis (JsonStore.reload this (JsonStore.AsMap entries)) w [])
     = match oKeys with
       | [] => [listing]
       | _ => [listing; Batch (Client.DEL oKeys)]
       end.
Proof.
  intros listing Hlist. split; [reflexivity|]. split.
  - unfold JsonStore.mSet. cbn [JsonStore.toKeyValues mapM lift abind send run].
    destruct (redis (JSON_MSET []) w) as [[ok|e] w']; reflexivity.
  - unfold JsonStore.reload. cbn [JsonStore.toKeyValues mapM lift abind].
    rewrite commands_run_abind, run_getAllKeys. fold listing.
    cbn [settled world sent List.app]. rewrite Hlist.
    cbn [abind]. rewrite staleKeys_of_nothing.
    destruct oKeys as [|k ks]; [reflexivity|].
    cbn [send abind run List.app].
    destruct (redis (Batch (Client.DEL (k :: ks))) (snd (redis listing w)))
      as [[n|e] w3]; reflexivity.
Qed.

Lemma restoredByWalk_valid_dates (v : value) :
  restoredByWalk v = true -> holdsInvalidDate v = false.
Proof.
  induction v as [| |b|x|s|d|l IH|ps IH] using value_induction; intros Hv;
    try reflexivity.
  - destruct d; [discriminate | reflexivity].
  - cbn [restoredByWalk holdsInvalidDate] in *. apply forallb_Forall in Hv.
    induction IH as [|e l He _ IHl]; [reflexivity|].
    inversion Hv; subst. cbn [existsb]. rewrite He, IHl; auto.
  - cbn [restoredByWalk holdsInvalidDate] in *. apply andb_prop in Hv as [_ Hv].
    apply forallb_Forall in Hv.
    induction IH as [|[k e] l He _ IHl]; [reflexivity|].
    inversion Hv; subst. cbn [existsb snd] in *. rewrite He, IHl; auto.
Qed.

(** X18.  [get] of [JsonStore] restores what [set] stored.  For a value that
    the walk restores (no string that is the sentinel of the absent value
    or starts with the prefix of dates, valid Dates, no repeated key),
    [set] sends one JSON.SET at the key of the ID and the path [$], with a
    document that holds neither [undefined] nor a Date; and [get],
    answered with that document by any client, resolves with the value,
    its absent values and Dates restored at any depth. *)
Theorem JsonStore_get_restores_what_set_stored (this : BaseStore.BaseStore)
  (id v : value) (k : string) (W : Type) (redis : client W) (w : W) :
  restoredByWalk v = true ->
  BaseStore.toKey this id = Ok k ->
  exists document,
    storable document = true
    /\ sent (run redis (JsonStore.set this id v) w []) = [JSON_SET k "$" document]
    /\ forall (W' : Type) (redis' : client W') (w' : W'),
         fst (redis' (JSON_GET k) w') = Ok document ->
         run redis' (JsonStore.get this id) w' []
         = {| settled := Ok v; world := snd (redis' (JSON_GET k) w');
              sent := [JSON_GET k] |}.
Proof.
  intros Hv Hk.
  destruct (recursiveSerialize_restoredByWalk v Hv) as [j [Hj Hback]].
  pose proof (recursiveSerialize_outcome v) as Ho.
  rewrite (restoredByWalk_valid_dates v Hv), Hj in Ho.
  destruct Ho as [j' [E [Hs _]]]. injection E as <-.
  exists j. split; [exact Hs|]. split.
  - unfold JsonStore.set, JsonStore.serializeValue. rewrite Hk, Hj.
    cbn [lift abind send run].
    destruct (redis (JSON_SET k "$" j) w) as [[ok|e] w']; reflexivity.
  - intros W' redis' w' Hr. unfold JsonStore.get, JsonStore.parseValue. rewrite Hk.
    cbn [lift abind send run].
    destruct (redis' (JSON_GET k) w') as [r w'']. cbn [fst snd] in *. subst r.
    cbn [lift abind run]. now rewrite Hback.
Qed.

(** X19.  [reset] of a [RedisSet] removes the members that the set reports.
    With the default keygen, when the client answers SMEMBERS with the
    members, [reset] sends one SREM with exactly these members, in that
    order, and resolves with its reply; on a set without members it
    resolves with [undefined] and sends no SREM. *)
Theorem RedisSet_reset_removes_the_members (options : RedisSet.RedisSetOptions)
  (ms : list string) (W : Type) (redis : client W) (w : W) :
  let this := RedisSet.new options in
  let listing := SMEMBERS (RedisSet.set_key this) in
  let w1 := snd (redis listing w) in
  RedisSet.keygen options = None ->
  fst (redis listing w) = Ok ms ->
  run redis (RedisSet.reset this) w []
  = match ms with
    | [] => {| settled := Ok None; world := w1; sent := [listing] |}
    | _ =>
        {| settled := fmap Some (fst (redis (SREM (RedisSet.set_key this) ms) w1));
           world := snd (redis (SREM (RedisSet.set_key this) ms) w1);
           sent := [listing; SREM (RedisSet.set_key this) ms] |}
    end.
Proof.
  intros this listing w1 Hk Hr.
  assert (Hser : forall l : list string,
            mapM (RedisSet.serializeKey this) (map (RedisSet.parseKey this) l) = Ok l).
  { intros l. unfold RedisSet.serializeKey, RedisSet.parseKey, this, RedisSet.new.
    cbn [RedisSet.set_keygen]. rewrite Hk.
    induction l as [|m l IH]; [reflexivity|].
    cbn [map mapM Interfaces.parse Interfaces.serialize Interfaces.DEFAULT_KEYGEN bind] in *.
    now rewrite IH. }
  unfold RedisSet.reset, RedisSet.members. cbn [send abind run]. fold listing.
  destruct (redis listing w) as [r w0] eqn:E. cbn [fst snd] in *. subst r w1.
  cbn [lift abind]. destruct ms as [|m ms']; [reflexivity|].
  set (members := m :: ms') in *.
  destruct (map (RedisSet.parseKey this) members) as [|i l] eqn:Ei; [discriminate Ei|].
  rewrite <- Ei. unfold RedisSet.remove. rewrite Hser.
  cbn [lift abind send run List.app].
  destruct (redis (SREM (RedisSet.set_key this) members) w0) as [[n|e] w2]; reflexivity.
Qed.

Lemma run_hasIndexChanged {W : Type} (redis : client W)
  (this : JsonSearchStore.JsonSearchStore) (w : W) (log : list command) :
  run redis (widen (JsonSearchStore.hasIndexChanged this)) w log
  = {| settled := bind (fst (redis (Batch (Client.FT_INFO (JsonSearchStore.INDEX this))) w))
                    (JsonSearchStore.indexChanged this);
       world := snd (redis (Batch (Client.FT_INFO (JsonSearchStore.INDEX this))) w);
       sent := (log ++ [Batch (Client.FT_INFO (JsonSearchStore.INDEX this))])%list |}.
Proof.
  unfold JsonSearchStore.hasIndexChanged, Client.send. cbn [Client.abind widen run].
  destruct (redis (Batch (Client.FT_INFO (JsonSearchStore.INDEX this))) w) as [[info|e] w'];
    cbn [fst snd bind Client.lift Client.abind]; [|reflexivity].
  destruct (JsonSearchStore.indexChanged this info); reflexivity.
Qed.

(** X20.  The reconciliation of the index by [init].  When the index is not
    among those that the client lists, [init] creates it.  When it is,
    [init] asks for its description: it leaves an index that compares as
    unchanged alone, it drops an index that compares as changed and, once
    the drop was accepted, creates it again; when the comparison throws,
    or the drop is rejected, it rejects and creates nothing. *)
Theorem init_creates_reuses_or_recreates_the_index (this : JsonSearchStore.JsonSearchStore)
  (idxList : list string) (W : Type) (redis : client W) (w : W) :
  let index := JsonSearchStore.INDEX this in
  let creation := FT_CREATE index (JsonSearchStore.this_schema this)
                    (JsonSearchStore.createOptions this) in
  let description := Batch (Client.FT_INFO index) in
  let w1 := snd (redis FT_LIST w) in
  let w2 := snd (redis description w1) in
  let w3 := snd (redis (FT_DROPINDEX index) w2) in
  fst (redis FT_LIST w) = Ok idxList ->
  (~ In index idxList ->
   run redis (JsonSearchIndex.init this) w []
   = {| settled := fmap (fun _ => tt) (fst (redis creation w1));
        world := snd (redis creation w1); sent := [FT_LIST; creation] |})
  /\ (In index idxList ->
      forall rawInfo, fst (redis description w1) = Ok rawInfo ->
        match JsonSearchStore.indexChanged this rawInfo with
        | Ok false =>
            run redis (JsonSearchIndex.init this) w []
            = {| settled := Ok tt; world := w2; sent := [FT_LIST; description] |}
        | Ok true =>
            match fst (redis (FT_DROPINDEX index) w2) with
            | Ok _ =>
                run redis (JsonSearchIndex.init this) w []
                = {| settled := fmap (fun _ => tt) (fst (redis creation w3));
                     world := snd (redis creation w3);
                     sent := [FT_LIST; description; FT_DROPINDEX index; creation] |}
            | Throw e =>
                run redis (JsonSearchIndex.init this) w []
                = {| settled := Throw e; world := w3;
                     sent := [FT_LIST; description; FT_DROPINDEX index] |}
            end
        | Throw e =>
            run redis (JsonSearchIndex.init this) w []
            = {| settled := Throw e; world := w2; sent := [FT_LIST; description] |}
        end).
Proof.
  intros index creation description w1 w2 w3 Hlist.
  assert (Hcreate : forall (w0 : W) (log : list command),
            run redis (JsonSearchIndex.create this) w0 log
            = {| settled := fmap (fun _ => tt) (fst (redis creation w0));
                 world := snd (redis creation w0); sent := (log ++ [creation])%list |}).
  { intros w0 log. unfold JsonSearchIndex.create. fold index. fold creation.
    cbn [send abind run].
    destruct (redis creation w0) as [[ok|e] w']; reflexivity. }
  assert (Hin : existsb (fun i => String.eqb i index) idxList = true <-> In index idxList).
  { rewrite existsb_exists. split.
    - intros [i [Hi E]]. apply String.eqb_eq in E. now subst i.
    - intros Hi. exists index. split; [exact Hi | apply String.eqb_refl]. }
  unfold JsonSearchIndex.init. fold index.
  cbn [send abind run]. destruct (redis FT_LIST w) as [r w0] eqn:E0.
  cbn [fst snd] in *. subst r. subst w1. cbn [lift abind].
  split.
  - intros Hnot. destruct (existsb (fun i => String.eqb i index) idxList) eqn:Ex.
    + elim Hnot. now apply Hin.
    + apply Hcreate.
  - intros Hi rawInfo Hinfo. rewrite (proj2 Hin Hi).
    rewrite commands_run_abind, run_hasIndexChanged. fold index. fold description.
    cbn [settled world sent List.app]. rewrite Hinfo. cbn [bind]. fold w2.
    destruct (JsonSearchStore.indexChanged this rawInfo) as [[|]|e]; try reflexivity.
    cbn [send abind run List.app]. subst w3.
    destruct (redis (FT_DROPINDEX index) w2) as [[ok|e] w''] eqn:E2; cbn [fst snd lift abind].
    + apply Hcreate.
    + reflexivity.
Qed.

(** A client for the examples.  It answers the commands of [Client] as
    the client of the examples above does, but for FT.INFO, which it
    answers with the description of an index on JSON documents with the
    fields [status] and [tag] and the one, empty, prefix; it holds the
    text [42] at the key [n:a], the members [a] and [b] in every set, and
    the index [idx]; it accepts every write. *)
Definition exampleServer : client unit := fun c w =>
  match c return result (reply c) * unit with
  | Batch (Client.FT_INFO _) =>
      (Ok {| Client.attributes :=
               [[("identifier", VString "$.status"); ("attribute", VString "status");
                 ("type", VString "TEXT")];
                [("identifier", VString "$.tag"); ("attribute", VString "tag");
                 ("type", VString "TAG")]];
             Client.indexDefinition :=
               {| Client.key_type := "JSON"; Client.prefixes := [""];
                  Client.default_score := "1" |} |}, tt)
  | Batch c => BatchFacts.exampleClient c w
  | GET k => (Ok (if String.eqb k "n:a" then Some "42" else None), tt)
  | SET _ _ _ => (Ok (Some "OK"), tt)
  | MSET _ => (Ok "OK", tt)
  | SADD _ ms | SREM _ ms => (Ok (Z.of_nat (List.length ms)), tt)
  | SISMEMBER _ _ => (Ok true, tt)
  | SMEMBERS _ => (Ok ["a"; "b"], tt)
  | SMISMEMBER _ ms => (Ok (map (fun _ => true) ms), tt)
  | JSON_GET _ =>
      (Ok (VObject [("at", VString "REDIS_DATE:1970-01-01T00:00:00.000Z")]), tt)
  | JSON_MGET ks _ => (Ok (map (fun _ => VNull) ks), tt)
  | JSON_SET _ _ _ => (Ok (Some "OK"), tt)
  | JSON_MSET _ => (Ok "OK", tt)
  | FT_LIST => (Ok ["idx"], tt)
  | FT_DROPINDEX _ => (Ok "OK", tt)
  | FT_CREATE _ _ _ => (Ok "OK", tt)
  end.

(** The store of numbers with the prefix [n] and a time to live of 60
    seconds. *)
Definition numbersFor60s : BaseStringStore.BaseStringStore number :=
  StringStoreMethods.NumberStore
    {| BaseStore.separator := None; BaseStore.prefix := "n";
       BaseStore.ttl := Some (number_of_Z 60); BaseStore.keygen := None |}.

(** The statement at [set("a", 42, {EX: 5})], [get("a")] and [get("b")] on
    the store of numbers with the prefix [n] and a time to live of 60. *)
Lemma get_reads_what_set_wrote_witness :
  (exists asked,
     sent (run exampleServer
             (StringStoreMethods.set numbersFor60s (VString "a") (number_of_Z 42)
                (Some [("EX", VNumber (number_of_Z 5))])) tt [])
     = [SET "n:a" "42" asked]
     /\ getProperty asked "EX" = Some (VNumber (number_of_Z 60)))
  /\ run exampleServer (StringStoreMethods.get numbersFor60s (VString "a")) tt []
     = {| settled := Ok (Some (number_of_Z 42)); world := tt; sent := [GET "n:a"] |}.
Proof.
  destruct (get_reads_what_set_wrote number numbersFor60s (VString "a") (number_of_Z 42)
              "n:a" "42" (Some [("EX", VNumber (number_of_Z 5))]) unit exampleServer tt
              eq_refl eq_refl) as [Hset [Hget _]].
  split; [exact Hset | exact (Hget eq_refl)].
Defined.

(** The statement at [reload([["1", "x"]])] on the store of strings with
    the prefix [user], which lists the keys [user:1] and [user:2]. *)
Lemma reload_deletes_the_keys_it_did_not_write_witness :
  run exampleServer
    (StringStoreMethods.reload (StringStoreMethods.StringStore BatchFacts.userOptions)
       [(VString "1", "x")]) tt []
  = {| settled := Ok tt; world := tt;
       sent := [Batch (Client.KEYS "user:*"); MSET [("user:1", "x")];
                Batch (Client.DEL ["user:2"])] |}.
Proof.
  exact (proj1 (reload_deletes_the_keys_it_did_not_write string
                  (StringStoreMethods.StringStore BatchFacts.userOptions)
                  [(VString "1", "x")] [("user:1", "x")] ["user:1"; "user:2"]
                  unit exampleServer tt ltac:(discriminate) eq_refl eq_refl)).
Defined.

(** The statement at [reload(new Map([["1", {}]]))] on the store with the
    prefix [user], which lists the keys [user:1] and [user:2]. *)
Lemma JsonStore_reads_a_Map_as_no_entry_witness :
  sent (run exampleServer
          (JsonStore.reload (BaseStore.new BatchFacts.userOptions)
             (JsonStore.AsMap [("1", VObject [])])) tt [])
  = [Batch (Client.KEYS "user:*"); Batch (Client.DEL ["user:1"; "user:2"])].
Proof.
  exact (proj2 (proj2 (JsonStore_reads_a_Map_as_no_entry
                         (BaseStore.new BatchFacts.userOptions) [("1", VObject [])]
                         ["user:1"; "user:2"] unit exampleServer tt eq_refl))).
Defined.

(** The statement at [set("1", {at: new Date(0)})] on the store with the
    prefix [user]. *)
Lemma JsonStore_get_restores_what_set_stored_witness :
  exists document,
    storable document = true
    /\ sent (run exampleServer
               (JsonStore.set (BaseStore.new BatchFacts.userOptions) (VString "1")
                  (VObject [("at", VDate epoch)])) tt [])
       = [JSON_SET "user:1" "$" document]
    /\ forall (W' : Type) (redis' : client W') (w' : W'),
         fst (redis' (JSON_GET "user:1") w') = Ok document ->
         run redis' (JsonStore.get (BaseStore.new BatchFacts.userOptions) (VString "1")) w' []
         = {| settled := Ok (VObject [("at", VDate epoch)]);
              world := snd (redis' (JSON_GET "user:1") w');
              sent := [JSON_GET "user:1"] |}.
Proof.
  exact (JsonStore_get_restores_what_set_stored (BaseStore.new BatchFacts.userOptions)
           (VString "1") (VObject [("at", VDate epoch)]) "user:1" unit exampleServer tt
           eq_refl eq_refl).
Defined.

(** The statement on the set with the key [seen]. *)
Lemma RedisSet_reset_removes_the_members_witness :
  run exampleServer
    (RedisSet.reset (RedisSet.new {| RedisSet.key := "seen"; RedisSet.keygen := None |}))
    tt []
  = {| settled := Ok (Some 2%Z); world := tt;
       sent := [SMEMBERS "seen"; SREM "seen" ["a"; "b"]] |}.
Proof.
  exact (RedisSet_reset_removes_the_members
           {| RedisSet.key := "seen"; RedisSet.keygen := None |} ["a"; "b"]
           unit exampleServer tt eq_refl eq_refl).
Defined.

(** The statement on the store of the example, declared without a
    prefix, whose index [idx] the client lists and describes: the index
    compares as changed, and is dropped and created again. *)
Lemma init_creates_reuses_or_recreates_the_index_witness :
  run exampleServer (JsonSearchIndex.init QueryFacts.exampleStore) tt []
  = {| settled := Ok tt; world := tt;
       sent := [FT_LIST; Batch (Client.FT_INFO "idx"); FT_DROPINDEX "idx";
                FT_CREATE "idx" (JsonSearchStore.this_schema QueryFacts.exampleStore)
                  (JsonSearchStore.createOptions QueryFacts.exampleStore)] |}.
Proof.
  exact (proj2 (init_creates_reuses_or_recreates_the_index QueryFacts.exampleStore ["idx"]
                  unit exampleServer tt eq_refl)
           (or_introl eq_refl) _ eq_refl).
Defined.

End WriteFacts.

(* ===================================================================== *)
(** * The query compiler and the differ on every input *)
(* ===================================================================== *)

Module SearchFacts.
Import JS Client ClientFacts JsonSearchStore QueryFacts.

(** The filters that compile: at every AND the value is an array of
    filters that compile, at every OR an array of at least one; the value
    of any other key may be anything. *)
Fixpoint compiles (w : WhereInput) : bool :=
  match w with
  | Where entries => forallb (fun kv => entryCompiles (fst kv) (snd kv)) entries
  end
with entryCompiles (k : string) (v : WhereValue) : bool :=
  if String.eqb k "AND" then
    match v with
    | Conditions l => forallb compiles l
    | _ => false
    end
  else if String.eqb k "OR" then
    match v with
    | Conditions (w :: l) => compiles w && forallb compiles l
    | _ => false
    end
  else true.

Lemma mapM_succeeds {A B : Type} (f : A -> result B) (p : A -> bool) (l : list A) :
  Forall (fun x => (exists y, f x = Ok y) <-> p x = true) l ->
  (exists ys, mapM f l = Ok ys) <-> forallb p l = true.
Proof.
  induction 1 as [|x l Hx _ IH]; cbn [mapM forallb].
  - split; eauto.
  - split.
    + intros [ys H]. destruct (f x) as [y|e] eqn:Ex; cbn [bind] in H; [|discriminate].
      destruct (mapM f l) as [ys'|e] eqn:El; cbn [bind] in H; [|discriminate].
      apply andb_true_intro. split; [apply Hx | apply IH]; eauto.
    + intros H. apply andb_prop in H as [H1 H2].
      apply Hx in H1 as [y ->]. apply IH in H2 as [ys ->]. cbn [bind]. eauto.
Qed.

Lemma fmap_succeeds {A B : Type} (g : A -> B) (r : result A) :
  (exists y, fmap g r = Ok y) <-> (exists x, r = Ok x).
Proof.
  destruct r as [x|e]; cbn; split; intros [y H]; eauto; discriminate.
Qed.

(** X21.  [buildQuery] returns a query for exactly the filters that compile:
    it throws when, and only when, the value of an AND is not an array, the
    value of an OR is not an array or is the empty one, or a filter inside
    such an array does not compile. *)
Theorem buildQuery_returns_exactly_when_the_filter_compiles
  (this : JsonSearchStore) (w : WhereInput) :
  (exists q, buildQuery this w = Ok q) <-> compiles w = true.
Proof.
  revert w.
  apply (WhereInput_induction
           (fun w => (exists q, buildQuery this w = Ok q) <-> compiles w = true)
           (fun v => forall k, (exists q, buildEntry this k v = Ok q)
                               <-> entryCompiles k v = true)).
  - intros es IH. rewrite buildQuery_Where, fmap_succeeds. cbn [compiles].
    apply (mapM_succeeds (fun kv => buildEntry this (fst kv) (snd kv))).
    revert IH. apply Forall_impl. intros [k v] H. apply H.
  - intros v k. unfold entryCompiles.
    destruct (String.eqb k "AND") eqn:Ea.
    { apply String.eqb_eq in Ea. subst k. split; [intros [q H]|]; discriminate. }
    destruct (String.eqb k "OR") eqn:Eo.
    { apply String.eqb_eq in Eo. subst k. split; [intros [q H]|]; [|discriminate].
      destruct v as [| |b|x|[|c s]]; discriminate H. }
    rewrite (buildEntry_field this k v Ea Eo). split; eauto.
  - intros l IH k. unfold entryCompiles.
    destruct (String.eqb k "AND") eqn:Ea.
    { apply String.eqb_eq in Ea. subst k. rewrite buildEntry_AND, fmap_succeeds.
      now apply mapM_succeeds. }
    destruct (String.eqb k "OR") eqn:Eo.
    { apply String.eqb_eq in Eo. subst k. rewrite buildEntry_OR.
      destruct l as [|w0 l0]; [split; [intros [q H]|]; discriminate|].
      rewrite fmap_succeeds. now apply (mapM_succeeds (buildQuery this) compiles). }
    split; [reflexivity|]. intros _.
    unfold buildEntry. rewrite Ea, Eo. eauto.
  - intros w _ k. unfold entryCompiles.
    destruct (String.eqb k "AND") eqn:Ea.
    { apply String.eqb_eq in Ea. subst k. split; [intros [q H]|]; discriminate. }
    destruct (String.eqb k "OR") eqn:Eo.
    { apply String.eqb_eq in Eo. subst k. split; [intros [q H]|]; [|discriminate].
      destruct w as [entries]. cbn in H.
      destruct (getProperty entries "length") as [[x|l|c]|]; cbn in H;
        try discriminate H.
      destruct (truthy (value_of_primitive x)); discriminate H. }
    split; [reflexivity|]. intros _.
    unfold buildEntry. rewrite Ea, Eo. eauto.
Qed.

(** The LIMIT that [query] asks for. *)
Definition limitAsked (limit : option number) : SearchOptions :=
  {| LIMIT := match limit with
              | Some n => if truthy (VNumber n) then Some {| from := 0; size := n |} else None
              | None => None
              end |}.

(** What [query] resolves with for a reply. *)
Definition valuesOf (found : SearchReply) : list value := map doc_value (documents found).

Lemma run_query_terms {W : Type} (redis : client W) (this : JsonSearchStore)
  (opts : QueryOptions) (term : string) (terms : list string) (w : W) :
  queryTerms this opts = Ok (term :: terms) ->
  run redis (query this opts) w []
  = {| settled := fmap valuesOf
                    (fst (redis (FT_SEARCH (INDEX this) (join " " (term :: terms))
                                   (limitAsked (limit opts))) w));
       world := snd (redis (FT_SEARCH (INDEX this) (join " " (term :: terms))
                              (limitAsked (limit opts))) w);
       sent := [FT_SEARCH (INDEX this) (join " " (term :: terms)) (limitAsked (limit opts))] |}.
Proof.
  intros H. unfold query, rawQuery. rewrite H. cbn [lift abind send run].
  fold (limitAsked (limit opts)).
  destruct (redis (FT_SEARCH (INDEX this) (join " " (term :: terms))
                     (limitAsked (limit opts))) w) as [[found|e] w'];
    cbn [fst snd lift abind fmap bind]; [|reflexivity].
  unfold valuesOf. destruct (documents found); reflexivity.
Qed.

(** X22.  [query] with a filter sends one search, on the index of the store,
    with a LIMIT from 0 when a limit is given that is not 0, and resolves
    with the values of the documents found (it rejects as the client
    does).  With a text, the query is the compiled filter, a space and the
    text in parentheses (with its wildcards); with a text and fields, the
    compiled filter, a space and, in parentheses, a match of the text for
    each field, joined by [" | "]; with no text, or the empty one, the
    compiled filter alone, which is searched for even when it is the empty
    string. *)
Theorem query_sends_one_search (this : JsonSearchStore) (filter : WhereInput)
  (compiled text : string) (fields : list string) (limit : option number)
  (wildcard : option bool) (W : Type) (redis : client W) (w : W) :
  let opts given := {| search := given; where_ := Some filter;
                       limit := limit; wildcard := wildcard |} in
  let searches given (queried : string) :=
    run redis (query this (opts given)) w []
    = {| settled := fmap valuesOf
                      (fst (redis (FT_SEARCH (INDEX this) queried (limitAsked limit)) w));
         world := snd (redis (FT_SEARCH (INDEX this) queried (limitAsked limit)) w);
         sent := [FT_SEARCH (INDEX this) queried (limitAsked limit)] |} in
  buildQuery this filter = Ok compiled ->
  (text <> "" ->
   searches (Some (SearchString text))
     (compiled ++ " (" ++ addWildcard (opts None) text ++ ")"))
  /\ searches (Some (SearchFields text fields))
       (compiled ++ " ("
        ++ join " | " (map (fun k => "(@" ++ k ++ ":" ++ addWildcard (opts None) text ++ ")")
                          fields)
        ++ ")")
  /\ searches None compiled
  /\ searches (Some (SearchString "")) compiled.
Proof.
  intros opts searches Hq. unfold searches.
  assert (Hterms : forall given,
            queryTerms this (opts given)
            = bind (if searchGiven (opts given)
                    then match given with
                         | Some (SearchString t) => Ok ["(" ++ addWildcard (opts given) t ++ ")"]
                         | Some (SearchFields t fs) =>
                             Ok ["(" ++ join " | "
                                          (map (fun k => "(@" ++ k ++ ":"
                                                         ++ addWildcard (opts given) t ++ ")")
                                             fs) ++ ")"]
                         | Some (SearchOther v) =>
                             Throw (Error ("Unsupported search type: " ++ typeof v))
                         | None => Ok []
                         end
                    else Ok []) (fun fromSearch => Ok (compiled :: fromSearch))).
  { intros given. unfold queryTerms. cbn [where_ search opts]. rewrite Hq. reflexivity. }
  split; [|split; [|split]].
  - intros Ht.
    apply (run_query_terms redis this (opts (Some (SearchString text))) compiled
             ["(" ++ addWildcard (opts None) text ++ ")"] w).
    rewrite Hterms. destruct text as [|c t]; [now elim Ht | reflexivity].
  - apply (run_query_terms redis this (opts (Some (SearchFields text fields))) compiled
             ["(" ++ join " | "
                       (map (fun k => "(@" ++ k ++ ":" ++ addWildcard (opts None) text ++ ")")
                          fields) ++ ")"] w).
    rewrite Hterms. reflexivity.
  - apply (run_query_terms redis this (opts None) compiled [] w).
    rewrite Hterms. reflexivity.
  - apply (run_query_terms redis this (opts (Some (SearchString ""))) compiled [] w).
    rewrite Hterms. reflexivity.
Qed.

(** The statement at the filter of the example, the text [hello world]
    and the limit 10, on the store of the example. *)
Lemma query_sends_one_search_witness :
  sent (run BatchFacts.exampleClient
          (query exampleStore
             {| search := Some (SearchString "hello world"); where_ := Some exampleFilter;
                limit := Some (number_of_Z 10); wildcard := None |}) tt [])
  = [FT_SEARCH "idx" "((@status:active) ((@tag:{x}) | (@tag:{y}))) (*hello*world*)"
       {| LIMIT := Some {| from := 0; size := number_of_Z 10 |} |}]
  /\ sent (run BatchFacts.exampleClient
             (query exampleStore
                {| search := Some (SearchFields "a b" ["status"; "tag"]);
                   where_ := Some (Where []); limit := Some Zero; wildcard := Some false |})
             tt [])
     = [FT_SEARCH "idx" " ((@status:a b) | (@tag:a b))" {| LIMIT := None |}].
Proof.
  split.
  - exact (f_equal sent
             (proj1 (query_sends_one_search exampleStore exampleFilter
                       "((@status:active) ((@tag:{x}) | (@tag:{y})))" "hello world" []
                       (Some (number_of_Z 10)) None unit BatchFacts.exampleClient tt
                       eq_refl) ltac:(discriminate))).
  - exact (f_equal sent
             (proj1 (proj2 (query_sends_one_search exampleStore (Where []) ""
                              "a b" ["status"; "tag"] (Some Zero) (Some false)
                              unit BatchFacts.exampleClient tt eq_refl)))).
Defined.

(** What [search] may hold besides a string and an array. *)
Definition neitherStringNorArray (v : value) : bool :=
  match v with
  | VString _ | VArray _ => false
  | _ => true
  end.

(** X23.  [query] rejects before anything is sent when its filter does not
    compile, with the error of the compiler, whatever the text is; and,
    when the filter compiles or there is none, when what it is to search
    for is neither a string nor an array (and is truthy), with the type of
    that. *)
Theorem query_rejects_before_it_searches (this : JsonSearchStore)
  (given : option SearchInput) (limit : option number) (wildcard : option bool) :
  (forall filter e,
     buildQuery this filter = Throw e ->
     BatchFacts.rejectsSilently
       (query this {| search := given; where_ := Some filter;
                      limit := limit; wildcard := wildcard |}) e)
  /\ (forall filter v,
        match filter with
        | Some f => exists q, buildQuery this f = Ok q
        | None => True
        end ->
        neitherStringNorArray v = true -> truthy v = true ->
        BatchFacts.rejectsSilently
          (query this {| search := Some (SearchOther v); where_ := filter;
                         limit := limit; wildcard := wildcard |})
          (Error ("Unsupported search type: " ++ typeof v))).
Proof.
  split.
  - intros filter e H W redis w log. unfold query, queryTerms.
    cbn [where_]. rewrite H. reflexivity.
  - intros filter v Hf _ Hv W redis w log. unfold query, queryTerms, searchGiven.
    cbn [where_ search]. rewrite Hv.
    destruct filter as [f|]; [|reflexivity].
    destruct Hf as [q ->]. reflexivity.
Qed.

(** ** The differ *)

(** The attribute that the index reports for an identifier. *)
Definition liveAttributes (rawInfo : InfoReply) : list (value * list (string * value)) :=
  newMap (map (fun a => (get a "identifier", a)) (attributes rawInfo)).

Lemma indexChanged_unfold (this : JsonSearchStore) (rawInfo : InfoReply) :
  indexChanged this rawInfo
  = if negb (List.length (this_schema this) =? List.length (liveAttributes rawInfo))%nat
    then Ok true
    else bind (attributesChanged (this_schema this) (liveAttributes rawInfo)) (fun changed =>
           if changed then Ok true
           else definitionChanged (createOptions this)
                  (entriesOfDefinition (indexDefinition rawInfo))).
Proof. reflexivity. Qed.

Lemma includes_undefined (ps : list string) : includes (map VString ps) VUndefined = false.
Proof. induction ps as [|p ps IH]; [reflexivity | exact IH]. Qed.

(** The entries of [createOptions] of a store declared without a prefix
    compare as changed against every definition. *)
Lemma definitionChanged_without_prefix (o : JsonSearchStoreOptions) (d : IndexDefinition) :
  prefix o = None \/ prefix o = Some (OnePrefix "") ->
  definitionChanged (createOptions (new o)) (entriesOfDefinition d) = Ok true.
Proof.
  intros Hp.
  assert (E : createOptions (new o) = [("ON", VString "JSON"); ("PREFIX", VUndefined)]).
  { unfold new. cbn [createOptions]. destruct Hp as [-> | ->]; reflexivity. }
  rewrite E.
  change (definitionChanged _ _)
    with (bind (Ok (String.eqb "JSON" (key_type d))) (fun same =>
            if negb same then Ok true
            else bind (comparePrefix VUndefined (VArray (map VString (prefixes d))))
                   (fun same => if negb same then Ok true else Ok false))).
  cbn [bind]. destruct (String.eqb "JSON" (key_type d)); cbn [negb]; [|reflexivity].
  unfold comparePrefix. cbn [forallb bind]. rewrite includes_undefined.
  cbn [andb]. now rewrite andb_false_r.
Qed.

(** X24.  A store declared without a prefix (or with the empty string for one)
    never finds its index unchanged: its [createOptions] hold a PREFIX
    entry with the value [undefined], which is compared, as a list of one
    element, with the prefixes that the index reports and is not among
    them.  Whatever FT.INFO answers, the comparison gives [true] or
    throws. *)
Theorem an_index_without_prefix_never_compares_as_unchanged
  (o : JsonSearchStoreOptions) (rawInfo : InfoReply) :
  prefix o = None \/ prefix o = Some (OnePrefix "") ->
  indexChanged (new o) rawInfo <> Ok false.
Proof.
  intros Hp. rewrite indexChanged_unfold.
  destruct (negb _); [discriminate|].
  destruct (attributesChanged _ _) as [[|]|e]; cbn [bind]; try discriminate.
  now rewrite (definitionChanged_without_prefix o _ Hp).
Qed.

(** The statement on the store of the example, declared without a
    prefix, against the index that reports its two fields and the one,
    empty, prefix. *)
Lemma an_index_without_prefix_never_compares_as_unchanged_witness :
  let rawInfo :=
    {| attributes :=
         [[("identifier", VString "$.status"); ("attribute", VString "status");
           ("type", VString "TEXT")];
          [("identifier", VString "$.tag"); ("attribute", VString "tag");
           ("type", VString "TAG")]];
       indexDefinition :=
         {| key_type := "JSON"; prefixes := [""]; default_score := "1" |} |} in
  indexChanged exampleStore rawInfo = Ok true
  /\ indexChanged exampleStore rawInfo <> Ok false.
Proof.
  intros rawInfo. split; [reflexivity|].
  exact (an_index_without_prefix_never_compares_as_unchanged
           (options exampleStore) rawInfo (or_introl eq_refl)).
Defined.

(** What the inner loop found equal when it reports no change. *)
Definition propertyMatches (attribute : list (string * value)) (prop : string * value)
  : Prop :=
  (fst prop = "type" /\ strictEquals (snd prop) (get attribute "type") = true)
  \/ (fst prop = "AS" /\ strictEquals (snd prop) (get attribute "attribute") = true).

Lemma attrMappings_find (propKey : string) :
  find (fun attr : string * string => String.eqb (fst attr) propKey) attrMappings
  = if String.eqb "type" propKey then Some ("type", "type")
    else if String.eqb "AS" propKey then Some ("AS", "attribute")
    else None.
Proof. reflexivity. Qed.

Lemma propsChanged_false (props attribute : list (string * value)) :
  propsChanged props attribute = Ok false -> Forall (propertyMatches attribute) props.
Proof.
  induction props as [|[propKey propValue] props IH]; [constructor|].
  cbn [propsChanged]. rewrite attrMappings_find.
  destruct (String.eqb "type" propKey) eqn:Et.
  { apply String.eqb_eq in Et. subst propKey.
    destruct (strictEquals propValue (get attribute "type")) eqn:E; cbn [negb];
      [|discriminate].
    intros H. constructor; [left; now split | now apply IH]. }
  destruct (String.eqb "AS" propKey) eqn:Ea; [|discriminate].
  apply String.eqb_eq in Ea. subst propKey.
  destruct (strictEquals propValue (get attribute "attribute")) eqn:E; cbn [negb];
    [|discriminate].
  intros H. constructor; [right; now split | now apply IH].
Qed.

Lemma attributesChanged_false (schema : list (string * list (string * value)))
  (live : list (value * list (string * value))) :
  attributesChanged schema live = Ok false ->
  Forall (fun field => exists attribute,
            mapGet live (VString (fst field)) = Some attribute
            /\ Forall (propertyMatches attribute) (snd field)) schema.
Proof.
  induction schema as [|[identifier props] schema IH]; [constructor|].
  cbn [attributesChanged].
  destruct (mapGet live (VString identifier)) as [attribute|] eqn:Eg; [|discriminate].
  destruct (propsChanged props attribute) as [[|]|e] eqn:Ep; cbn [bind]; try discriminate.
  intros H. constructor; [|now apply IH].
  exists attribute. split; [exact Eg | now apply propsChanged_false].
Qed.

(** X25.  The differ has no false negative on the fields.  When it reports no
    change, the index reports as many attributes as fields are declared,
    and for every declared field an attribute with its path for
    identifier, whose type is the declared type and whose name is the
    declared alias; the field is declared with no other option than its
    type. *)
Theorem an_unchanged_index_has_every_declared_field (this : JsonSearchStore)
  (rawInfo : InfoReply) :
  indexChanged this rawInfo = Ok false ->
  List.length (this_schema this) = List.length (liveAttributes rawInfo)
  /\ Forall (fun field => exists attribute,
               mapGet (liveAttributes rawInfo) (VString (fst field)) = Some attribute
               /\ Forall (propertyMatches attribute) (snd field)) (this_schema this)
  /\ definitionChanged (createOptions this) (entriesOfDefinition (indexDefinition rawInfo))
     = Ok false.
Proof.
  rewrite indexChanged_unfold.
  destruct (List.length (this_schema this) =? List.length (liveAttributes rawInfo))%nat
    eqn:El; cbn [negb]; [|discriminate].
  apply Nat.eqb_eq in El.
  destruct (attributesChanged _ _) as [[|]|e] eqn:Ea; cbn [bind]; try discriminate.
  intros Hd. split; [exact El|]. split; [now apply attributesChanged_false | exact Hd].
Qed.

(** The statement on the store of the example with the prefix [doc:],
    against the index that reports the same. *)
Lemma an_unchanged_index_has_every_declared_field_witness :
  let store :=
    new {| name := "idx"; schema := schema (options exampleStore);
           prefix := Some (OnePrefix "doc:") |} in
  let rawInfo :=
    {| attributes :=
         [[("identifier", VString "$.status"); ("attribute", VString "status");
           ("type", VString "TEXT")];
          [("identifier", VString "$.tag"); ("attribute", VString "tag");
           ("type", VString "TAG")]];
       indexDefinition :=
         {| key_type := "JSON"; prefixes := ["doc:"]; default_score := "1" |} |} in
  Forall (fun field => exists attribute,
            mapGet (liveAttributes rawInfo) (VString (fst field)) = Some attribute
            /\ Forall (propertyMatches attribute) (snd field)) (this_schema store).
Proof.
  intros store rawInfo.
  exact (proj1 (proj2 (an_unchanged_index_has_every_declared_field store rawInfo eq_refl))).
Defined.

Lemma propsChanged_app (checked props attribute : list (string * value)) :
  propsChanged checked attribute = Ok false ->
  propsChanged (checked ++ props)%list attribute = propsChanged props attribute.
Proof.
  induction checked as [|[k v] checked IH]; [reflexivity|].
  cbn [List.app propsChanged].
  destruct (find _ attrMappings) as [[a [|c attrKey]]|]; try discriminate.
  destruct (negb _); [discriminate | exact IH].
Qed.

Lemma attributesChanged_app (before schema : list (string * list (string * value)))
  (live : list (value * list (string * value))) :
  attributesChanged before live = Ok false ->
  attributesChanged (before ++ schema)%list live = attributesChanged schema live.
Proof.
  induction before as [|[identifier props] before IH]; [reflexivity|].
  cbn [List.app attributesChanged].
  destruct (mapGet live (VString identifier)) as [attribute|]; [|discriminate].
  destruct (propsChanged props attribute) as [[|]|e]; cbn [bind]; try discriminate.
  exact IH.
Qed.

(** X26.  An option of a field that the differ has no mapping for makes it
    throw.  When the index reports as many attributes as fields are
    declared and the differ, having found no change in the fields and the
    options before it, comes to an option of a field other than [type]
    (and than the alias [AS], which the constructor adds), it throws the
    error that names that option, whatever the index reports for it. *)
Theorem an_option_that_is_not_mapped_makes_the_differ_throw (this : JsonSearchStore)
  (rawInfo : InfoReply) (before others : list (string * list (string * value)))
  (identifier k : string) (v : value) (checked more attribute : list (string * value)) :
  this_schema this
  = (before ++ (identifier, (checked ++ (k, v) :: more)%list) :: others)%list ->
  k <> "type" -> k <> "AS" ->
  List.length (this_schema this) = List.length (liveAttributes rawInfo) ->
  attributesChanged before (liveAttributes rawInfo) = Ok false ->
  mapGet (liveAttributes rawInfo) (VString identifier) = Some attribute ->
  propsChanged checked attribute = Ok false ->
  indexChanged this rawInfo = Throw (Error ("Index schema key not mapped : " ++ k)).
Proof.
  intros Hs Ht Ha Hlen Hbefore Hget Hchecked. rewrite indexChanged_unfold.
  apply Nat.eqb_eq in Hlen. rewrite Hlen. cbn [negb].
  rewrite Hs, (attributesChanged_app _ _ _ Hbefore). cbn [attributesChanged].
  rewrite Hget, (propsChanged_app _ _ _ Hchecked). cbn [propsChanged].
  rewrite attrMappings_find.
  apply String.eqb_neq in Ht, Ha. rewrite String.eqb_sym in Ht, Ha. now rewrite Ht, Ha.
Qed.

(** The statement on a store whose one field is declared SORTABLE,
    against the index that reports that field. *)
Lemma an_option_that_is_not_mapped_makes_the_differ_throw_witness :
  indexChanged
    (new {| name := "idx";
            schema := [("name", {| path := "$.name";
                                   rest := [("type", VString "TEXT");
                                            ("SORTABLE", VBoolean true)] |})];
            prefix := Some (OnePrefix "doc:") |})
    {| attributes :=
         [[("identifier", VString "$.name"); ("attribute", VString "name");
           ("type", VString "TEXT"); ("SORTABLE", VString "true")]];
       indexDefinition :=
         {| key_type := "JSON"; prefixes := ["doc:"]; default_score := "1" |} |}
  = Throw (Error "Index schema key not mapped : SORTABLE").
Proof.
  exact (an_option_that_is_not_mapped_makes_the_differ_throw
           (new {| name := "idx";
                   schema := [("name", {| path := "$.name";
                                          rest := [("type", VString "TEXT");
                                                   ("SORTABLE", VBoolean true)] |})];
                   prefix := Some (OnePrefix "doc:") |})
           {| attributes :=
                [[("identifier", VString "$.name"); ("attribute", VString "name");
                  ("type", VString "TEXT"); ("SORTABLE", VString "true")]];
              indexDefinition :=
                {| key_type := "JSON"; prefixes := ["doc:"]; default_score := "1" |} |}
           [] [] "$.name" "SORTABLE"
           (VBoolean true) [("type", VString "TEXT")] [("AS", VString "name")]
           [("identifier", VString "$.name"); ("attribute", VString "name");
            ("type", VString "TEXT"); ("SORTABLE", VString "true")]
           eq_refl ltac:(discriminate) ltac:(discriminate) eq_refl eq_refl eq_refl eq_refl).
Defined.

End SearchFacts.

(* ===================================================================== *)
(** * Keys of different IDs, keys of sets *)
(* ===================================================================== *)

Module KeyFacts.
Import JS Interfaces BaseStoreFacts.

Lemma startsWith_common (p a b : string) :
  startsWith (p ++ a) (p ++ b) = startsWith a b.
Proof.
  unfold startsWith. induction p as [|c p IH]; [reflexivity|].
  cbn [append String.prefix]. destruct (ascii_dec c c) as [_|ne]; [exact IH | now elim ne].
Qed.

(** X27.  Different IDs have different keys, as long as they do not start with
    the prefix of the store: with the default keygen, two different string
    IDs neither of which starts with the prefix have different keys. *)
Theorem toKey_tells_ids_apart (options : BaseStore.RedisStoreOptions) (id1 id2 : string) :
  let this := BaseStore.new options in
  BaseStore.keygen options = None ->
  startsWith id1 (BaseStore.PREFIX this) = false ->
  startsWith id2 (BaseStore.PREFIX this) = false ->
  id1 <> id2 ->
  BaseStore.toKey this (VString id1) <> BaseStore.toKey this (VString id2).
Proof.
  intros this Hk H1 H2 Hne E. apply Hne.
  assert (Hto : forall s, BaseStore.toKey this (VString s) = Ok (BaseStore.prefixKey this s)).
  { intros s. unfold BaseStore.toKey, BaseStore.serializeKey, this, BaseStore.new.
    cbn [BaseStore.store_keygen]. now rewrite Hk. }
  rewrite !Hto in E. injection E as E.
  rewrite <- (unPrefixKey_prefixKey this id1 H1), <- (unPrefixKey_prefixKey this id2 H2).
  now rewrite E.
Qed.

(** The statement at the IDs [1] and [2] of the store with the prefix
    [user]. *)
Lemma toKey_tells_ids_apart_witness :
  BaseStore.toKey (BaseStore.new BatchFacts.userOptions) (VString "1") = Ok "user:1"
  /\ BaseStore.toKey (BaseStore.new BatchFacts.userOptions) (VString "1")
     <> BaseStore.toKey (BaseStore.new BatchFacts.userOptions) (VString "2").
Proof.
  split; [reflexivity|].
  exact (toKey_tells_ids_apart BatchFacts.userOptions "1" "2" eq_refl eq_refl eq_refl
           ltac:(discriminate)).
Defined.

(** X28.  The set that [createSet] makes lies outside the name space of the
    store when the store has the default separator: its key, the prefix
    option followed by [-set:] and the name of the set, does not start
    with the prefix of the store, so that neither [keys], [getAll] nor
    [reset] of the store reaches it, and it uses the default keygen.  With
    the separator [-] the key of the set does start with the prefix. *)
Theorem createSet_leaves_the_name_space (T : Type) (parser : StringParser T)
  (options : BaseStore.RedisStoreOptions) (name : string) :
  let store := {| BaseStringStore.base := BaseStore.new options;
                  BaseStringStore.valueParser := parser |} in
  let made := StringStoreMethods.createSet store name in
  RedisSet.set_key made = BaseStore.prefix options ++ "-set:" ++ name
  /\ RedisSet.set_keygen made = DEFAULT_KEYGEN
  /\ (BaseStore.separator options = None \/ BaseStore.separator options = Some "" ->
      startsWith (RedisSet.set_key made) (BaseStore.PREFIX (BaseStore.new options)) = false)
  /\ (BaseStore.separator options = Some "-" ->
      startsWith (RedisSet.set_key made) (BaseStore.PREFIX (BaseStore.new options)) = true).
Proof.
  intros store made. split; [reflexivity|]. split; [reflexivity|].
  unfold made, StringStoreMethods.createSet, RedisSet.new, store, BaseStore.new.
  cbn [RedisSet.set_key RedisSet.key BaseStringStore.base BaseStore.NAMESPACE
         BaseStore.PREFIX].
  split.
  - intros [-> | ->]; cbn [string_or]; now rewrite startsWith_common.
  - intros ->. cbn [string_or]. now rewrite startsWith_common.
Qed.

End KeyFacts.

(* ===================================================================== *)
(** * The object parsers on every value *)
(* ===================================================================== *)

Module ReviverFacts.
Import JS TextFacts JsonFacts TraversalFacts ObjectParserFacts WalkFacts.

(** The values without a Date at any depth and without a repeated key in
    an object. *)
Fixpoint dateless (j : value) : bool :=
  match j with
  | VDate _ => false
  | VArray l => forallb dateless l
  | VObject ps => uniqueKeys ps && forallb (fun kv => dateless (snd kv)) ps
  | _ => true
  end.

(** What [JSON.stringify] writes of a value: [null] for a number that is
    not finite and for an [undefined] in an array, nothing for a property
    whose value is [undefined]. *)
Fixpoint written (j : value) : value :=
  match j with
  | VNumber NaN | VNumber (Infinity _) => VNull
  | VArray l =>
      VArray (map (fun e => match e with
                            | VUndefined => VNull
                            | _ => written e
                            end) l)
  | VObject ps =>
      VObject (flat_map (fun kv => match snd kv with
                                   | VUndefined => []
                                   | _ => [(fst kv, written (snd kv))]
                                   end) ps)
  | _ => j
  end.

(** What [recursiveReplace] makes of a value that holds no Invalid Date. *)
Definition replaced (v j : value) : Prop :=
  dateless j = true
  /\ (properNumbers v = true -> properNumbers j = true)
  /\ (v <> VUndefined -> j <> VUndefined).

Lemma recursiveReplace_outcome (v : value) :
  if holdsInvalidDate v
  then StringParsers.recursiveReplace v = Throw (RangeError "Invalid time value")
  else exists j, StringParsers.recursiveReplace v = Ok j /\ replaced v j.
Proof.
  induction v as [| |b|x|s|d|l IH|ps IH] using value_induction;
    try (cbn [holdsInvalidDate StringParsers.recursiveReplace]; eexists;
         split; [reflexivity | split; [reflexivity | split; auto]]).
  - destruct d as [|y mo dd h mi sec ms]; [reflexivity|].
    cbn [holdsInvalidDate StringParsers.recursiveReplace toISOString bind].
    eexists; split; [reflexivity | split; [reflexivity | split; [reflexivity | discriminate]]].
  - cbn [holdsInvalidDate StringParsers.recursiveReplace].
    pose proof (mapM_failure_or_all StringParsers.recursiveReplace holdsInvalidDate
                  (RangeError "Invalid time value") replaced l IH) as H.
    destruct (existsb holdsInvalidDate l).
    + now rewrite H.
    + destruct H as [js [-> Hjs]]. exists (VArray js). split; [reflexivity|].
      split; [|split; [|discriminate]].
      * cbn [dateless]. apply forallb_Forall.
        apply (Forall2_Forall_r replaced (fun _ => True)
                 (fun j => dateless j = true) l js); [| exact Hjs |].
        -- now intros x y [Hs _] _.
        -- apply Forall_forall. trivial.
      * cbn [properNumbers]. intros Hl. apply forallb_Forall in Hl. apply forallb_Forall.
        apply (Forall2_Forall_r replaced (fun x => properNumbers x = true)
                 (fun j => properNumbers j = true) l js); [| exact Hjs | exact Hl].
        intros x y [_ [Hp _]] Hx. exact (Hp Hx).
  - cbn [holdsInvalidDate StringParsers.recursiveReplace].
    pose proof (mapM_failure_or_all
                  (fun kv => bind (StringParsers.recursiveReplace (snd kv))
                               (fun v' => Ok (fst kv, v')))
                  (fun kv => holdsInvalidDate (snd kv))
                  (RangeError "Invalid time value")
                  (fun kv kj : string * value => replaced (snd kv) (snd kj)) ps) as H.
    assert (Hps : Forall
              (fun x : string * value =>
               if holdsInvalidDate (snd x)
               then bind (StringParsers.recursiveReplace (snd x)) (fun v' => Ok (fst x, v'))
                    = Throw (RangeError "Invalid time value")
               else exists y, bind (StringParsers.recursiveReplace (snd x))
                                (fun v' => Ok (fst x, v')) = Ok y
                              /\ replaced (snd x) (snd y)) ps).
    { revert IH. apply Forall_impl. intros [k v] Hv. cbn [fst snd] in *.
      destruct (holdsInvalidDate v).
      - now rewrite Hv.
      - destruct Hv as [j [-> Hj]]. exists (k, j). split; [reflexivity | exact Hj]. }
    specialize (H Hps).
    destruct (existsb (fun kv => holdsInvalidDate (snd kv)) ps).
    + now rewrite H.
    + destruct H as [entries [-> Hentries]].
      exists (VObject (fromEntries entries)). split; [reflexivity|].
      split; [|split; [|discriminate]].
      * cbn [dateless]. rewrite uniqueKeys_fromEntries. cbn [andb].
        apply forallb_Forall.
        apply (Forall_fromEntries (fun j => dateless j = true)).
        apply (Forall2_Forall_r (fun kv kj => replaced (snd kv) (snd kj))
                 (fun _ => True) (fun kj => dateless (snd kj) = true) ps entries);
          [| exact Hentries |].
        -- now intros x y [Hs _] _.
        -- apply Forall_forall. trivial.
      * cbn [properNumbers]. intros Hl. apply forallb_Forall in Hl. apply forallb_Forall.
        apply (Forall_fromEntries (fun j => properNumbers j = true)).
        apply (Forall2_Forall_r (fun kv kj => replaced (snd kv) (snd kj))
                 (fun kv => properNumbers (snd kv) = true)
                 (fun kj => properNumbers (snd kj) = true) ps entries);
          [| exact Hentries | exact Hl].
        intros x y [_ [Hp _]] Hx. exact (Hp Hx).
Qed.

(** The text of an element of an array. *)
Definition elementText (e : value) : string :=
  match stringify e with
  | Some t => t
  | None => "null"
  end.

(** The text of a property of an object, if it is written. *)
Definition propertyText (kv : string * value) : list string :=
  match stringify (snd kv) with
  | Some t => [quote (fst kv) ++ ":" ++ t]
  | None => []
  end.

Lemma stringify_defined (e : value) : e <> VUndefined -> exists t, stringify e = Some t.
Proof. destruct e; try (eexists; reflexivity). intros H. now elim H. Qed.

Lemma stringify_written (j : value) :
  dateless j = true -> stringify j = stringify (written j).
Proof.
  induction j as [| |b|x|s|d|l IH|ps IH] using value_induction; intros Hj;
    try discriminate; try reflexivity.
  - destruct x; reflexivity.
  - cbn [dateless] in Hj. cbn [written stringify].
    pose proof (Forall_forallb_impl _ _ _ IH Hj) as Hl.
    assert (E : map elementText l
                = map elementText (map (fun e => match e with
                                                 | VUndefined => VNull
                                                 | _ => written e
                                                 end) l)).
    { clear -Hl. induction Hl as [|e l He _ IHl]; [reflexivity|].
      cbn [map]. rewrite <- IHl. f_equal. unfold elementText.
      destruct e; try reflexivity; now rewrite <- He. }
    unfold elementText in E. now rewrite E.
  - cbn [dateless] in Hj. apply andb_prop in Hj as [_ Hj].
    cbn [written stringify].
    pose proof (Forall_forallb_impl (fun kv => dateless (snd kv)) _ _ IH Hj) as Hl.
    assert (E : flat_map propertyText ps
                = flat_map propertyText
                    (flat_map (fun kv => match snd kv with
                                         | VUndefined => []
                                         | _ => [(fst kv, written (snd kv))]
                                         end) ps)).
    { clear -Hl. induction Hl as [|[k e] l He _ IHl]; [reflexivity|].
      cbn [flat_map fst snd] in *. rewrite flat_map_app, <- IHl. f_equal.
      unfold propertyText.
      destruct e; cbn [flat_map fst snd List.app]; try reflexivity;
        rewrite <- He; cbn [fst snd]; now rewrite app_nil_r. }
    unfold propertyText in E. now rewrite E.
Qed.

Lemma existsb_written_keys (k : string) (ps : list (string * value)) :
  existsb (fun kv => String.eqb k (fst kv)) ps = false ->
  existsb (fun kv => String.eqb k (fst kv))
    (flat_map (fun kv => match snd kv with
                         | VUndefined => []
                         | _ => [(fst kv, written (snd kv))]
                         end) ps) = false.
Proof.
  induction ps as [|[k' e] ps IH]; [reflexivity|].
  cbn [existsb flat_map fst snd]. intros H. apply orb_false_iff in H as [H1 H2].
  rewrite existsb_app, (IH H2), orb_false_r.
  destruct e; cbn [existsb fst]; try reflexivity; now rewrite H1.
Qed.

Lemma uniqueKeys_written (ps : list (string * value)) :
  uniqueKeys ps = true ->
  uniqueKeys (flat_map (fun kv => match snd kv with
                                  | VUndefined => []
                                  | _ => [(fst kv, written (snd kv))]
                                  end) ps) = true.
Proof.
  induction ps as [|[k e] ps IH]; [reflexivity|].
  cbn [uniqueKeys flat_map fst snd]. intros H. apply andb_prop in H as [H1 H2].
  apply negb_true_iff in H1.
  destruct e; cbn [List.app uniqueKeys]; try (now apply IH);
    rewrite (existsb_written_keys k ps H1), (IH H2); reflexivity.
Qed.

Lemma jsonValue_written (j : value) :
  dateless j = true -> properNumbers j = true -> j <> VUndefined ->
  jsonValue (written j) = true.
Proof.
  induction j as [| |b|x|s|d|l IH|ps IH] using value_induction; intros Hj Hp Hu;
    try discriminate; try reflexivity.
  - now elim Hu.
  - destruct x; try reflexivity. exact Hp.
  - cbn [dateless properNumbers] in Hj, Hp. cbn [written jsonValue].
    apply forallb_Forall in Hj, Hp. clear Hu. revert Hj Hp.
    induction IH as [|e l He _ IHl]; intros Hj Hp; [reflexivity|].
    inversion Hj; inversion Hp; subst. cbn [map forallb]. rewrite IHl by assumption.
    rewrite andb_true_r.
    destruct e; try reflexivity; apply He; try assumption; discriminate.
  - cbn [dateless properNumbers] in Hj, Hp. apply andb_prop in Hj as [Hk Hj].
    cbn [written jsonValue]. rewrite (uniqueKeys_written ps Hk). cbn [andb].
    apply forallb_Forall in Hj, Hp. clear Hu Hk. revert Hj Hp.
    induction IH as [|[k e] l He _ IHl]; intros Hj Hp; [reflexivity|].
    inversion Hj; inversion Hp; subst. cbn [flat_map fst snd] in *.
    rewrite forallb_app, IHl by assumption. rewrite andb_true_r.
    destruct e; try reflexivity; cbn [forallb snd]; rewrite andb_true_r;
      apply He; try assumption; discriminate.
Qed.

Lemma objectParser_with_reviver_reads_whatever_it_wrote (v : value) :
  properNumbers v = true ->
  if holdsInvalidDate v
  then serialize StringParsers.objectParser v = Throw (RangeError "Invalid time value")
  else exists text back,
         serialize StringParsers.objectParser v = Ok text
         /\ deserialize StringParsers.objectParser text = Ok back.
Proof.
  intros Hv. destruct v as [| |b|x|s|d|l|ps] eqn:Ev;
    try (exists "REDIS_UNDEFINED", VUndefined; split; reflexivity);
    rewrite <- Ev in *;
    (assert (Hu : v <> VUndefined) by (rewrite Ev; discriminate));
    (assert (Hser : serialize StringParsers.objectParser v
                    = bind (StringParsers.recursiveReplace v) stringified)
       by (rewrite Ev; reflexivity));
    rewrite Hser; clear Hser;
    pose proof (recursiveReplace_outcome v) as H;
    (destruct (holdsInvalidDate v); [now rewrite H|]);
    destruct H as [j [-> [Hj [Hp Hju]]]]; cbn [bind];
    specialize (Hp Hv); specialize (Hju Hu);
    destruct (JSON_parse_stringify (written j) (jsonValue_written j Hj Hp Hju)) as [Hs Hr];
    exists (textOf (written j)), (internalize StringParsers.reviver "" (written j));
    unfold stringified; rewrite (stringify_written j Hj), Hs;
    (split; [reflexivity|]);
    cbn [deserialize StringParsers.objectParser];
    rewrite (textOf_not_sentinel (written j) (jsonValue_written j Hj Hp Hju));
    unfold JSON_parse_with; now rewrite Hr.
Qed.

(** X5.  Both revisions of [objectParser] read whatever they wrote, whatever
    strings, numbers and absent values the value holds: [serialize] fails
    on the values that hold an Invalid Date, with the RangeError of
    [toISOString], and on no other, and [deserialize] accepts every text
    that [serialize] returns. *)
Theorem objectParser_reads_whatever_it_wrote (v : value) :
  properNumbers v = true ->
  forall parser,
    parser = StringParsers.objectParser \/ parser = StringParsersUtils.objectParser ->
    if holdsInvalidDate v
    then serialize parser v = Throw (RangeError "Invalid time value")
    else exists text back,
           serialize parser v = Ok text /\ deserialize parser text = Ok back.
Proof.
  intros Hv parser [-> | ->].
  - now apply objectParser_with_reviver_reads_whatever_it_wrote.
  - now apply objectParser_of_utils_reads_whatever_it_wrote.
Qed.

(** The statement at [[NaN, "REDIS_DATE:x", undefined]], which each
    parser writes and reads (as another value), and at an Invalid Date,
    which is refused. *)
Lemma objectParser_reads_whatever_it_wrote_witness :
  (exists text back,
     serialize StringParsers.objectParser
       (VArray [VNumber NaN; VString "REDIS_DATE:x"; VUndefined]) = Ok text
     /\ deserialize StringParsers.objectParser text = Ok back)
  /\ (exists text back,
        serialize StringParsersUtils.objectParser
          (VArray [VNumber NaN; VString "REDIS_DATE:x"; VUndefined]) = Ok text
        /\ deserialize StringParsersUtils.objectParser text = Ok back)
  /\ serialize StringParsers.objectParser (VArray [VDate InvalidDate])
     = Throw (RangeError "Invalid time value").
Proof.
  split; [|split].
  - exact (objectParser_reads_whatever_it_wrote
             (VArray [VNumber NaN; VString "REDIS_DATE:x"; VUndefined]) eq_refl
             StringParsers.objectParser (or_introl eq_refl)).
  - exact (objectParser_reads_whatever_it_wrote
             (VArray [VNumber NaN; VString "REDIS_DATE:x"; VUndefined]) eq_refl
             StringParsersUtils.objectParser (or_intror eq_refl)).
  - exact (objectParser_reads_whatever_it_wrote (VArray [VDate InvalidDate]) eq_refl
             StringParsers.objectParser (or_introl eq_refl)).
Defined.

Lemma serialize_with_reviver_writes_json (v : value) :
  properNumbers v = true -> v <> VUndefined ->
  serialize StringParsers.objectParser v = Throw (RangeError "Invalid time value")
  \/ exists j, jsonValue j = true
                /\ serialize StringParsers.objectParser v = Ok (textOf j).
Proof.
  intros Hv Hu.
  assert (Hser : serialize StringParsers.objectParser v
                 = bind (StringParsers.recursiveReplace v) stringified)
    by (destruct v; [now elim Hu | reflexivity ..]).
  rewrite Hser. pose proof (recursiveReplace_outcome v) as H.
  destruct (holdsInvalidDate v); [left; now rewrite H|].
  destruct H as [j [-> [Hj [Hp Hju]]]]. cbn [bind]. right.
  specialize (Hp Hv). specialize (Hju Hu). exists (written j).
  split; [exact (jsonValue_written j Hj Hp Hju)|].
  unfold stringified. rewrite (stringify_written j Hj).
  now rewrite (proj1 (JSON_parse_stringify (written j) (jsonValue_written j Hj Hp Hju))).
Qed.

(** X29.  The [objectParser] with the reviver writes the bare sentinel for the
    absent value and for nothing else: the string ["REDIS_UNDEFINED"] is
    written in JSON quotes and read back as that string.  The
    [objectParser] built on [recursiveSerialize] reads that string back as
    the absent value. *)
Theorem the_bare_sentinel_stands_for_the_absent_value_only (v : value) :
  properNumbers v = true ->
  (serialize StringParsers.objectParser v = Ok "REDIS_UNDEFINED" <-> v = VUndefined)
  /\ roundTrip StringParsers.objectParser (VString "REDIS_UNDEFINED")
     = Ok (VString "REDIS_UNDEFINED")
  /\ roundTrip StringParsersUtils.objectParser (VString "REDIS_UNDEFINED") = Ok VUndefined.
Proof.
  intros Hv. split; [|split; reflexivity].
  split; [|intros ->; reflexivity].
  intros H. destruct v as [| |b|x|s|d|l|ps] eqn:Ev; [reflexivity | ..]; exfalso;
    rewrite <- Ev in *;
    (assert (Hu : v <> VUndefined) by (rewrite Ev; discriminate));
    (destruct (serialize_with_reviver_writes_json v Hv Hu) as [E | [j [Hj E]]];
     rewrite E in H; [discriminate|]);
    injection H as H; pose proof (textOf_not_sentinel j Hj) as Hn;
    rewrite H in Hn; discriminate Hn.
Qed.

(** The statement at the string ["REDIS_UNDEFINED"]. *)
Lemma the_bare_sentinel_stands_for_the_absent_value_only_witness :
  serialize StringParsers.objectParser (VString "REDIS_UNDEFINED")
  = Ok (quote "REDIS_UNDEFINED")
  /\ (serialize StringParsers.objectParser (VString "REDIS_UNDEFINED")
      = Ok "REDIS_UNDEFINED" <-> VString "REDIS_UNDEFINED" = VUndefined).
Proof.
  split; [reflexivity|].
  exact (proj1 (the_bare_sentinel_stands_for_the_absent_value_only
                  (VString "REDIS_UNDEFINED") eq_refl)).
Defined.

End ReviverFacts.
